(** * The causal-loop simulation engine of [api/engine.js]

    A shallow embedding of [runCausalSimulation] and of the functions it
    is built from, followed by the properties of the engine.

    JavaScript numbers are IEEE 754 binary64 values; they are modelled by
    Rocq's primitive floats, whose operations are the same binary64
    operations.  Loosely typed inputs (the graph description and the
    options) are modelled by a tree of JSON-shaped values.  The engine's
    [Map]s are insertion-ordered association lists with unique keys. *)

From Stdlib Require Import ZArith List String Ascii Bool Floats Lia.
From Stdlib Require Import Permutation.
From Stdlib Require QArith Qminmax Qround Qabs.
Import ListNotations.

Set Warnings "-inexact-float,-register-all".

Open Scope string_scope.
Open Scope list_scope.
Open Scope float_scope.

(** ** Outcomes of a call *)

(** A call returns, throws a [TypeError], or leaves the fragment of
    JavaScript that this development covers ([Unmodelled]: an identifier
    that is not a string, or a run longer than an array can record). *)
Inductive outcome (A : Type) : Type :=
| Ok (a : A)
| TypeError
| Unmodelled.

Arguments Ok {A} a.
Arguments TypeError {A}.
Arguments Unmodelled {A}.

Definition bind {A B : Type} (c : outcome A) (k : A -> outcome B) : outcome B :=
  match c with
  | Ok a => k a
  | TypeError => TypeError
  | Unmodelled => Unmodelled
  end.

Notation "x <- c ;; k" := (bind c (fun x => k))
  (at level 61, c at next level, right associativity).

(** [array.forEach] with a callback that may stop the run. *)
Fixpoint forEach {A S : Type} (items : list A) (body : S -> A -> outcome S)
    (s : S) : outcome S :=
  match items with
  | [] => Ok s
  | item :: rest => s' <- body s item ;; forEach rest body s'
  end.

(** ** JavaScript values *)

Inductive jsval : Type :=
| VUndefined
| VNull
| VBool (b : bool)
| VNumber (x : float)
| VString (s : string)
| VArray (items : list jsval)
| VObject (props : list (string * jsval)).

Module Js.

(** ToBoolean. *)
Definition truthy (v : jsval) : bool :=
  match v with
  | VUndefined | VNull => false
  | VBool b => b
  | VNumber x => negb (is_nan x || is_zero x)
  | VString s => negb (s =? "")%string
  | VArray _ | VObject _ => true
  end.

(** [a || b] and [a ?? b]; their operands here are reads that cannot
    throw once the first one has been made. *)
Definition or (a b : jsval) : jsval := if truthy a then a else b.

Definition coalesce (a b : jsval) : jsval :=
  match a with
  | VUndefined | VNull => b
  | _ => a
  end.

Fixpoint lookup (props : list (string * jsval)) (k : string) : jsval :=
  match props with
  | [] => VUndefined
  | (k', v) :: rest => if (k =? k')%string then v else lookup rest k
  end.

(** [base.k] for the property names the engine reads.  None of them is
    inherited by an object, an array, a string, a number or a boolean,
    so only an own property of an object can answer. *)
Definition get (base : jsval) (k : string) : outcome jsval :=
  match base with
  | VUndefined | VNull => TypeError
  | VObject props => Ok (lookup props k)
  | _ => Ok VUndefined
  end.

(** The same read where the base is known not to be null or undefined. *)
Definition field (base : jsval) (k : string) : jsval :=
  match base with
  | VObject props => lookup props k
  | _ => VUndefined
  end.

(** [typeof v === "object"], [typeof v === "string"], [Array.isArray]. *)
Definition typeof_object (v : jsval) : bool :=
  match v with
  | VNull | VArray _ | VObject _ => true
  | _ => false
  end.

(** A default parameter value replaces [undefined] only. *)
Definition default (v d : jsval) : jsval :=
  match v with
  | VUndefined => d
  | _ => v
  end.

(** [Number.isFinite] on a number. *)
Definition isFinite (x : float) : bool := is_finite x.

(** The integer a float denotes, when it is a finite integer. *)
Definition integer_value (x : float) : option Z :=
  match Prim2SF x with
  | S754_zero _ => Some 0%Z
  | S754_finite s m e =>
      let sign := if s then (-1)%Z else 1%Z in
      if (0 <=? e)%Z then Some (sign * (Z.pos m * 2 ^ e))%Z
      else if (Z.pos m mod 2 ^ (- e) =? 0)%Z
           then Some (sign * (Z.pos m / 2 ^ (- e)))%Z
           else None
  | _ => None
  end.

(** The float of an array length (exact: lengths are below [2^32]). *)
Definition of_length (n : nat) : float :=
  of_uint63 (Uint63.of_Z (Z.of_nat n)).

Definition is_neg_zero (x : float) : bool :=
  match classify x with NZero => true | _ => false end.

Definition is_pos_zero (x : float) : bool :=
  match classify x with PZero => true | _ => false end.

(** [Math.max] and [Math.min] of two numbers: [NaN] is contagious and
    [+0] is larger than [-0]. *)
Definition Math_max (a b : float) : float :=
  if is_nan a || is_nan b then nan
  else if a <? b then b
  else if b <? a then a
  else if is_neg_zero a then b else a.

Definition Math_min (a b : float) : float :=
  if is_nan a || is_nan b then nan
  else if a <? b then a
  else if b <? a then b
  else if is_pos_zero a then b else a.

Definition Math_abs (x : float) : float := abs x.

(** [Math.sign]: [1], [-1], or the argument itself ([+0], [-0], [NaN]). *)
Definition Math_sign (x : float) : float :=
  if 0 <? x then 1 else if x <? 0 then -1 else x.

(** [Math.round]: the integer nearest to [x], halves towards [+Infinity];
    the sign of a zero result is the sign of [x]. *)
Definition Math_round (x : float) : float :=
  match Prim2SF x with
  | S754_finite s m e =>
      if (0 <=? e)%Z then x
      else
        let num := ((if s then -1 else 1) * (2 * Z.pos m) + 2 ^ (- e))%Z in
        let n := (num / 2 ^ (1 - e))%Z in
        match n with
        | Z0 => if s then neg_zero else zero
        | Zpos p => of_uint63 (Uint63.of_Z (Z.pos p))
        | Zneg p => - of_uint63 (Uint63.of_Z (Z.pos p))
        end
  | _ => x
  end.

(** *** The order in which an object lists its properties

    [Object.keys], [Object.entries] and [JSON.stringify] list the own
    properties of a plain object with the array indices first, in
    ascending order, and the other keys after them in the order in
    which the properties were created.  An array index is the decimal
    text, without a leading zero, of an integer below [2^32 - 1].  A
    list of properties in this development is in the order of creation
    (for a literal or a JSON text, the order in which it is written);
    what the source enumerates goes through [entries]. *)
Definition digitOf (c : ascii) : option N :=
  let n := N_of_ascii c in
  if (48 <=? n)%N && (n <=? 57)%N then Some (n - 48)%N else None.

Fixpoint decimalOf (s : string) (acc : N) : option N :=
  match s with
  | EmptyString => Some acc
  | String c rest =>
      match digitOf c with
      | Some d => decimalOf rest (10 * acc + d)%N
      | None => None
      end
  end.

Definition arrayIndex (k : string) : option N :=
  match k with
  | EmptyString => None
  | String c rest =>
      if (c =? "0")%char && negb (rest =? "")%string then None
      else
        match decimalOf k 0 with
        | Some n => if (n <=? 4294967294)%N then Some n else None
        | None => None
        end
  end.

Section Enumeration.

Context {A : Type}.

(** What is listed has a key, read off by [key]. *)
Variable key : A -> string.

Definition isIndexed (x : A) : bool :=
  match arrayIndex (key x) with
  | Some _ => true
  | None => false
  end.

Definition indexOfKey (x : A) : N :=
  match arrayIndex (key x) with
  | Some n => n
  | None => 0%N
  end.

Fixpoint insertIndexed (x : A) (sorted : list A) : list A :=
  match sorted with
  | [] => [x]
  | y :: rest =>
      if (indexOfKey x <=? indexOfKey y)%N then x :: sorted
      else y :: insertIndexed x rest
  end.

Definition enumerate (l : list A) : list A :=
  fold_right insertIndexed [] (filter isIndexed l)
  ++ filter (fun x => negb (isIndexed x)) l.

End Enumeration.

(** [Object.entries(o)] and [Object.keys(o)] from the properties of [o]. *)
Definition entries {A : Type} (props : list (string * A)) : list (string * A) :=
  enumerate fst props.

Definition keysInOrder (ks : list string) : list string :=
  enumerate (fun k => k) ks.

(** *** The order of strings

    [a < b] on strings compares UTF-16 code units, and a string that
    is the beginning of another comes first.  Strings are held here as
    the bytes of their UTF-8 encoding, on which the first byte that
    differs decides in the same way, with one exception: a character
    from U+E000 to U+FFFF (first byte [EE] or [EF]) is a code unit
    above the surrogates that stand for a character beyond U+FFFF
    (first byte [F0] to [F4]), so these two first bytes rank above the
    others.  ([FE] and [FF] are no bytes of UTF-8; they take the ranks
    left free.)  Text with a lone surrogate has no UTF-8 encoding and
    is not modelled. *)
Definition unitRank (c : ascii) : N :=
  let n := N_of_ascii c in
  if (n =? 238)%N || (n =? 239)%N then (n + 16)%N
  else if (n =? 254)%N || (n =? 255)%N then (n - 16)%N
  else n.

Fixpoint lessThan (a b : string) : bool :=
  match a, b with
  | EmptyString, EmptyString => false
  | EmptyString, String _ _ => true
  | String _ _, EmptyString => false
  | String c a', String d b' =>
      if (c =? d)%char then lessThan a' b'
      else (unitRank c <? unitRank d)%N
  end.

End Js.

Notation "a '|||' b" := (Js.or a b) (at level 50, left associativity).
Notation "a '???' b" := (Js.coalesce a b) (at level 50, left associativity).

(** ** Maps

    A JavaScript [Map] with string keys: entries in insertion order, one
    per key; [set] on a present key replaces the value in place. *)
Module JsMap.

Definition t (A : Type) : Type := list (string * A).

Fixpoint get {A : Type} (m : t A) (k : string) : option A :=
  match m with
  | [] => None
  | (k', v) :: rest => if (k =? k')%string then Some v else get rest k
  end.

Definition has {A : Type} (m : t A) (k : string) : bool :=
  match get m k with
  | Some _ => true
  | None => false
  end.

Fixpoint set {A : Type} (m : t A) (k : string) (v : A) : t A :=
  match m with
  | [] => [(k, v)]
  | (k', v') :: rest =>
      if (k =? k')%string then (k', v) :: rest else (k', v') :: set rest k v
  end.

Definition keys {A : Type} (m : t A) : list string := map fst m.

Definition values {A : Type} (m : t A) : list A := map snd m.

End JsMap.

(** A plain object used as a record of numbers: [snapshot[key] = value].
    The key ["__proto__"] reaches the inherited setter, which ignores a
    number, so no property is stored for it. *)
Definition object_set (o : list (string * float)) (k : string) (v : float)
    : list (string * float) :=
  if (k =? "__proto__")%string then o else JsMap.set o k v.

(** ** Data of the engine *)

Record GVariable := mkVariable {
  v_id : string;
  v_value : float;
  v_baseline : float
}.

Record Edge := mkEdge {
  e_from : string;
  e_to : string;
  e_weight : float
}.

Inductive LoopType := Reinforcing | Balancing.

Record CycleRecord := mkCycle {
  c_type : LoopType;
  c_dominance : float;
  c_nodes : list string;
  c_chain : string;
  c_weights : list float
}.

(** The values of a snapshot are the properties of a plain object, in
    the order of their creation; [Js.entries] lists them as the object
    does. *)
Record Snapshot := mkSnapshot {
  s_step : Z;
  s_values : list (string * float)
}.

Record FiveFactorState := mkState {
  vitality : float;
  cognition : float;
  emotion : float;
  adaptability : float;
  meaning : float
}.

Record Simulation := mkSimulation {
  timeSeries : list Snapshot;
  finalValues : JsMap.t float
}.

Record Result := mkResult {
  r_loopsDetected : list CycleRecord;
  r_timeSeries : list Snapshot;
  r_newState : FiveFactorState
}.

(** ** The engine *)

Section Engine.

(** [Number(v)] on a string, an array or an object goes through the
    host's string conversion and numeric-literal parser, which are not
    part of this repository: that part of [Number] is a parameter. *)
Variable NumberOfText : jsval -> float.

Definition Number (v : jsval) : float :=
  match v with
  | VUndefined => nan
  | VNull => 0
  | VBool b => if b then 1 else 0
  | VNumber x => x
  | VString _ | VArray _ | VObject _ => NumberOfText v
  end.

Definition clamp (value min max : float) : float :=
  if is_nan value then min
  else Js.Math_max min (Js.Math_min max value).

Definition toNumber (value : jsval) (fallback : float) : float :=
  let parsed := Number value in
  if Js.isFinite parsed then parsed else fallback.

Definition NORMALIZED_RANGE_min : float := 0.
Definition NORMALIZED_RANGE_max : float := 10.

Definition clampRange (x : float) : float :=
  clamp x NORMALIZED_RANGE_min NORMALIZED_RANGE_max.

(** *** normalizeVariables *)

(** [item.initial ?? item.value ?? item.start ?? 5] and
    [item.baseline ?? item.setPoint ?? initial ?? 5], through [toNumber]. *)
Definition readInitial (item : jsval) : float :=
  toNumber (Js.field item "initial" ??? Js.field item "value"
              ??? Js.field item "start" ??? VNumber 5) 5.

Definition readBaseline (item : jsval) (initial : float) : float :=
  toNumber (Js.field item "baseline" ??? Js.field item "setPoint"
              ??? VNumber initial ??? VNumber 5) 5.

Definition variableOf (id : string) (item : jsval) : GVariable :=
  let initial := readInitial item in
  let baseline := readBaseline item initial in
  mkVariable id (clampRange initial) (clampRange baseline).

(** The callback of [rawNodes.forEach] in the array case. *)
Definition pushNode (normalized : list GVariable) (item : jsval)
    : outcome (list GVariable) :=
  if negb (Js.truthy item) then Ok normalized
  else
    match item with
    | VString s => Ok (normalized ++ [mkVariable s 5 5])
    | _ =>
        let id := Js.field item "id" ||| Js.field item "name" in
        if negb (Js.truthy id) then Ok normalized
        else
          match id with
          | VString s => Ok (normalized ++ [variableOf s item])
          | _ => Unmodelled
          end
    end.

(** The callback of [Object.entries(rawNodes).forEach]. *)
Definition pushEntry (normalized : list GVariable) (entry : string * jsval)
    : list GVariable :=
  let (id, item) := entry in
  if (id =? "")%string then normalized
  else if Js.truthy item && Js.typeof_object item
       then normalized ++ [variableOf id item]
       else
         let initial := toNumber item 5 in
         normalized ++ [mkVariable id (clampRange initial) (clampRange initial)].

Definition normalizeVariables (graph : jsval) : outcome (list GVariable) :=
  let graph := Js.default graph (VObject []) in
  variables <- Js.get graph "variables" ;;
  let rawNodes := variables ||| Js.field graph "nodes"
                    ||| Js.field graph "stocks"
                    ||| Js.field graph "vertices" ||| graph in
  match rawNodes with
  | VArray items => forEach items pushNode []
  | VObject props => Ok (fold_left pushEntry (Js.entries props) [])
  | _ => Ok []
  end.

(** *** normalizeEdges *)

Definition readWeight (edge : jsval) : float :=
  toNumber (Js.field edge "weight" ??? Js.field edge "strength"
              ??? Js.field edge "value" ??? VNumber 0) 0.

(** The callback of [rawEdges.forEach] in the array case. *)
Definition pushEdge (normalized : list Edge) (edge : jsval)
    : outcome (list Edge) :=
  if negb (Js.truthy edge) then Ok normalized
  else
    let from := Js.field edge "from" ||| Js.field edge "source" in
    let to := Js.field edge "to" ||| Js.field edge "target" in
    if negb (Js.truthy from) || negb (Js.truthy to) then Ok normalized
    else
      match from, to with
      | VString f, VString t => Ok (normalized ++ [mkEdge f t (readWeight edge)])
      | _, _ => Unmodelled
      end.

(** The callback of [value.forEach] for an entry [key: [targets]]. *)
Definition pushTarget (key : string) (normalized : list Edge) (target : jsval)
    : outcome (list Edge) :=
  if negb (Js.truthy target) then Ok normalized
  else
    let to :=
      match target with
      | VString _ => target
      | _ => Js.field target "to" ||| Js.field target "target"
      end in
    let weight := if Js.typeof_object target then readWeight target else 0.5 in
    match to with
    | VString t => Ok (normalized ++ [mkEdge key t weight])
    | _ => Unmodelled
    end.

(** The callback of [Object.entries(rawEdges).forEach]. *)
Definition pushEdgeEntry (normalized : list Edge) (entry : string * jsval)
    : outcome (list Edge) :=
  let (key, value) := entry in
  if negb (Js.truthy value) then Ok normalized
  else
    match value with
    | VArray targets => forEach targets (pushTarget key) normalized
    | VObject _ =>
        let from := Js.field value "from" ||| Js.field value "source"
                      ||| VString key in
        let to := Js.field value "to" ||| Js.field value "target" in
        if negb (Js.truthy to) then Ok normalized
        else
          match from, to with
          | VString f, VString t =>
              Ok (normalized ++ [mkEdge f t (readWeight value)])
          | _, _ => Unmodelled
          end
    | _ => Ok normalized
    end.

Definition normalizeEdges (graph : jsval) : outcome (list Edge) :=
  let graph := Js.default graph (VObject []) in
  edges <- Js.get graph "edges" ;;
  let rawEdges := edges ||| Js.field graph "links"
                    ||| Js.field graph "connections" ||| VArray [] in
  match rawEdges with
  | VArray items => forEach items pushEdge []
  | VObject props => forEach (Js.entries props) pushEdgeEntry []
  | _ => Ok []
  end.

(** *** buildAdjacency *)

Definition buildAdjacency (edges : list Edge)
    : JsMap.t (list (string * float)) :=
  fold_left
    (fun adjacency edge =>
       let adjacency :=
         if negb (JsMap.has adjacency (e_from edge))
         then JsMap.set adjacency (e_from edge) []
         else adjacency in
       match JsMap.get adjacency (e_from edge) with
       | Some out =>
           JsMap.set adjacency (e_from edge)
             (out ++ [(e_to edge, e_weight edge)])
       | None => adjacency
       end)
    edges [].

(** *** canonicalizeCycle *)

(** The comparator handed to [rotations.sort]: the first position where
    the two lists differ decides, by [a[i] < b[i]], the order of
    strings by their code units ([Js.lessThan]). *)
Fixpoint compareRotations (a b : list string) : comparison :=
  match a with
  | [] => Eq
  | x :: a' =>
      match b with
      | [] => Gt
      | y :: b' =>
          if (x =? y)%string then compareRotations a' b'
          else if Js.lessThan x y then Lt else Gt
      end
  end.

(** [Array.prototype.sort] is stable; a stable insertion sort gives the
    same array. *)
Fixpoint insertRotation (r : list string) (sorted : list (list string))
    : list (list string) :=
  match sorted with
  | [] => [r]
  | s :: rest =>
      match compareRotations r s with
      | Gt => s :: insertRotation r rest
      | _ => r :: sorted
      end
  end.

Definition sortRotations (rotations : list (list string))
    : list (list string) :=
  fold_right insertRotation [] rotations.

Definition rotationsOf (simple : list string) : list (list string) :=
  map (fun i => skipn i simple ++ firstn i simple) (seq 0 (List.length simple)).

Definition canonicalizeCycle (nodes : list string) : option string :=
  match nodes with
  | [] => None
  | _ =>
      let simple := removelast nodes in
      match sortRotations (rotationsOf simple) with
      | [] => None
      | canonical :: _ =>
          Some (String.concat "->" (canonical ++ firstn 1 canonical))
      end
  end.

(** *** detectCycles *)

(** The state the traversal mutates: the path, the weights of the edges
    taken along it, and the cycles recorded so far. *)
Record Dfs := mkDfs {
  stack : list string;
  edgeStack : list float;
  seen : JsMap.t CycleRecord
}.

(** [stack.indexOf(x)], where [None] stands for [-1]. *)
Fixpoint indexOf (l : list string) (x : string) : option nat :=
  match l with
  | [] => None
  | y :: rest =>
      if (x =? y)%string then Some O
      else match indexOf rest x with
           | Some i => Some (S i)
           | None => None
           end
  end.

(** [Array.from(new Set(edges.flatMap(edge => [edge.from, edge.to])))]. *)
Definition addToSet (set : list string) (x : string) : list string :=
  match indexOf set x with
  | Some _ => set
  | None => set ++ [x]
  end.

Definition nodesOf (edges : list Edge) : list string :=
  fold_left addToSet (flat_map (fun edge => [e_from edge; e_to edge]) edges) [].

(** [edges.reduce((acc, edge) => Math.max(acc, Math.abs(edge.weight)), 0)]. *)
Definition maxAbsAll (edges : list Edge) : float :=
  fold_left (fun acc edge => Js.Math_max acc (Js.Math_abs (e_weight edge)))
    edges 0.

(** [... || 1]. *)
Definition maxAbsOf (edges : list Edge) : float :=
  let m := maxAbsAll edges in
  if Js.truthy (VNumber m) then m else 1.

Definition signProduct (cycleWeights : list float) : float :=
  fold_left
    (fun acc weight => acc * (if weight =? 0 then 0 else Js.Math_sign weight))
    cycleWeights 1.

Definition avgAbsOf (cycleWeights : list float) : float :=
  fold_left (fun acc weight => acc + Js.Math_abs weight) cycleWeights 0
    / Js.of_length (List.length cycleWeights).

Definition dominanceOf (maxAbs : float) (cycleWeights : list float) : float :=
  Js.Math_round (clamp ((avgAbsOf cycleWeights / maxAbs) * 100) 0 100).

Definition typeOf (cycleWeights : list float) : LoopType :=
  if 0 <? signProduct cycleWeights then Reinforcing else Balancing.

Definition recordOf (maxAbs : float) (cycleNodes : list string)
    (cycleWeights : list float) : CycleRecord :=
  mkCycle (typeOf cycleWeights) (dominanceOf maxAbs cycleWeights)
    (removelast cycleNodes)
    (String.concat " → " cycleNodes)
    cycleWeights.

(** The body of [if (idx !== -1)]: the edge closes a cycle with the part
    of the path that starts at position [idx]. *)
Definition closeCycle (maxAbs : float) (to : string) (idx : nat) (st : Dfs)
    : Dfs :=
  let cycleNodes := skipn idx (stack st) ++ [to] in
  let cycleWeights := skipn idx (edgeStack st) in
  match canonicalizeCycle cycleNodes with
  | Some key =>
      if negb (key =? "")%string && negb (JsMap.has (seen st) key)
      then mkDfs (stack st) (edgeStack st)
             (JsMap.set (seen st) key (recordOf maxAbs cycleNodes cycleWeights))
      else st
  | None => st
  end.

Definition outgoingOf (adjacency : JsMap.t (list (string * float)))
    (current : string) : list (string * float) :=
  match JsMap.get adjacency current with
  | Some out => out
  | None => []
  end.

(** The body of [for (const edge of outgoing)], with the recursive call
    [visit(edge.to, start)] as [visitNext]. *)
Definition visitEdge (visitNext : string -> Dfs -> option Dfs) (maxAbs : float)
    (acc : option Dfs) (edge : string * float) : option Dfs :=
  match acc with
  | None => None
  | Some st =>
      let st := mkDfs (stack st) (edgeStack st ++ [snd edge]) (seen st) in
      let after :=
        match indexOf (stack st) (fst edge) with
        | Some idx =>
            if (1 <=? List.length (stack st) - idx)%nat
            then Some (closeCycle maxAbs (fst edge) idx st)
            else Some st
        | None => visitNext (fst edge) st
        end in
      match after with
      | None => None
      | Some st =>
          Some (mkDfs (stack st) (removelast (edgeStack st)) (seen st))
      end
  end.

(** [visit(current, start)].  The recursion follows edges to nodes that
    are not on the path, so its depth is bounded by the number of nodes;
    [fuel] is that bound, and [None] means it was too small.

    The source recurses on the call stack of its host, one frame for
    every node of the path, and a host whose stack is shorter than the
    longest path throws a [RangeError] there.  The size of that stack
    is no part of the repository and is not modelled: [visit] and
    [detectCycles] say what the source returns where it returns, and
    nothing here says that it does. *)
Fixpoint visit (fuel : nat) (adjacency : JsMap.t (list (string * float)))
    (maxAbs : float) (current : string) (st : Dfs) : option Dfs :=
  match fuel with
  | O => None
  | S fuel' =>
      let st := mkDfs (stack st ++ [current]) (edgeStack st) (seen st) in
      match fold_left (visitEdge (visit fuel' adjacency maxAbs) maxAbs)
              (outgoingOf adjacency current) (Some st) with
      | None => None
      | Some st => Some (mkDfs (removelast (stack st)) (edgeStack st) (seen st))
      end
  end.

(** The callback of [nodes.forEach]: a traversal from [node], after
    which both stacks are emptied. *)
Definition visitRoot (fuel : nat) (adjacency : JsMap.t (list (string * float)))
    (maxAbs : float) (acc : option (JsMap.t CycleRecord)) (node : string)
    : option (JsMap.t CycleRecord) :=
  match acc with
  | None => None
  | Some found =>
      match visit fuel adjacency maxAbs node (mkDfs [] [] found) with
      | Some st => Some (seen st)
      | None => None
      end
  end.

Definition detectCycles (edges : list Edge) : option (list CycleRecord) :=
  match edges with
  | [] => Some []
  | _ =>
      let adjacency := buildAdjacency edges in
      let nodes := nodesOf edges in
      let maxAbs := maxAbsOf edges in
      match fold_left (visitRoot (List.length nodes) adjacency maxAbs)
              nodes (Some []) with
      | Some found => Some (JsMap.values found)
      | None => None
      end
  end.

(** *** deriveFiveFactorState *)

Definition getValue (finalValues : JsMap.t float) (name : string) : float :=
  match JsMap.get finalValues name with
  | Some x => x
  | None => 5
  end.

Definition average (xs : list float) : float :=
  fold_left (fun sum value => sum + value) xs 0 / Js.of_length (List.length xs).

Definition aggregate (finalValues : JsMap.t float)
    (positives negatives : list string) : float :=
  let posValues :=
    match positives with
    | [] => [5]
    | _ => map (getValue finalValues) positives
    end in
  let negValues :=
    match negatives with
    | [] => [5]
    | _ => map (getValue finalValues) negatives
    end in
  let posAvg := average posValues in
  let negAvg := average negValues in
  let adjusted := 5 + (posAvg - 5) * 0.6 - (negAvg - 5) * 0.6 in
  clamp adjusted 1 10.

Definition deriveFiveFactorState (finalValues : JsMap.t float)
    : FiveFactorState :=
  mkState
    (aggregate finalValues ["Belonging"; "VagalTone"]
       ["Isolation"; "HPA"; "Inflammation"; "Neurodegeneration"])
    (aggregate finalValues ["Meaning"; "Belonging"]
       ["Isolation"; "Neurodegeneration"; "Withdrawal"])
    (aggregate finalValues ["Belonging"; "Meaning"; "VagalTone"]
       ["Isolation"; "Withdrawal"; "HPA"])
    (aggregate finalValues ["VagalTone"; "Meaning"; "Belonging"]
       ["HPA"; "Inflammation"; "Isolation"])
    (aggregate finalValues ["Meaning"; "Belonging"]
       ["Isolation"; "Withdrawal"]).

(** *** runEulerSimulation *)

(** [Number.isInteger(opts.steps) && opts.steps > 0 ? opts.steps : 12]. *)
Definition readSteps (opts : jsval) : Z :=
  match Js.field opts "steps" with
  | VNumber x =>
      match Js.integer_value x with
      | Some n => if (0 <? n)%Z then n else 12%Z
      | None => 12%Z
      end
  | _ => 12%Z
  end.

(** [typeof opts.k === "number" && Number.isFinite(opts.k) ? opts.k : d]. *)
Definition readFinite (opts : jsval) (k : string) (d : float) : float :=
  match Js.field opts k with
  | VNumber x => if Js.isFinite x then x else d
  | _ => d
  end.

(** The callback of [variables.forEach], on the pair of maps. *)
Definition loadVariable (maps : JsMap.t float * JsMap.t float) (v : GVariable)
    : JsMap.t float * JsMap.t float :=
  (JsMap.set (fst maps) (v_id v) (clampRange (v_value v)),
   JsMap.set (snd maps) (v_id v) (clampRange (v_baseline v))).

Definition loadVariables (variables : list GVariable)
    : JsMap.t float * JsMap.t float :=
  fold_left loadVariable variables ([], []).

(** The snapshot is a plain object that the callback fills in the
    order of the map; the list holds its properties in the order in
    which they are created, and the object lists them as [Js.entries]
    orders them. *)
Definition captureSnapshot (step : Z) (values : JsMap.t float) : Snapshot :=
  mkSnapshot step
    (fold_left (fun snapshot entry => object_set snapshot (fst entry) (snd entry))
       values []).

(** [x || 0] on a number that may be missing. *)
Definition orZero (x : option float) : float :=
  match x with
  | Some d => if Js.truthy (VNumber d) then d else 0
  | None => 0
  end.

(** A missing number in an arithmetic position is [undefined], hence [NaN]. *)
Definition orNaN (x : option float) : float :=
  match x with
  | Some d => d
  | None => nan
  end.

(** [x ?? d] on a number that may be missing. *)
Definition orElse (x : option float) (d : float) : float :=
  match x with
  | Some y => y
  | None => d
  end.

Definition zeroDeltas (values : JsMap.t float) : JsMap.t float :=
  fold_left (fun deltas entry => JsMap.set deltas (fst entry) 0) values [].

(** The callback of [edges.forEach] inside a step. *)
Definition addInfluence (values : JsMap.t float) (deltas : JsMap.t float)
    (edge : Edge) : JsMap.t float :=
  if negb (JsMap.has values (e_from edge)) || negb (JsMap.has values (e_to edge))
  then deltas
  else
    let influence := orNaN (JsMap.get values (e_from edge)) * e_weight edge in
    JsMap.set deltas (e_to edge)
      (orZero (JsMap.get deltas (e_to edge)) + influence).

Definition nextValueOf (dt damping currentValue baseline delta : float) : float :=
  clampRange (currentValue + dt * (delta - damping * (currentValue - baseline))).

(** The callback of the last [values.forEach] of a step; it writes into
    the map it is iterating over. *)
Definition advance (dt damping : float) (baselines deltas : JsMap.t float)
    (values : JsMap.t float) (entry : string * float) : JsMap.t float :=
  let (key, currentValue) := entry in
  let baseline := orElse (JsMap.get baselines key) 5 in
  let delta := orElse (JsMap.get deltas key) 0 in
  JsMap.set values key (nextValueOf dt damping currentValue baseline delta).

(** One pass of the [for] loop, without the snapshot. *)
Definition eulerStep (dt damping : float) (baselines : JsMap.t float)
    (edges : list Edge) (values : JsMap.t float) : JsMap.t float :=
  let deltas := fold_left (addInfluence values) edges (zeroDeltas values) in
  fold_left (advance dt damping baselines deltas) values values.

(** The [for] loop: [remaining] passes are left and the next one is
    numbered [step]. *)
Fixpoint eulerLoop (remaining : nat) (step : Z) (dt damping : float)
    (baselines : JsMap.t float) (edges : list Edge)
    (values : JsMap.t float) (series : list Snapshot) : Simulation :=
  match remaining with
  | O => mkSimulation series values
  | S remaining' =>
      let values := eulerStep dt damping baselines edges values in
      eulerLoop remaining' (step + 1)%Z dt damping baselines edges values
        (series ++ [captureSnapshot step values])
  end.

(** An array holds fewer than [2^32] elements and the loop counter is
    exact below [2^53]; longer runs are not modelled. *)
Definition maxSteps : Z := (2 ^ 32 - 2)%Z.

(** [opts] is not [null] here: [runCausalSimulation] has read
    [opts.initialState] before it calls. *)
Definition runEulerSimulation (variables : list GVariable) (edges : list Edge)
    (opts : jsval) : outcome Simulation :=
  let opts := Js.default opts (VObject []) in
  let steps := readSteps opts in
  let dt := readFinite opts "dt" 0.35 in
  let damping := readFinite opts "damping" 0.28 in
  let (values, baselines) := loadVariables variables in
  if (maxSteps <? steps)%Z then Unmodelled
  else
    Ok (eulerLoop (Z.to_nat steps) 1%Z dt damping baselines edges values
          [captureSnapshot 0%Z values]).

(** *** applyInitialStateAnchors *)

(** What [VARIABLE_FACTORS[id]] evaluates to: an entry of the table, or
    a member inherited from [Object.prototype] (a function with its
    [length], or the prototype object itself), or [undefined]. *)
Inductive TableMember :=
| Anchors (factors : list string)
| InheritedFunction (length : nat)
| InheritedObject
| NoMember.

Definition Object_prototype (k : string) : TableMember :=
  if (k =? "constructor")%string then InheritedFunction 1
  else if (k =? "hasOwnProperty")%string then InheritedFunction 1
  else if (k =? "isPrototypeOf")%string then InheritedFunction 1
  else if (k =? "propertyIsEnumerable")%string then InheritedFunction 1
  else if (k =? "__lookupGetter__")%string then InheritedFunction 1
  else if (k =? "__lookupSetter__")%string then InheritedFunction 1
  else if (k =? "__defineGetter__")%string then InheritedFunction 2
  else if (k =? "__defineSetter__")%string then InheritedFunction 2
  else if (k =? "toString")%string then InheritedFunction 0
  else if (k =? "toLocaleString")%string then InheritedFunction 0
  else if (k =? "valueOf")%string then InheritedFunction 0
  else if (k =? "__proto__")%string then InheritedObject
  else NoMember.

Definition VARIABLE_FACTORS (id : string) : TableMember :=
  if (id =? "Isolation")%string then Anchors ["emotion"; "meaning"]
  else if (id =? "Belonging")%string then Anchors ["emotion"; "meaning"]
  else if (id =? "HPA")%string then Anchors ["vitality"; "adaptability"]
  else if (id =? "Inflammation")%string then Anchors ["vitality"; "adaptability"]
  else if (id =? "Neurodegeneration")%string then Anchors ["cognition"; "vitality"]
  else if (id =? "Withdrawal")%string then Anchors ["emotion"; "adaptability"]
  else if (id =? "VagalTone")%string
       then Anchors ["vitality"; "adaptability"; "emotion"]
  else if (id =? "Meaning")%string then Anchors ["meaning"; "cognition"]
  else Object_prototype id.

(** [anchors.map(factor => toNumber(initialState[factor], NaN))
      .filter(value => Number.isFinite(value))]. *)
Definition anchorValuesOf (initialState : jsval) (anchors : list string)
    : list float :=
  filter Js.isFinite
    (map (fun factor => toNumber (Js.field initialState factor) nan) anchors).

(** The callback of [variables.map]. *)
Definition anchorVariable (initialState : jsval) (variable : GVariable)
    : outcome GVariable :=
  match VARIABLE_FACTORS (v_id variable) with
  | NoMember | InheritedObject | InheritedFunction O | Anchors [] =>
      Ok variable
  | InheritedFunction (S _) => TypeError
  | Anchors anchors =>
      match anchorValuesOf initialState anchors with
      | [] => Ok variable
      | anchorValues =>
          let clamped := clampRange (average anchorValues) in
          Ok (mkVariable (v_id variable) clamped clamped)
      end
  end.

Definition applyInitialStateAnchors (variables : list GVariable)
    (initialState : jsval) : outcome (list GVariable) :=
  if negb (Js.truthy initialState) || negb (Js.typeof_object initialState)
  then Ok variables
  else
    forEach variables
      (fun mapped variable =>
         anchored <- anchorVariable initialState variable ;;
         Ok (mapped ++ [anchored]))
      [].

(** *** runCausalSimulation *)

Definition TEMPLATE_VARIABLES : list GVariable :=
  [ mkVariable "Isolation" 6 5;
    mkVariable "Belonging" 4 5;
    mkVariable "HPA" 6 5;
    mkVariable "Inflammation" 5.5 5;
    mkVariable "Neurodegeneration" 5.2 5;
    mkVariable "Withdrawal" 5.8 5;
    mkVariable "VagalTone" 4.8 5;
    mkVariable "Meaning" 4.5 5 ].

Definition TEMPLATE_EDGES : list Edge :=
  [ mkEdge "Isolation" "HPA" 0.65;
    mkEdge "HPA" "Inflammation" 0.7;
    mkEdge "Inflammation" "Neurodegeneration" 0.55;
    mkEdge "Neurodegeneration" "Withdrawal" 0.42;
    mkEdge "Withdrawal" "Isolation" 0.58;
    mkEdge "Belonging" "Isolation" (-0.62);
    mkEdge "Belonging" "VagalTone" 0.57;
    mkEdge "VagalTone" "HPA" (-0.68);
    mkEdge "Meaning" "Belonging" 0.6;
    mkEdge "Meaning" "Isolation" (-0.45);
    mkEdge "Isolation" "Meaning" (-0.35);
    mkEdge "VagalTone" "Meaning" 0.38 ].

(** [variables.length ? variables : template], and the same for edges. *)
Definition orTemplate {A : Type} (xs template : list A) : list A :=
  match xs with
  | [] => template
  | _ => xs
  end.

(** The graph the engine works on: the first five statements of
    [runCausalSimulation]. *)
Definition resolveGraph (causalGraph : jsval)
    : outcome (list GVariable * list Edge) :=
  variables <- normalizeVariables causalGraph ;;
  edges <- normalizeEdges causalGraph ;;
  Ok (orTemplate variables TEMPLATE_VARIABLES, orTemplate edges TEMPLATE_EDGES).

(** The detector of this development is given fuel enough for every
    graph (see [detectCycles_ok] below), so the last branch is never
    taken; the [RangeError] of a host whose call stack is shorter than
    the longest path of the graph is not modelled (see [visit]), and
    [Ok] is what the source returns where it returns. *)
Definition runCausalSimulation (causalGraph opts : jsval) : outcome Result :=
  let causalGraph := Js.default causalGraph (VObject []) in
  let opts := Js.default opts (VObject []) in
  graph <- resolveGraph causalGraph ;;
  let (normalizedVariables, normalizedEdges) := graph in
  initialState <- Js.get opts "initialState" ;;
  anchoredVariables <- applyInitialStateAnchors normalizedVariables initialState ;;
  simulation <- runEulerSimulation anchoredVariables normalizedEdges opts ;;
  match detectCycles normalizedEdges with
  | Some loopsDetected =>
      Ok (mkResult loopsDetected (timeSeries simulation)
            (deriveFiveFactorState (finalValues simulation)))
  | None => Unmodelled
  end.

End Engine.

(** * The helpers of the request handler

    The functions that the handler of the simulation service puts around
    the engine: they clean what the request and the generated reply
    carry, make sure the engine is given a graph, and label the final
    values.  The handler itself awaits a remote service and writes an
    HTTP response; it is not part of this development. *)

(** ** Text *)

Module Text.

(** The white space and line terminators that [String.prototype.trim]
    removes, as the bytes of their UTF-8 encodings: one byte (tab, line
    feed, vertical tab, form feed, carriage return, space), two bytes
    (U+00A0), or three (U+1680, U+2000 to U+200A, U+2028, U+2029,
    U+202F, U+205F, U+3000, U+FEFF). *)
Definition space1 (c : ascii) : bool :=
  let n := nat_of_ascii c in
  ((9 <=? n) && (n <=? 13) || (n =? 32))%nat.

Definition space2 (c d : ascii) : bool :=
  ((nat_of_ascii c =? 194) && (nat_of_ascii d =? 160))%nat.

Definition space3 (c d e : ascii) : bool :=
  let x := nat_of_ascii c in
  let y := nat_of_ascii d in
  let z := nat_of_ascii e in
  ((x =? 225) && (y =? 154) && (z =? 128)
   || (x =? 226) && (y =? 128)
      && ((128 <=? z) && (z <=? 138) || (z =? 168) || (z =? 169) || (z =? 175))
   || (x =? 226) && (y =? 129) && (z =? 159)
   || (x =? 227) && (y =? 128) && (z =? 128)
   || (x =? 239) && (y =? 187) && (z =? 191))%nat.

(** What is left of a list of bytes once the white space it starts with
    is gone; the three tests say what white space is. *)
Fixpoint strip (p1 : ascii -> bool) (p2 : ascii -> ascii -> bool)
    (p3 : ascii -> ascii -> ascii -> bool) (l : list ascii) : list ascii :=
  match l with
  | [] => []
  | c :: rest =>
      if p1 c then strip p1 p2 p3 rest
      else
        match rest with
        | [] => l
        | d :: rest2 =>
            if p2 c d then strip p1 p2 p3 rest2
            else
              match rest2 with
              | [] => l
              | e :: rest3 => if p3 c d e then strip p1 p2 p3 rest3 else l
              end
        end
  end.

Definition trimStart (l : list ascii) : list ascii :=
  strip space1 space2 space3 l.

(** At the end the bytes of a character are met last byte first. *)
Definition trimEnd (l : list ascii) : list ascii :=
  rev (strip space1 (fun c d => space2 d c) (fun c d e => space3 e d c) (rev l)).

(** [s.trim()]. *)
Definition trim (s : string) : string :=
  string_of_list_ascii (trimEnd (trimStart (list_ascii_of_string s))).

End Text.

(** ** Values in JSON *)

(** [JSON.parse(JSON.stringify(v))] where [v] is a value inside an array
    or an object, or a value other than [undefined]: the text holds
    [null] for a number that is not finite and for [undefined] in an
    array, [0] for [-0], and nothing for a property that is [undefined];
    every other number and every string is read back as it was written.
    The properties of an object are written in the order of
    [Js.entries] and created in that order when read back, which lists
    them as before; the list here keeps the order it had. *)
Fixpoint cloneValue (v : jsval) : jsval :=
  match v with
  | VUndefined => VNull
  | VNumber x =>
      if Js.isFinite x then (if is_zero x then VNumber 0 else VNumber x)
      else VNull
  | VArray items => VArray (map cloneValue items)
  | VObject props =>
      VObject
        ((fix cloneProps (props : list (string * jsval)) : list (string * jsval) :=
            match props with
            | [] => []
            | (k, VUndefined) :: rest => cloneProps rest
            | (k, x) :: rest => (k, cloneValue x) :: cloneProps rest
            end) props)
  | _ => v
  end.

(** [const deepClone = (value) => JSON.parse(JSON.stringify(value))].
    [JSON.stringify(undefined)] is [undefined], which [JSON.parse] does
    not accept: [None] stands for the exception it throws. *)
Definition deepClone (value : jsval) : option jsval :=
  match value with
  | VUndefined => None
  | _ => Some (cloneValue value)
  end.

(** [target.key = value] on an object built by the handler. *)
Definition assign (target : jsval) (key : string) (value : jsval) : jsval :=
  match target with
  | VObject props => VObject (JsMap.set props key value)
  | _ => target
  end.

Definition isArray (v : jsval) : bool :=
  match v with
  | VArray _ => true
  | _ => false
  end.

(** ** The handler's helpers *)

Section Handler.

Variable NumberOfText : jsval -> float.

(** The text of a number in a template literal, which is the host's. *)
Variable TextOfNumber : float -> string.

Definition WELLNESS_METRIC_LABELS : list (string * string) :=
  [ ("hrvMs", "Heart Rate Variability (ms)");
    ("sleepDurationHrs", "Total Sleep Duration (hrs)");
    ("deepSleepHrs", "Deep Sleep (hrs)");
    ("remSleepHrs", "REM Sleep (hrs)");
    ("lightSleepHrs", "Light Sleep (hrs)");
    ("restingHeartRateBpm", "Resting Heart Rate (bpm)") ].

(** The callback of [Object.keys(WELLNESS_METRIC_LABELS).forEach], on
    the pair of [sanitized] and [hasValues]. *)
Definition keepMetric (metrics : jsval) (state : list (string * float) * bool)
    (key : string) : list (string * float) * bool :=
  let value := Number NumberOfText (Js.field metrics key) in
  if Js.isFinite value then (object_set (fst state) key value, true)
  else state.

(** [null] is [VNull]; the object returned maps keys to numbers. *)
Definition sanitizeWellnessMetrics (metrics : jsval) : jsval :=
  if negb (Js.truthy metrics) || negb (Js.typeof_object metrics) then VNull
  else
    let (sanitized, hasValues) :=
      fold_left (keepMetric metrics) (map fst WELLNESS_METRIC_LABELS)
        ([], false) in
    if hasValues
    then VObject (map (fun entry => (fst entry, VNumber (snd entry))) sanitized)
    else VNull.

(** [WELLNESS_METRIC_LABELS[key] || key], where the label is a text: a
    key that names a member of [Object.prototype] yields that member
    instead, which is not modelled. *)
Definition labelOf (key : string) : outcome string :=
  match JsMap.get WELLNESS_METRIC_LABELS key with
  | Some label => Ok (if (label =? "")%string then key else label)
  | None =>
      match Object_prototype key with
      | NoMember => Ok key
      | _ => Unmodelled
      end
  end.

(** The callback of [Object.entries(metrics).map], for an entry whose
    value is a number. *)
Definition formatMetric (formatted : list string) (entry : string * jsval)
    : outcome (list string) :=
  match snd entry with
  | VNumber value =>
      label <- labelOf (fst entry) ;;
      Ok (formatted ++ [(label ++ ": " ++ TextOfNumber value)%string])
  | _ => Unmodelled
  end.

(** Modelled on [null], [undefined] and objects of numbers, which is
    what [sanitizeWellnessMetrics] hands over. *)
Definition formatWellnessMetricsForPrompt (metrics : jsval) : outcome string :=
  if negb (Js.truthy metrics) then Ok ""
  else
    match metrics with
    | VObject props =>
        formatted <- forEach (Js.entries props) formatMetric [] ;;
        Ok (String.concat ", " formatted)
    | _ => Unmodelled
    end.

Definition DEFAULT_CAUSAL_GRAPH : jsval :=
  let variable (id : string) (value baseline : float) :=
    VObject [ ("id", VString id); ("value", VNumber value);
              ("baseline", VNumber baseline) ] in
  let edge (from to : string) (weight : float) :=
    VObject [ ("from", VString from); ("to", VString to);
              ("weight", VNumber weight) ] in
  VObject
    [ ("variables",
       VArray [ variable "Isolation" 6 5;
                variable "Belonging" 4 5;
                variable "HPA" 6 5;
                variable "Inflammation" 5.5 5;
                variable "Neurodegeneration" 5.2 5;
                variable "Withdrawal" 5.8 5;
                variable "VagalTone" 4.8 5;
                variable "Meaning" 4.5 5 ]);
      ("edges",
       VArray [ edge "Isolation" "HPA" 0.65;
                edge "HPA" "Inflammation" 0.7;
                edge "Inflammation" "Neurodegeneration" 0.55;
                edge "Neurodegeneration" "Withdrawal" 0.42;
                edge "Withdrawal" "Isolation" 0.58;
                edge "Belonging" "Isolation" (-0.62);
                edge "Belonging" "VagalTone" 0.57;
                edge "VagalTone" "HPA" (-0.68);
                edge "Meaning" "Belonging" 0.6;
                edge "Meaning" "Isolation" (-0.45);
                edge "Isolation" "Meaning" (-0.35);
                edge "VagalTone" "Meaning" 0.38 ]) ].

Definition buildDefaultCausalGraph : option jsval :=
  deepClone DEFAULT_CAUSAL_GRAPH.

(** The first of the named fields of [graph] that is an array replaces
    the field [key] of [resolved], as a copy. *)
Fixpoint adopt (graph : jsval) (names : list string) (key : string)
    (resolved : jsval) : option jsval :=
  match names with
  | [] => Some resolved
  | name :: rest =>
      if isArray (Js.field graph name)
      then match deepClone (Js.field graph name) with
           | Some copy => Some (assign resolved key copy)
           | None => None
           end
      else adopt graph rest key resolved
  end.

Definition ensureCausalGraph (graph : jsval) : option jsval :=
  if negb (Js.truthy graph) || negb (Js.typeof_object graph)
  then buildDefaultCausalGraph
  else
    match buildDefaultCausalGraph with
    | None => None
    | Some resolved =>
        match adopt graph ["variables"; "nodes"; "stocks"] "variables" resolved with
        | None => None
        | Some resolved =>
            adopt graph ["edges"; "links"; "connections"] "edges" resolved
        end
    end.

(** [coerceString(value, fallback)] with the fallback given. *)
Definition coerceString (value : jsval) (fallback : string) : string :=
  match value with
  | VString s =>
      let trimmed := Text.trim s in
      if (trimmed =? "")%string then fallback else trimmed
  | _ => fallback
  end.

Definition ensureInterventionsArray (value : jsval) : list string :=
  match value with
  | VArray entries =>
      filter (fun entry => negb (entry =? "")%string)
        (map (fun entry =>
                match entry with
                | VString s => Text.trim s
                | _ => ""
                end) entries)
  | VString s =>
      let trimmed := Text.trim s in
      if (trimmed =? "")%string then [] else [trimmed]
  | _ => []
  end.

Definition safeNumber (value : jsval) : float :=
  let num := Number NumberOfText value in
  if Js.isFinite num then num else 0.

Definition computeAttractor (values : jsval) : outcome string :=
  let values := Js.default values (VObject []) in
  hpa <- Js.get values "HPA" ;;
  let threat := safeNumber hpa + safeNumber (Js.field values "Inflammation")
                + safeNumber (Js.field values "Isolation") in
  let flow := safeNumber (Js.field values "Belonging")
              + safeNumber (Js.field values "VagalTone")
              + safeNumber (Js.field values "Meaning") in
  if 1 <? threat - flow then Ok "Threat-Survival"
  else if 1 <? flow - threat then Ok "Eudaemonic-Flow"
  else Ok "Mixed/Transition".

(** The options with which the handler calls the engine. *)
Definition handlerOptions (currentState : jsval) : jsval :=
  VObject [ ("initialState", currentState); ("steps", VNumber 16);
            ("dt", VNumber 0.32); ("damping", VNumber 0.26) ].

(** What the handler adds to a reply of type [simulate]. *)
Record Enrichment := mkEnrichment {
  n_causalGraph : jsval;
  n_timeSeries : list Snapshot;
  n_loopsDetectedStructured : list CycleRecord;
  n_loopsDetected : list CycleRecord;
  n_newState : FiveFactorState;
  n_attractor : jsval;
  n_leverageUsed : string;
  n_interventionsPlanned : list string
}.

(** A snapshot's values as the object they are. *)
Definition objectOf (values : list (string * float)) : jsval :=
  VObject (map (fun entry => (fst entry, VNumber (snd entry))) values).

(** The block [if (type === 'simulate') { ... }] that follows the
    parsing of the reply; an exception ([TypeError], or [None] from
    [ensureCausalGraph]) is caught by the handler and answered with
    status 500.  [ensureCausalGraph] always returns a graph (see
    [ensureCausalGraph_ensured] below), so its [None] is never met. *)
Definition enrichSimulation (parsedResponse currentState : jsval)
    : outcome Enrichment :=
  causalGraph <- Js.get parsedResponse "causalGraph" ;;
  match ensureCausalGraph causalGraph with
  | None => Unmodelled
  | Some resolvedCausalGraph =>
      simulationOutput <-
        runCausalSimulation NumberOfText resolvedCausalGraph
          (handlerOptions currentState) ;;
      let timeSeries := r_timeSeries simulationOutput in
      let latestValues :=
        match rev timeSeries with
        | [] => VObject []
        | latest :: _ => objectOf (s_values latest)
        end in
      let given := Js.field parsedResponse "attractor" in
      attractor <-
        (if Js.truthy given then Ok given
         else label <- computeAttractor latestValues ;; Ok (VString label)) ;;
      Ok (mkEnrichment resolvedCausalGraph timeSeries
            (r_loopsDetected simulationOutput) (r_loopsDetected simulationOutput)
            (r_newState simulationOutput) attractor
            (coerceString (Js.field parsedResponse "leverageUsed") "Not specified")
            (ensureInterventionsArray
               (Js.field parsedResponse "interventionsPlanned")))
  end.

End Handler.

(** ** Vocabulary of the properties *)

(** How two numbers compare: [None] when one of them is [NaN]. *)
Definition floatCompare (x y : float) : option comparison :=
  SFcompare (Prim2SF x) (Prim2SF y).

(** Where a number that is not [NaN] stands among the numbers: below
    zero, at zero or above, then by exponent and mantissa.  Two numbers
    compare as their places do. *)
Definition placeOf (a : spec_float) : Z * Z * Z :=
  match a with
  | S754_infinity true => (-2, 0, 0)%Z
  | S754_infinity false => (2, 0, 0)%Z
  | S754_finite true m e => (-1, - e, Z.neg m)%Z
  | S754_finite false m e => (1, e, Z.pos m)%Z
  | _ => (0, 0, 0)%Z
  end.

Definition placeLe (a b : Z * Z * Z) : Prop :=
  let '(a1, a2, a3) := a in
  let '(b1, b2, b3) := b in
  (a1 < b1 \/ (a1 = b1 /\ (a2 < b2 \/ (a2 = b2 /\ a3 <= b3))))%Z.

Definition placeLt (a b : Z * Z * Z) : Prop :=
  let '(a1, a2, a3) := a in
  let '(b1, b2, b3) := b in
  (a1 < b1 \/ (a1 = b1 /\ (a2 < b2 \/ (a2 = b2 /\ a3 < b3))))%Z.

(** [lo <= x <= hi] as JavaScript compares numbers; it excludes [NaN]. *)
Definition in_range (lo hi x : float) : Prop :=
  (lo <=? x) = true /\ (x <=? hi) = true.

Definition variable_in_range (v : GVariable) : Prop :=
  in_range 0 10 (v_value v) /\ in_range 0 10 (v_baseline v).

Definition map_in_range (m : list (string * float)) : Prop :=
  Forall (fun entry => in_range 0 10 (snd entry)) m.

Definition snapshot_in_range (s : Snapshot) : Prop :=
  map_in_range (s_values s).

Definition state_in_range (s : FiveFactorState) : Prop :=
  in_range 1 10 (vitality s) /\ in_range 1 10 (cognition s) /\
  in_range 1 10 (emotion s) /\ in_range 1 10 (adaptability s) /\
  in_range 1 10 (meaning s).

(** A host conversion for the examples, none of which holds numeric text:
    text that is not a numeric literal converts to [NaN]. *)
Definition noNumericText : jsval -> float := fun _ => nan.

(** The graph and options of the integration scenario: one variable [X]
    at 5 with baseline 5 and a self-loop of weight -0.5; one step, [dt]
    1, no damping. *)
Definition scenarioGraph : jsval :=
  VObject
    [ ("variables",
       VArray [ VObject [ ("id", VString "X"); ("value", VNumber 5);
                          ("baseline", VNumber 5) ] ]);
      ("edges",
       VArray [ VObject [ ("from", VString "X"); ("to", VString "X");
                          ("weight", VNumber (-0.5)) ] ]) ].

Definition scenarioOptions : jsval :=
  VObject [ ("steps", VNumber 1); ("dt", VNumber 1); ("damping", VNumber 0) ].

(** A description that names one variable and no edge. *)
Definition loneVariableGraph : jsval :=
  VObject [ ("variables", VArray [ VString "X" ]) ].

(** The five loops of the built-in template, by type and nodes. *)
Definition TEMPLATE_LOOPS : list (LoopType * list string) :=
  [ (Reinforcing,
     ["Isolation"; "HPA"; "Inflammation"; "Neurodegeneration"; "Withdrawal"]);
    (Reinforcing, ["Isolation"; "Meaning"; "Belonging"]);
    (Reinforcing,
     ["Isolation"; "Meaning"; "Belonging"; "VagalTone"; "HPA"; "Inflammation";
      "Neurodegeneration"; "Withdrawal"]);
    (Reinforcing, ["Meaning"; "Belonging"; "VagalTone"]);
    (Reinforcing, ["Isolation"; "Meaning"]) ].

Definition loopSummary (loops : list CycleRecord) : list (LoopType * list string) :=
  map (fun c => (c_type c, c_nodes c)) loops.

(** The last element of a list that passes a test. *)
Fixpoint findLast {A : Type} (p : A -> bool) (l : list A) : option A :=
  match l with
  | [] => None
  | x :: rest =>
      match findLast p rest with
      | Some y => Some y
      | None => if p x then Some x else None
      end
  end.

(** The value the variable list gives to [id]: that of the last variable
    carrying the id. *)
Definition initialValueOf (variables : list GVariable) (id : string)
    : option float :=
  option_map v_value (findLast (fun v => (id =? v_id v)%string) variables).

Definition initialBaselineOf (variables : list GVariable) (id : string)
    : option float :=
  option_map v_baseline (findLast (fun v => (id =? v_id v)%string) variables).

(** A number that clamping leaves as it is. *)
Definition settled (x : float) : Prop := clampRange x = x.

(** The step numbers of a run of [n] steps. *)
Definition stepNumbers (n : nat) : list Z := map Z.of_nat (seq 0 (S n)).

(** A description that names the variable [A] twice, and one whose only
    variable is named ["__proto__"]. *)
Definition duplicateGraph : jsval :=
  VObject
    [ ("variables",
       VArray [ VObject [ ("id", VString "A"); ("value", VNumber 1) ];
                VObject [ ("id", VString "A"); ("value", VNumber 2) ] ]) ].

Definition protoGraph : jsval :=
  VObject
    [ ("variables",
       VArray [ VObject [ ("id", VString "__proto__"); ("value", VNumber 3) ] ]) ].

(** Whether an edge counts towards the influence on [id] in a step: both
    its endpoints are variables and it points at [id]. *)
Definition feeds (values : JsMap.t float) (edge : Edge) (id : string) : bool :=
  JsMap.has values (e_from edge) && JsMap.has values (e_to edge)
  && (e_to edge =? id)%string.

(** The influence on [id] as the specification words it: the running sum
    of [value[from] * weight] over the edges that feed [id]. *)
Definition influenceSum (values : JsMap.t float) (edges : list Edge) (id : string)
    : float :=
  fold_left
    (fun total edge =>
       if feeds values edge id
       then total + orNaN (JsMap.get values (e_from edge)) * e_weight edge
       else total)
    edges 0.

(** The influence on [id] as the engine accumulates it: a running total
    that is [NaN] or zero restarts from 0 before the next term is added. *)
Definition influenceOf (values : JsMap.t float) (edges : list Edge) (id : string)
    : float :=
  fold_left
    (fun total edge =>
       if feeds values edge id
       then orZero (Some total)
            + orNaN (JsMap.get values (e_from edge)) * e_weight edge
       else total)
    edges 0.

(** A synchronous step: every variable moves by the formula, with the
    influences computed from the values at the start of the step. *)
Definition stepWith (influence : string -> float) (dt damping : float)
    (baselines values : JsMap.t float) : JsMap.t float :=
  map (fun entry =>
         (fst entry,
          clamp (snd entry
                 + dt * (influence (fst entry)
                         - damping * (snd entry
                                      - orElse (JsMap.get baselines (fst entry)) 5)))
            0 10))
    values.

(** Two variables and three edges from [A] to [B] whose first two
    influences overflow to [+Infinity] and [-Infinity]. *)
Definition overflowEdges : list Edge :=
  [ mkEdge "A" "B" 1e308; mkEdge "A" "B" (-1e308); mkEdge "A" "B" 0.1 ].

Definition overflowGraph : jsval :=
  VObject
    [ ("variables",
       VArray [ VObject [ ("id", VString "A"); ("value", VNumber 10) ];
                VObject [ ("id", VString "B"); ("value", VNumber 5) ] ]);
      ("edges",
       VArray [ VObject [ ("from", VString "A"); ("to", VString "B");
                          ("weight", VNumber 1e308) ];
                VObject [ ("from", VString "A"); ("to", VString "B");
                          ("weight", VNumber (-1e308)) ];
                VObject [ ("from", VString "A"); ("to", VString "B");
                          ("weight", VNumber 0.1) ] ]) ].

(** The number a factor value counts as, which is its conversion by
    [Number]: a number counts as itself, [null] and [false] as 0, [true]
    as 1, a missing factor as [NaN], and a text, an array or an object
    as the host converts it. *)
Definition factorNumber (NumberOfText : jsval -> float) (v : jsval) : float :=
  match v with
  | VUndefined => nan
  | VNull => 0
  | VBool true => 1
  | VBool false => 0
  | VNumber x => x
  | _ => NumberOfText v
  end.

(** The numbers that the referenced factors count as, those that are
    finite. *)
Definition finiteFactorValues (NumberOfText : jsval -> float)
    (initialState : jsval) (factors : list string) : list float :=
  filter is_finite
    (map (fun factor => factorNumber NumberOfText (Js.field initialState factor))
       factors).

(** The referenced factor values that are finite numbers, as the
    specification words them: what is no number is not finite. *)
Definition finiteNumbers (initialState : jsval) (factors : list string)
    : list float :=
  flat_map
    (fun factor =>
       match Js.field initialState factor with
       | VNumber x => if is_finite x then [x] else []
       | _ => []
       end)
    factors.

(** A factor value that is a number, or a factor that is missing. *)
Definition numberOrMissing (v : jsval) : bool :=
  match v with
  | VNumber _ | VUndefined => true
  | _ => false
  end.

(** A count as a number. *)
Definition countOf (n : nat) : float := of_uint63 (Uint63.of_Z (Z.of_nat n)).

(** The mean of a list of numbers: their sum, taken from left to right,
    divided by their count. *)
Definition meanOf (xs : list float) : float :=
  fold_left (fun sum x => sum + x) xs 0 / countOf (List.length xs).

(** [y] is [x] clamped to [lo, hi]: it lies within the bounds, it is the
    number [x] when [x] does, and it is the bound that [x] is beyond
    otherwise. *)
Definition clampedTo (lo hi x y : float) : Prop :=
  in_range lo hi y /\
  (in_range lo hi x -> (y =? x) = true) /\
  ((x <? lo) = true -> y = lo) /\
  ((hi <? x) = true -> y = hi).

(** What anchoring makes of a variable: with an entry in the table and a
    referenced factor that counts as a finite number, value and baseline
    become the mean of these numbers clamped to [0,10]; otherwise the
    variable is kept. *)
Definition anchoredAs (NumberOfText : jsval -> float) (initialState : jsval)
    (v v' : GVariable) : Prop :=
  match VARIABLE_FACTORS (v_id v) with
  | Anchors factors =>
      match finiteFactorValues NumberOfText initialState factors with
      | [] => v' = v
      | finite =>
          v_id v' = v_id v /\
          clampedTo 0 10 (meanOf finite) (v_value v') /\
          v_baseline v' = v_value v'
      end
  | _ => v' = v
  end.

(** The same with the numbers the engine computes. *)
Definition anchoredBy (NumberOfText : jsval -> float) (initialState : jsval)
    (v v' : GVariable) : Prop :=
  match VARIABLE_FACTORS (v_id v) with
  | Anchors factors =>
      match finiteFactorValues NumberOfText initialState factors with
      | [] => v' = v
      | finite =>
          v' = mkVariable (v_id v) (clamp (average finite) 0 10)
                 (clamp (average finite) 0 10)
      end
  | _ => v' = v
  end.

(** An initial state whose factors are [null]. *)
Definition nullFactorOptions : jsval :=
  VObject
    [ ("initialState", VObject [ ("emotion", VNull); ("meaning", VNull) ]);
      ("steps", VNumber 1) ].

(** A description that gives [Isolation] the value 9 and [Custom] the
    value 2, and options whose initial state sets emotion to 3 and meaning
    to 4. *)
Definition anchorGraph : jsval :=
  VObject
    [ ("variables",
       VArray [ VObject [ ("id", VString "Isolation"); ("value", VNumber 9) ];
                VObject [ ("id", VString "Custom"); ("value", VNumber 2) ] ]) ].

Definition anchorOptions : jsval :=
  VObject
    [ ("initialState",
       VObject [ ("emotion", VNumber 3); ("meaning", VNumber 4) ]);
      ("steps", VNumber 1) ].

(** A walk in the graph: consecutive nodes are joined by an edge of the
    graph that carries the weight at the same position. *)
Inductive walk (edges : list Edge) : list string -> list float -> Prop :=
| walk_one (n : string) : walk edges [n] []
| walk_step (n m : string) (rest : list string) (w : float) (ws : list float) :
    In (mkEdge n m w) edges ->
    walk edges (m :: rest) ws ->
    walk edges (n :: m :: rest) (w :: ws).

(** The nodes of a cycle, closed by the edge back to the first one. *)
Definition closedWalk (edges : list Edge) (nodes : list string)
    (weights : list float) : Prop :=
  walk edges (nodes ++ firstn 1 nodes) weights.

(** The key under which a record is filed. *)
Definition keyOf (r : CycleRecord) : option string :=
  canonicalizeCycle (c_nodes r ++ firstn 1 (c_nodes r)).

(** The mean of [|weight|] over the edges of a cycle: the sum from left
    to right, divided by the count. *)
Definition meanAbs (weights : list float) : float :=
  fold_left (fun sum weight => sum + abs weight) weights 0
    / countOf (List.length weights).

(** What the traversal keeps true of every entry of [seen]. *)
Definition entry_ok (edges : list Edge) (entry : string * CycleRecord) : Prop :=
  let (key, r) := entry in
  keyOf r = Some key /\
  c_type r = typeOf (c_weights r) /\
  c_dominance r = dominanceOf (maxAbsOf edges) (c_weights r) /\
  closedWalk edges (c_nodes r) (c_weights r) /\
  NoDup (c_nodes r) /\
  c_nodes r <> [].

(** Two numbers of the same sign, neither of them zero. *)
Definition sameSign (w1 w2 : float) : bool :=
  (0 <? w1) && (0 <? w2) || (w1 <? 0) && (w2 <? 0).

(** A graph with the cycle a, b, c and the cycle a, [b->c], where
    [b->c] is the name of one node. *)
Definition collisionEdges : list Edge :=
  [ mkEdge "a" "b" 1; mkEdge "b" "c" 1; mkEdge "c" "a" 1;
    mkEdge "a" "b->c" 1; mkEdge "b->c" "a" 1 ].

(** What the traversal keeps true of the recorded cycles: every entry is
    in order and no key occurs twice. *)
Definition seen_ok (edges : list Edge) (found : JsMap.t CycleRecord) : Prop :=
  Forall (entry_ok edges) found /\ NoDup (JsMap.keys found).

(** The strongest edge of a graph: a number that is the [|weight|] of one
    of the edges and that no [|weight|] of the graph exceeds. *)
Definition isStrongest (edges : list Edge) (m : float) : Prop :=
  (exists e, In e edges /\ abs (e_weight e) = m) /\
  Forall (fun e => (abs (e_weight e) <=? m) = true) edges.

(** ** Numbers as fractions *)

Module Exact.

Import QArith Qminmax Qround Qabs.

(** The number that a binary64 value stands for; [NaN] and the
    infinities stand for none. *)
Definition valueOf (x : float) : option Q :=
  match Prim2SF x with
  | S754_zero _ => Some 0
  | S754_finite s m e =>
      let signed := if s then Z.neg m else Z.pos m in
      Some (if (0 <=? e)%Z then inject_Z (signed * 2 ^ e)
            else signed # (2 ^ Z.to_pos (- e)))
  | _ => None
  end.

(** [n] is the integer nearest to [y], the upper one of two that are
    equally near. *)
Definition nearest (y : float) (n : Z) : Prop :=
  exists q, valueOf y = Some q /\ inject_Z n - (1 # 2) <= q /\ q < inject_Z n + (1 # 2).

(** [x] is the integer [n]. *)
Definition denotes (x : float) (n : Z) : Prop :=
  exists q, valueOf x = Some q /\ q == inject_Z n.

Fixpoint magnitudes (weights : list float) : option (list Q) :=
  match weights with
  | [] => Some []
  | w :: rest =>
      match valueOf w, magnitudes rest with
      | Some q, Some qs => Some (Qabs q :: qs)
      | _, _ => None
      end
  end.

(** The dominance as the specification words it, in exact arithmetic:
    100 times the mean of [|weight|] over the cycle's edges, divided by
    the largest [|weight|] of the graph, rounded, and kept within
    [0,100]. *)
Definition realDominance (cycleWeights allWeights : list float) : option Z :=
  match magnitudes cycleWeights, magnitudes allWeights with
  | Some cycle, Some all =>
      let mean :=
        fold_right Qplus 0 cycle / inject_Z (Z.of_nat (List.length cycle)) in
      let strongest := fold_right Qmax 0 all in
      let rounded := Qfloor (100 * mean / strongest + (1 # 2)) in
      Some (Z.max 0 (Z.min 100 rounded))
  | _, _ => None
  end.

End Exact.

(** A cycle of two edges whose weights, 1e308 and 1.7e308, are finite
    and add up to more than a binary64 number holds; and a cycle of two
    edges of weight 0.5 beside an edge of weight 1 that is on no cycle. *)
Definition heavyCycleGraph : jsval :=
  VObject
    [ ("edges",
       VArray [ VObject [ ("from", VString "A"); ("to", VString "B");
                          ("weight", VNumber 1e308) ];
                VObject [ ("from", VString "B"); ("to", VString "A");
                          ("weight", VNumber 1.7e308) ] ]) ].

Definition sideEdgeGraph : jsval :=
  VObject
    [ ("edges",
       VArray [ VObject [ ("from", VString "A"); ("to", VString "B");
                          ("weight", VNumber 0.5) ];
                VObject [ ("from", VString "B"); ("to", VString "A");
                          ("weight", VNumber (-0.5)) ];
                VObject [ ("from", VString "C"); ("to", VString "D");
                          ("weight", VNumber 1) ] ]) ].

(** ** Vocabulary of the further properties *)

(** [null] or [undefined]: what [??] passes over. *)
Definition nullish (v : jsval) : bool :=
  match v with
  | VUndefined | VNull => true
  | _ => false
  end.

(** An item that states no baseline: neither [baseline] nor [setPoint]. *)
Definition noBaseline (item : jsval) : bool :=
  nullish (Js.field item "baseline") && nullish (Js.field item "setPoint").

(** A description with no list of variables under any of the four names
    that [normalizeVariables] tries. *)
Definition noVariableList (graph : jsval) : bool :=
  negb (Js.truthy (Js.field graph "variables"))
  && negb (Js.truthy (Js.field graph "nodes"))
  && negb (Js.truthy (Js.field graph "stocks"))
  && negb (Js.truthy (Js.field graph "vertices")).

(** An adjacency list as a description: under [edges], every source is
    mapped to the array of the names of its targets. *)
Definition adjacencyListGraph (lists : list (string * list string)) : jsval :=
  VObject
    [ ("edges",
       VObject (map (fun entry => (fst entry, VArray (map VString (snd entry))))
                  lists)) ].

Definition nonEmpty (s : string) : bool := negb (s =? "")%string.

(** An option that cannot serve as a step count (it is no positive
    integer), and one that cannot serve as [dt] or [damping] (it is no
    finite number). *)
Definition noStepCount (v : jsval) : bool :=
  match v with
  | VNumber x =>
      match Js.integer_value x with
      | Some n => negb (0 <? n)%Z
      | None => true
      end
  | _ => true
  end.

Definition noFiniteNumber (v : jsval) : bool :=
  match v with
  | VNumber x => negb (Js.isFinite x)
  | _ => true
  end.

(** The options as the engine takes them: the four fields it reads, the
    unusable ones replaced by 12 steps, [dt] 0.35 and [damping] 0.28. *)
Definition usableOptions (opts : jsval) : jsval :=
  VObject
    [ ("initialState", Js.field opts "initialState");
      ("steps",
       if noStepCount (Js.field opts "steps") then VNumber 12
       else Js.field opts "steps");
      ("dt",
       if noFiniteNumber (Js.field opts "dt") then VNumber 0.35
       else Js.field opts "dt");
      ("damping",
       if noFiniteNumber (Js.field opts "damping") then VNumber 0.28
       else Js.field opts "damping") ].

(** The entries a snapshot records: all but the key ["__proto__"]. *)
Definition recorded (values : JsMap.t float) : list (string * float) :=
  filter (fun entry => negb (fst entry =? "__proto__")%string) values.

(** The ids of the built-in template, which are the ids the projection
    onto the five factors reads. *)
Definition canonicalIds : list string := map v_id TEMPLATE_VARIABLES.

(** An id under which the table of factors yields a function inherited
    from [Object.prototype] that takes arguments: its [length] is not
    zero and it has no [map]. *)
Definition namesFunction (id : string) : bool :=
  match VARIABLE_FACTORS id with
  | InheritedFunction (S _) => true
  | _ => false
  end.

(** Anchoring is attempted (the initial state is an object) on a variable
    with such an id. *)
Definition anchoringThrows (initialState : jsval) (variables : list GVariable)
    : bool :=
  Js.truthy initialState && Js.typeof_object initialState
  && existsb (fun v => namesFunction (v_id v)) variables.

(** The rotation of a node sequence that starts at position [i]:
    [simple.slice(i).concat(simple.slice(0, i))]. *)
Definition rotate (i : nat) (simple : list string) : list string :=
  skipn i simple ++ firstn i simple.

(** One sequence is the other cut in two and put together the other way
    round. *)
Definition isRotation (l x : list string) : Prop :=
  exists a b, l = a ++ b /\ x = b ++ a.

(** [h] is a smallest element of [l] in the order of the comparator. *)
Definition smallest (h : list string) (l : list (list string)) : Prop :=
  In h l /\ Forall (fun x => compareRotations h x <> Gt) l.

(** Whether a list of bytes starts with white space, for the three tests
    that say what white space is. *)
Definition leads (p1 : ascii -> bool) (p2 : ascii -> ascii -> bool)
    (p3 : ascii -> ascii -> ascii -> bool) (l : list ascii) : bool :=
  match l with
  | [] => false
  | c :: rest =>
      p1 c
      || match rest with
         | [] => false
         | d :: rest2 =>
             p2 c d
             || match rest2 with
                | [] => false
                | e :: _ => p3 c d e
                end
         end
  end.

(** The keys of the wellness metrics, in the order of the table. *)
Definition metricKeys : list string := map fst WELLNESS_METRIC_LABELS.

(** The usable metrics of a request: under each key of the table, in
    that order, the number the value converts to when it is finite. *)
Definition usableMetrics (NumberOfText : jsval -> float) (metrics : jsval)
    (keys : list string) : list (string * float) :=
  flat_map
    (fun key =>
       let value := Number NumberOfText (Js.field metrics key) in
       if Js.isFinite value then [(key, value)] else [])
    keys.

Definition isEmpty {A : Type} (l : list A) : bool :=
  match l with
  | [] => true
  | _ => false
  end.

(** Induction on values, through the arrays and objects they hold. *)
Section ValueInduction.

Variable P : jsval -> Prop.

Hypothesis P_undefined : P VUndefined.
Hypothesis P_null : P VNull.
Hypothesis P_bool : forall b, P (VBool b).
Hypothesis P_number : forall x, P (VNumber x).
Hypothesis P_string : forall s, P (VString s).
Hypothesis P_array : forall items, Forall P items -> P (VArray items).
Hypothesis P_object :
  forall props, Forall (fun entry => P (snd entry)) props -> P (VObject props).

Fixpoint value_induction (v : jsval) : P v :=
  match v with
  | VUndefined => P_undefined
  | VNull => P_null
  | VBool b => P_bool b
  | VNumber x => P_number x
  | VString s => P_string s
  | VArray items =>
      P_array items
        ((fix each (l : list jsval) : Forall P l :=
            match l with
            | [] => Forall_nil P
            | x :: rest => Forall_cons x (value_induction x) (each rest)
            end) items)
  | VObject props =>
      P_object props
        ((fix each (l : list (string * jsval))
            : Forall (fun entry => P (snd entry)) l :=
            match l with
            | [] => Forall_nil _
            | entry :: rest =>
                Forall_cons entry (value_induction (snd entry)) (each rest)
            end) props)
  end.

End ValueInduction.

(** The properties of an object as they are after a round trip through
    JSON: those that are [undefined] are gone. *)
Definition cloneProps (props : list (string * jsval)) : list (string * jsval) :=
  flat_map
    (fun entry =>
       match snd entry with
       | VUndefined => []
       | x => [(fst entry, cloneValue x)]
       end)
    props.

(** The first of the named fields of a graph that is an array. *)
Fixpoint firstArray (graph : jsval) (names : list string) : option (list jsval) :=
  match names with
  | [] => None
  | name :: rest =>
      match Js.field graph name with
      | VArray items => Some items
      | _ => firstArray graph rest
      end
  end.

(** The list of the default graph under a key. *)
Definition defaultList (key : string) : list jsval :=
  match Js.field DEFAULT_CAUSAL_GRAPH key with
  | VArray items => items
  | _ => []
  end.

Definition copiedOr (key : string) (found : option (list jsval)) : list jsval :=
  match found with
  | Some items => map cloneValue items
  | None => defaultList key
  end.

(** The graph the handler settles on: a copy of the first array found
    under [variables], [nodes] or [stocks], and of the first found under
    [edges], [links] or [connections]; the list of the default graph
    where there is none. *)
Definition ensuredGraph (graph : jsval) : jsval :=
  VObject
    [ ("variables",
       VArray (copiedOr "variables"
                 (firstArray graph ["variables"; "nodes"; "stocks"])));
      ("edges",
       VArray (copiedOr "edges"
                 (firstArray graph ["edges"; "links"; "connections"]))) ].

(** The three labels [computeAttractor] chooses from. *)
Definition attractorLabels : list string :=
  ["Threat-Survival"; "Eudaemonic-Flow"; "Mixed/Transition"].

(** The six ids [computeAttractor] reads. *)
Definition attractorIds : list string :=
  ["HPA"; "Inflammation"; "Isolation"; "Belonging"; "VagalTone"; "Meaning"].

(** ** Order facts on binary64 numbers *)

Module FloatFacts.

Local Abbreviation cmp := floatCompare.

Lemma SFcompare_antisym (a b : spec_float) :
  SFcompare b a = option_map CompOpp (SFcompare a b).
Proof.
  destruct a as [sa | sa | | sa ma ea], b as [sb | sb | | sb mb eb];
    simpl; try reflexivity;
    try (destruct sa; reflexivity); try (destruct sb; reflexivity);
    try (destruct sa, sb; reflexivity).
  destruct sa, sb; simpl; try reflexivity;
    rewrite (Z.compare_antisym ea eb);
    destruct (ea ?= eb)%Z eqn:E; simpl; try reflexivity;
    rewrite (Pos.compare_cont_antisym ma mb Eq); simpl;
    destruct (Pos.compare_cont Eq ma mb); reflexivity.
Qed.

Lemma ltb_cmp (x y : float) : (x <? y) = true <-> cmp x y = Some Lt.
Proof.
  rewrite ltb_spec. unfold SFltb, floatCompare.
  destruct (SFcompare (Prim2SF x) (Prim2SF y)) as [[ | | ] | ];
    split; intro H; congruence.
Qed.

Lemma leb_cmp (x y : float) :
  (x <=? y) = true <-> cmp x y = Some Lt \/ cmp x y = Some Eq.
Proof.
  rewrite leb_spec. unfold SFleb, floatCompare.
  destruct (SFcompare (Prim2SF x) (Prim2SF y)) as [[ | | ] | ];
    split; intro H; try congruence; auto; destruct H; congruence.
Qed.

Lemma is_nan_cmp (x : float) : is_nan x = false <-> cmp x x = Some Eq.
Proof.
  unfold is_nan. rewrite negb_false_iff, eqb_spec. unfold SFeqb, floatCompare.
  destruct (SFcompare (Prim2SF x) (Prim2SF x)) as [[ | | ] | ];
    split; intro H; congruence.
Qed.

Lemma cmp_antisym (x y : float) : cmp y x = option_map CompOpp (cmp x y).
Proof. apply SFcompare_antisym. Qed.

Lemma cmp_defined (x y : float) :
  is_nan x = false -> is_nan y = false -> exists c, cmp x y = Some c.
Proof.
  rewrite !is_nan_cmp. unfold floatCompare.
  destruct (Prim2SF x), (Prim2SF y); simpl; intros; eauto; discriminate.
Qed.

Lemma ltb_leb (x y : float) : (x <? y) = true -> (x <=? y) = true.
Proof. rewrite ltb_cmp, leb_cmp. auto. Qed.

Lemma SFcompare_self (a : spec_float) :
  a <> S754_nan -> SFcompare a a = Some Eq.
Proof.
  destruct a as [[] | [] | | [] m e]; simpl; intro H;
    try reflexivity; try congruence;
    rewrite Z.compare_refl, Pos.compare_cont_refl; reflexivity.
Qed.

Lemma SFcompare_some (a b : spec_float) (c : comparison) :
  SFcompare a b = Some c -> a <> S754_nan /\ b <> S754_nan.
Proof.
  destruct a, b; simpl; intro H; split; congruence.
Qed.

Lemma cmp_not_nan (x y : float) (c : comparison) :
  cmp x y = Some c -> is_nan x = false /\ is_nan y = false.
Proof.
  intro H. apply SFcompare_some in H. destruct H as [Hx Hy].
  rewrite !is_nan_cmp. unfold floatCompare. split; apply SFcompare_self; assumption.
Qed.

Lemma ltb_not_nan (x y : float) :
  (x <? y) = true -> is_nan x = false /\ is_nan y = false.
Proof. rewrite ltb_cmp. apply cmp_not_nan. Qed.

Lemma leb_not_nan (x y : float) :
  (x <=? y) = true -> is_nan x = false /\ is_nan y = false.
Proof. rewrite leb_cmp. intros [H | H]; eapply cmp_not_nan; eassumption. Qed.

Lemma leb_refl (x : float) : is_nan x = false -> (x <=? x) = true.
Proof. rewrite is_nan_cmp, leb_cmp. auto. Qed.

(** Of two numbers, neither of which is below the other, each is at
    most the other. *)
Lemma not_ltb_leb (x y : float) :
  is_nan x = false -> is_nan y = false ->
  (x <? y) = false -> (y <=? x) = true.
Proof.
  intros Hx Hy H. destruct (cmp_defined x y Hx Hy) as [c Hc].
  apply leb_cmp. rewrite cmp_antisym, Hc.
  destruct c; simpl; auto.
  exfalso. apply ltb_cmp in Hc. congruence.
Qed.

Lemma leb_not_ltb (x y : float) : (x <=? y) = true -> (y <? x) = false.
Proof.
  intro H. destruct (y <? x) eqn:E; [ | reflexivity ].
  apply ltb_cmp in E. apply leb_cmp in H.
  rewrite cmp_antisym in E. destruct H as [H | H]; rewrite H in E; discriminate.
Qed.

(** Numbers that compare equal are the same number, or two zeros. *)
Lemma SFcompare_Eq (a b : spec_float) :
  SFcompare a b = Some Eq ->
  a = b \/ (exists s t, a = S754_zero s /\ b = S754_zero t).
Proof.
  destruct a as [sa | sa | | sa ma ea], b as [sb | sb | | sb mb eb];
    simpl; intro H; try discriminate;
    try (right; eauto; fail);
    try (destruct sa; discriminate); try (destruct sb; discriminate).
  - destruct sa, sb; try discriminate; left; reflexivity.
  - assert (K : sa = sb /\ (ea ?= eb)%Z = Eq /\ Pos.compare_cont Eq ma mb = Eq).
    { destruct sa, sb; try discriminate;
        destruct (ea ?= eb)%Z; try discriminate;
        destruct (Pos.compare_cont Eq ma mb); try discriminate; auto. }
    destruct K as (-> & He & Hm).
    apply Z.compare_eq in He. apply Pos.compare_eq in Hm. subst. left. reflexivity.
Qed.

Lemma cmp_Eq (x y : float) :
  cmp x y = Some Eq -> x = y \/ (is_zero x = true /\ is_zero y = true).
Proof.
  intro H. destruct (SFcompare_Eq _ _ H) as [E | (s & t & Ea & Eb)].
  - left. apply Prim2SF_inj. assumption.
  - right. unfold is_zero. rewrite !eqb_spec, Ea, Eb.
    split; reflexivity.
Qed.

Lemma is_zero_cases (x : float) :
  is_zero x = true -> x = zero \/ x = neg_zero.
Proof.
  unfold is_zero. rewrite eqb_spec. unfold SFeqb. intro H.
  destruct (SFcompare (Prim2SF x) (Prim2SF zero)) as [[ | | ] | ] eqn:E;
    try discriminate.
  destruct (SFcompare_Eq _ _ E) as [K | (s & t & Ea & _)].
  - left. apply Prim2SF_inj. assumption.
  - destruct s; [ right | left ]; apply Prim2SF_inj; rewrite Ea; reflexivity.
Qed.

End FloatFacts.

Import FloatFacts.

(** ** clamp *)

Lemma Math_min_cases (a b : float) :
  is_nan a = false -> is_nan b = false ->
  (Js.Math_min a b = a /\ (a <=? b) = true) \/
  (Js.Math_min a b = b /\ (b <=? a) = true).
Proof.
  intros Ha Hb. unfold Js.Math_min. rewrite Ha, Hb. simpl.
  destruct (a <? b) eqn:Eab; [ left; split; [ reflexivity | now apply ltb_leb ] | ].
  destruct (b <? a) eqn:Eba; [ right; split; [ reflexivity | now apply ltb_leb ] | ].
  destruct (Js.is_pos_zero a);
    [ right | left ]; split; try reflexivity; now apply not_ltb_leb.
Qed.

Lemma Math_max_cases (a b : float) :
  is_nan a = false -> is_nan b = false ->
  (Js.Math_max a b = a /\ (b <=? a) = true) \/
  (Js.Math_max a b = b /\ (a <=? b) = true).
Proof.
  intros Ha Hb. unfold Js.Math_max. rewrite Ha, Hb. simpl.
  destruct (a <? b) eqn:Eab; [ right; split; [ reflexivity | now apply ltb_leb ] | ].
  destruct (b <? a) eqn:Eba; [ left; split; [ reflexivity | now apply ltb_leb ] | ].
  destruct (Js.is_neg_zero a);
    [ right | left ]; split; try reflexivity; now apply not_ltb_leb.
Qed.

(** Clamping lands between the bounds, whatever the argument. *)
Lemma clamp_in_range (x lo hi : float) :
  (lo <=? hi) = true -> in_range lo hi (clamp x lo hi).
Proof.
  intro H. destruct (leb_not_nan _ _ H) as [Hlo Hhi].
  unfold clamp, in_range. destruct (is_nan x) eqn:Hx.
  - split; [ now apply leb_refl | assumption ].
  - destruct (Math_min_cases hi x Hhi Hx) as [[-> Hm] | [-> Hm]].
    + destruct (Math_max_cases lo hi Hlo Hhi) as [[-> HM] | [-> HM]].
      * split; [ now apply leb_refl | assumption ].
      * split; [ assumption | now apply leb_refl ].
    + destruct (Math_max_cases lo x Hlo Hx) as [[-> HM] | [-> HM]].
      * split; [ now apply leb_refl | assumption ].
      * split; assumption.
Qed.

Lemma clampRange_in_range (x : float) : in_range 0 10 (clampRange x).
Proof. apply clamp_in_range. reflexivity. Qed.

(** A clamped value is [+0] or lies strictly above it. *)
Lemma clampRange_cases (x : float) :
  clampRange x = 0 \/ ((0 <? clampRange x) = true /\ (clampRange x <=? 10) = true).
Proof.
  destruct (clampRange_in_range x) as [_ Hhi]. revert Hhi.
  unfold clampRange, clamp, NORMALIZED_RANGE_min, NORMALIZED_RANGE_max.
  destruct (is_nan x); [ left; reflexivity | ].
  set (m := Js.Math_min 10 x). unfold Js.Math_max.
  destruct (is_nan 0 || is_nan m) eqn:Hn.
  { intro H. apply leb_not_nan in H. destruct H as [H _]. discriminate. }
  
  destruct (0 <? m) eqn:E0; [ intro; right; split; assumption | intros _ ].
  destruct (m <? 0); left; reflexivity.
Qed.

Lemma clampRange_fixed (r : float) :
  r = 0 \/ ((0 <? r) = true /\ (r <=? 10) = true) -> clampRange r = r.
Proof.
  intros [-> | [H0 H10]]; [ reflexivity | ].
  destruct (ltb_not_nan _ _ H0) as [_ Hr].
  unfold clampRange, clamp, NORMALIZED_RANGE_min, NORMALIZED_RANGE_max.
  rewrite Hr.
  assert (Hm : Js.Math_min 10 r = r).
  { unfold Js.Math_min. rewrite Hr. simpl.
    rewrite (leb_not_ltb _ _ H10).
    destruct (r <? 10) eqn:E; [ reflexivity | ].
    assert (K : floatCompare r 10 = Some Eq).
    { apply leb_cmp in H10. destruct H10 as [K | K]; [ | exact K ].
      apply ltb_cmp in K. congruence. }
    apply cmp_Eq in K. destruct K as [K | [_ K]]; [ | discriminate ].
    subst r. reflexivity. }
  rewrite Hm. unfold Js.Math_max. rewrite Hr, H0. reflexivity.
Qed.

Lemma clampRange_idempotent (x : float) : clampRange (clampRange x) = clampRange x.
Proof. apply clampRange_fixed, clampRange_cases. Qed.


(** ** The order of strings *)

Module OrderFacts.

Lemma N_of_ascii_inj (c d : ascii) : N_of_ascii c = N_of_ascii d -> c = d.
Proof.
  intro H. rewrite <- (ascii_N_embedding c), <- (ascii_N_embedding d).
  now rewrite H.
Qed.

(** Distinct bytes have distinct ranks. *)
Lemma unitRank_inj (c d : ascii) : Js.unitRank c = Js.unitRank d -> c = d.
Proof.
  unfold Js.unitRank. intro H. apply N_of_ascii_inj.
  pose proof (N_ascii_bounded c) as Bc. pose proof (N_ascii_bounded d) as Bd.
  revert H.
  generalize dependent (N_of_ascii d). generalize dependent (N_of_ascii c).
  intros n Bn m Bm.
  destruct (N.eqb_spec n 238), (N.eqb_spec n 239), (N.eqb_spec n 254),
    (N.eqb_spec n 255), (N.eqb_spec m 238), (N.eqb_spec m 239),
    (N.eqb_spec m 254), (N.eqb_spec m 255); simpl; lia.
Qed.

Lemma lessThan_irrefl (a : string) : Js.lessThan a a = false.
Proof.
  induction a as [ | c a IH]; simpl; [ reflexivity | ].
  now rewrite Ascii.eqb_refl.
Qed.

(** Of two distinct strings, one is less than the other. *)
Lemma lessThan_flip (a b : string) :
  a <> b -> Js.lessThan b a = negb (Js.lessThan a b).
Proof.
  revert b. induction a as [ | c a IH]; destruct b as [ | d b]; simpl; intro H;
    try reflexivity; [ now elim H | ].
  rewrite (Ascii.eqb_sym d c).
  destruct (Ascii.eqb_spec c d) as [-> | N].
  - apply IH. intro E. apply H. now rewrite E.
  - assert (K : Js.unitRank c <> Js.unitRank d)
      by (intro E; apply N; now apply unitRank_inj).
    destruct (N.ltb_spec (Js.unitRank d) (Js.unitRank c)),
      (N.ltb_spec (Js.unitRank c) (Js.unitRank d)); simpl;
      try reflexivity; lia.
Qed.

Lemma lessThan_trans (a b c : string) :
  Js.lessThan a b = true -> Js.lessThan b c = true -> Js.lessThan a c = true.
Proof.
  revert b c. induction a as [ | x a IH]; destruct b as [ | y b];
    destruct c as [ | z c]; simpl; try discriminate; try reflexivity.
  destruct (Ascii.eqb_spec x y) as [-> | Nxy].
  - destruct (Ascii.eqb_spec y z) as [-> | Nyz]; [ apply IH | tauto ].
  - destruct (Ascii.eqb_spec y z) as [-> | Nyz].
    + destruct (Ascii.eqb_spec x z) as [-> | _]; [ contradiction | tauto ].
    + intros L1 L2. apply N.ltb_lt in L1. apply N.ltb_lt in L2.
      destruct (Ascii.eqb_spec x z) as [-> | _]; [ lia | ].
      apply N.ltb_lt. lia.
Qed.

End OrderFacts.

(** ** The order of enumeration *)

Module EnumFacts.

Section Keys.

Context {A : Type}.
Variable key : A -> string.

Lemma insertIndexed_In (x y : A) (sorted : list A) :
  In y (Js.insertIndexed key x sorted) <-> y = x \/ In y sorted.
Proof.
  induction sorted as [ | z rest IH]; simpl; [ intuition congruence | ].
  destruct (Js.indexOfKey key x <=? Js.indexOfKey key z)%N; simpl;
    [ intuition congruence | ].
  rewrite IH. intuition congruence.
Qed.

Lemma sorted_In (y : A) (l : list A) :
  In y (fold_right (Js.insertIndexed key) [] l) <-> In y l.
Proof.
  induction l as [ | x l IH]; simpl; [ tauto | ].
  rewrite insertIndexed_In, IH. intuition congruence.
Qed.

(** Enumeration lists what there is, no more and no less. *)
Lemma enumerate_In (y : A) (l : list A) :
  In y (Js.enumerate key l) <-> In y l.
Proof.
  unfold Js.enumerate. rewrite in_app_iff, sorted_In, !filter_In.
  destruct (Js.isIndexed key y); simpl; intuition congruence.
Qed.

Lemma enumerate_empty (l : list A) : Js.enumerate key l = [] <-> l = [].
Proof.
  split; [ | intros ->; reflexivity ].
  destruct l as [ | x l]; [ reflexivity | ]. intro H. exfalso.
  assert (K : In x (Js.enumerate key (x :: l)))
    by (apply enumerate_In; left; reflexivity).
  rewrite H in K. exact K.
Qed.

(** Without array indices among the keys, the order is that of
    creation. *)
Lemma enumerate_plain (l : list A) :
  Forall (fun x => Js.isIndexed key x = false) l -> Js.enumerate key l = l.
Proof.
  intro H. unfold Js.enumerate.
  assert (E : filter (Js.isIndexed key) l = [] /\
              filter (fun x => negb (Js.isIndexed key x)) l = l).
  { induction H as [ | y l Hy H [IH1 IH2]]; simpl; [ split; reflexivity | ].
    rewrite Hy. simpl. rewrite IH2. split; [ exact IH1 | reflexivity ]. }
  destruct E as [-> ->]. reflexivity.
Qed.

End Keys.

Section Images.

Context {A B : Type}.
Variable key : B -> string.
Variable h : A -> B.

Let key' (x : A) : string := key (h x).

Lemma insertIndexed_map (x : A) (sorted : list A) :
  Js.insertIndexed key (h x) (map h sorted) =
  map h (Js.insertIndexed key' x sorted).
Proof.
  induction sorted as [ | y rest IH]; simpl; [ reflexivity | ].
  change (Js.indexOfKey key (h x)) with (Js.indexOfKey key' x).
  change (Js.indexOfKey key (h y)) with (Js.indexOfKey key' y).
  destruct (Js.indexOfKey key' x <=? Js.indexOfKey key' y)%N; simpl;
    [ reflexivity | ].
  now rewrite IH.
Qed.

Lemma filter_map (p : B -> bool) (l : list A) :
  filter p (map h l) = map h (filter (fun x => p (h x)) l).
Proof.
  induction l as [ | x l IH]; simpl; [ reflexivity | ].
  destruct (p (h x)); simpl; now rewrite IH.
Qed.

(** What is listed may be mapped before or after, when the keys
    stay. *)
Lemma enumerate_map (l : list A) :
  Js.enumerate key (map h l) = map h (Js.enumerate key' l).
Proof.
  unfold Js.enumerate. rewrite map_app, !filter_map. f_equal.
  change (fun x : A => Js.isIndexed key (h x)) with (Js.isIndexed key').
  induction (filter (Js.isIndexed key') l) as [ | x rest IH]; simpl;
    [ reflexivity | ].
  now rewrite IH, insertIndexed_map.
Qed.

End Images.

(** The keys of the entries are the keys in order. *)
Lemma keys_entries {A : Type} (props : list (string * A)) :
  map fst (Js.entries props) = Js.keysInOrder (map fst props).
Proof.
  unfold Js.keysInOrder, Js.entries.
  rewrite (enumerate_map (fun k : string => k) fst). reflexivity.
Qed.

Lemma entries_map {A B : Type} (f : A -> B) (props : list (string * A)) :
  Js.entries (map (fun entry => (fst entry, f (snd entry))) props) =
  map (fun entry => (fst entry, f (snd entry))) (Js.entries props).
Proof.
  unfold Js.entries.
  rewrite (enumerate_map fst (fun entry : string * A => (fst entry, f (snd entry)))).
  reflexivity.
Qed.

End EnumFacts.

(** ** Facts on maps *)

Module JsMapFacts.

Section Facts.
Context {A : Type}.
Implicit Types (m : JsMap.t A) (k : string) (v : A).

Lemma get_set_same m k v : JsMap.get (JsMap.set m k v) k = Some v.
Proof.
  induction m as [ | [k' v'] m IH]; simpl.
  - rewrite String.eqb_refl. reflexivity.
  - destruct (k =? k')%string eqn:E; simpl; rewrite E; auto.
Qed.

Lemma get_set_other m k k' v :
  k' <> k -> JsMap.get (JsMap.set m k v) k' = JsMap.get m k'.
Proof.
  intro N. induction m as [ | [k0 v0] m IH]; simpl.
  - apply String.eqb_neq in N. rewrite N. reflexivity.
  - destruct (k =? k0)%string eqn:E; simpl.
    + apply String.eqb_eq in E. subst k0.
      apply String.eqb_neq in N. rewrite N. reflexivity.
    + rewrite IH. reflexivity.
Qed.

Lemma has_set m k k' v :
  JsMap.has (JsMap.set m k v) k' = ((k' =? k)%string || JsMap.has m k').
Proof.
  unfold JsMap.has. destruct (k' =? k)%string eqn:E.
  - apply String.eqb_eq in E. subst. rewrite get_set_same. reflexivity.
  - apply String.eqb_neq in E. rewrite get_set_other by assumption. reflexivity.
Qed.

Lemma get_In m k v : JsMap.get m k = Some v -> In (k, v) m.
Proof.
  induction m as [ | [k' v'] m IH]; simpl; [ discriminate | ].
  destruct (k =? k')%string eqn:E.
  - apply String.eqb_eq in E. intro H. inversion H. subst. auto.
  - auto.
Qed.

Lemma get_None m k : JsMap.get m k = None <-> ~ In k (JsMap.keys m).
Proof.
  induction m as [ | [k' v'] m IH]; simpl; [ tauto | ].
  destruct (k =? k')%string eqn:E.
  - apply String.eqb_eq in E. subst. split; [ discriminate | tauto ].
  - apply String.eqb_neq in E. rewrite IH. split.
    + intros H [K | K]; [ congruence | contradiction ].
    + intros H K. apply H. right. exact K.
Qed.

Lemma has_In m k : JsMap.has m k = true <-> In k (JsMap.keys m).
Proof.
  unfold JsMap.has. destruct (JsMap.get m k) eqn:E.
  - split; [ intros _ | reflexivity ].
    apply get_In in E. apply (in_map fst) in E. exact E.
  - split; [ discriminate | ]. intro H. apply get_None in E. contradiction.
Qed.

(** A present key keeps its place; an absent one goes last. *)
Lemma keys_set m k v :
  JsMap.keys (JsMap.set m k v) =
  if JsMap.has m k then JsMap.keys m else JsMap.keys m ++ [k].
Proof.
  unfold JsMap.has. induction m as [ | [k' v'] m IH]; simpl; [ reflexivity | ].
  destruct (k =? k')%string eqn:E; simpl; [ reflexivity | ].
  rewrite IH. destruct (JsMap.get m k); reflexivity.
Qed.

Lemma NoDup_set m k v :
  NoDup (JsMap.keys m) -> NoDup (JsMap.keys (JsMap.set m k v)).
Proof.
  intro H. rewrite keys_set. destruct (JsMap.has m k) eqn:E; [ assumption | ].
  apply NoDup_app.
  - assumption.
  - constructor; [ simpl; tauto | constructor ].
  - intros x Hx [<- | []].
    apply has_In in Hx. congruence.
Qed.

Lemma In_set m k v (e : string * A) :
  In e (JsMap.set m k v) -> e = (k, v) \/ In e m \/ (fst e = k /\ snd e = v).
Proof.
  induction m as [ | [k' v'] m IH]; simpl.
  - intros [<- | []]. auto.
  - destruct (k =? k')%string eqn:E; simpl.
    + apply String.eqb_eq in E. subst.
      intros [<- | H]; auto.
    + intros [<- | H]; auto.
      destruct (IH H) as [K | [K | K]]; auto.
Qed.

Lemma Forall_values_set (Q : A -> Prop) m k v :
  Q v -> Forall (fun e => Q (snd e)) m ->
  Forall (fun e => Q (snd e)) (JsMap.set m k v).
Proof.
  intros Hv. induction 1 as [ | [k' v'] m Hx Hm IH]; simpl.
  - constructor; [ assumption | constructor ].
  - destruct (k =? k')%string; constructor; auto.
Qed.

Lemma get_of_In m k v :
  NoDup (JsMap.keys m) -> In (k, v) m -> JsMap.get m k = Some v.
Proof.
  induction m as [ | [k' v'] m IH]; simpl; [ tauto | ].
  intros N [E | H].
  - inversion E. subst. rewrite String.eqb_refl. reflexivity.
  - inversion N as [ | ? ? Hn N']. subst.
    destruct (k =? k')%string eqn:E.
    + apply String.eqb_eq in E. subst. exfalso. apply Hn.
      apply (in_map fst) in H. exact H.
    + auto.
Qed.

End Facts.

End JsMapFacts.

Import JsMapFacts.

(** ** Outcomes and loops *)

Lemma bind_Ok {A B : Type} (c : outcome A) (k : A -> outcome B) (b : B) :
  bind c k = Ok b -> exists a, c = Ok a /\ k a = Ok b.
Proof. destruct c; simpl; intro H; try discriminate. eauto. Qed.

(** A property of the state that every iteration keeps holds at the end. *)
Lemma forEach_invariant {A S : Type} (Q : S -> Prop)
    (body : S -> A -> outcome S) (items : list A) :
  (forall s item s', Q s -> body s item = Ok s' -> Q s') ->
  forall s s', Q s -> forEach items body s = Ok s' -> Q s'.
Proof.
  intro Hbody. induction items as [ | item rest IH]; simpl; intros s s' Hs H.
  - inversion H. subst. assumption.
  - apply bind_Ok in H. destruct H as (s1 & H1 & H2). eauto.
Qed.

Lemma fold_left_invariant {A S : Type} (Q : S -> Prop) (f : S -> A -> S)
    (items : list A) :
  (forall s item, Q s -> Q (f s item)) ->
  forall s, Q s -> Q (fold_left f items s).
Proof.
  intro Hf. induction items as [ | item rest IH]; simpl; auto.
Qed.

(** ** What normalization and anchoring preserve

    Every number that normalization, the template or anchoring stores in
    a variable is a clamped number, the literal [5], or a number of the
    template.  A property of these numbers is a property of every
    variable the integrator receives. *)

Section Pipeline.

Variable NumberOfText : jsval -> float.
Variable Q : float -> Prop.
Hypothesis Q_clamped : forall x, Q (clampRange x).
Hypothesis Q_five : Q 5.
Hypothesis Q_template :
  Forall (fun v => Q (v_value v) /\ Q (v_baseline v)) TEMPLATE_VARIABLES.

Let sat (v : GVariable) : Prop := Q (v_value v) /\ Q (v_baseline v).

Lemma variableOf_sat (id : string) (item : jsval) :
  sat (variableOf NumberOfText id item).
Proof. split; apply Q_clamped. Qed.

Lemma pushNode_sat (normalized : list GVariable) (item : jsval)
    (normalized' : list GVariable) :
  Forall sat normalized ->
  pushNode NumberOfText normalized item = Ok normalized' ->
  Forall sat normalized'.
Proof.
  intros H. unfold pushNode.
  destruct (negb (Js.truthy item)); [ intro E; inversion E; subst; assumption | ].
  assert (K : forall s, Forall sat (normalized ++ [variableOf NumberOfText s item])).
  { intro s. apply Forall_app. split; [ assumption | ].
    constructor; [ apply variableOf_sat | constructor ]. }
  destruct item; try (
    destruct (negb (Js.truthy _));
    [ intro E; inversion E; subst; assumption
    | destruct (_ ||| _); intro E; inversion E; subst; apply K ]).
  intro E. inversion E. subst. apply Forall_app. split; [ assumption | ].
  constructor; [ | constructor ]. split; exact Q_five.
Qed.

Lemma pushEntry_sat (normalized : list GVariable) (entry : string * jsval) :
  Forall sat normalized ->
  Forall sat (pushEntry NumberOfText normalized entry).
Proof.
  intro H. destruct entry as [id item]. unfold pushEntry.
  destruct (id =? "")%string; [ assumption | ].
  destruct (Js.truthy item && Js.typeof_object item);
    apply Forall_app; (split; [ assumption | ]);
    (constructor; [ | constructor ]).
  - apply variableOf_sat.
  - split; apply Q_clamped.
Qed.

Lemma normalizeVariables_sat (graph : jsval) (variables : list GVariable) :
  normalizeVariables NumberOfText graph = Ok variables ->
  Forall sat variables.
Proof.
  unfold normalizeVariables. intro H.
  apply bind_Ok in H. destruct H as (raw & _ & H).
  destruct (_ ||| _ ||| _ ||| _ ||| _) as [ | | b | x | s | items | props ];
    try (inversion H; subst; constructor; fail).
  - revert H. apply forEach_invariant; [ | constructor ].
    intros s item s' Hs Hb. eapply pushNode_sat; eassumption.
  - inversion H. subst.
    apply fold_left_invariant; [ | constructor ].
    intros s item Hs. now apply pushEntry_sat.
Qed.

Lemma resolveGraph_sat (causalGraph : jsval)
    (variables : list GVariable) (edges : list Edge) :
  resolveGraph NumberOfText causalGraph = Ok (variables, edges) ->
  Forall sat variables.
Proof.
  unfold resolveGraph. intro H.
  apply bind_Ok in H. destruct H as (vs & Hv & H).
  apply bind_Ok in H. destruct H as (es & He & H).
  inversion H. subst. apply normalizeVariables_sat in Hv.
  destruct vs; [ exact Q_template | assumption ].
Qed.

Lemma anchorVariable_sat (initialState : jsval) (v v' : GVariable) :
  sat v ->
  anchorVariable NumberOfText initialState v = Ok v' ->
  sat v'.
Proof.
  intro Hv. unfold anchorVariable.
  destruct (VARIABLE_FACTORS (v_id v)) as [factors | [ | n] | | ];
    try (intro E; inversion E; subst; assumption); try discriminate.
  destruct factors as [ | f fs]; [ intro E; inversion E; subst; assumption | ].
  destruct (anchorValuesOf NumberOfText initialState (f :: fs));
    intro E; inversion E; subst; [ assumption | ].
  split; apply Q_clamped.
Qed.

Lemma applyInitialStateAnchors_sat (variables : list GVariable)
    (initialState : jsval) (anchored : list GVariable) :
  Forall sat variables ->
  applyInitialStateAnchors NumberOfText variables initialState = Ok anchored ->
  Forall sat anchored.
Proof.
  intro Hv. unfold applyInitialStateAnchors.
  destruct (negb (Js.truthy initialState) || negb (Js.typeof_object initialState));
    [ intro E; inversion E; subst; assumption | ].
  assert (G : forall vs, Forall sat vs ->
              forall acc acc', Forall sat acc ->
              forEach vs (fun mapped variable =>
                anchored <- anchorVariable NumberOfText initialState variable ;;
                Ok (mapped ++ [anchored])) acc = Ok acc' ->
              Forall sat acc').
  { induction 1 as [ | v vs Hx Hvs IH]; simpl; intros acc acc' Hacc H.
    - inversion H. subst. assumption.
    - apply bind_Ok in H. destruct H as (s1 & H1 & H2).
      apply bind_Ok in H1. destruct H1 as (a & Ha & H1). inversion H1. subst.
      eapply IH; [ | eassumption ].
      apply Forall_app. split; [ assumption | ].
      constructor; [ | constructor ].
      eapply anchorVariable_sat; eassumption. }
  intro H. eapply G; [ eassumption | constructor | eassumption ].
Qed.

End Pipeline.

(** ** The range of values and baselines *)

Section Ranges.

Variable NumberOfText : jsval -> float.

Lemma template_in_range : Forall variable_in_range TEMPLATE_VARIABLES.
Proof. repeat constructor. Qed.

Lemma resolveGraph_in_range (causalGraph : jsval)
    (variables : list GVariable) (edges : list Edge) :
  resolveGraph NumberOfText causalGraph = Ok (variables, edges) ->
  Forall variable_in_range variables.
Proof.
  apply (resolveGraph_sat NumberOfText (in_range 0 10)).
  - apply clampRange_in_range.
  - split; reflexivity.
  - apply template_in_range.
Qed.

Lemma applyInitialStateAnchors_in_range (variables : list GVariable)
    (initialState : jsval) (anchored : list GVariable) :
  Forall variable_in_range variables ->
  applyInitialStateAnchors NumberOfText variables initialState = Ok anchored ->
  Forall variable_in_range anchored.
Proof.
  apply (applyInitialStateAnchors_sat NumberOfText (in_range 0 10)).
  apply clampRange_in_range.
Qed.

End Ranges.

Lemma loadVariables_in_range (variables : list GVariable) :
  map_in_range (fst (loadVariables variables)) /\
  map_in_range (snd (loadVariables variables)).
Proof.
  unfold loadVariables.
  apply (fold_left_invariant
           (fun maps => map_in_range (fst maps) /\ map_in_range (snd maps))).
  - intros [values baselines] v [Hv Hb]. simpl in *.
    split; apply Forall_values_set; auto using clampRange_in_range.
  - split; constructor.
Qed.

Lemma advance_in_range (dt damping : float) (baselines deltas values : JsMap.t float)
    (entry : string * float) :
  map_in_range values ->
  map_in_range (advance dt damping baselines deltas values entry).
Proof.
  intro H. destruct entry as [key currentValue]. unfold advance.
  apply Forall_values_set; [ apply clampRange_in_range | assumption ].
Qed.

Lemma eulerStep_in_range (dt damping : float) (baselines : JsMap.t float)
    (edges : list Edge) (values : JsMap.t float) :
  map_in_range values ->
  map_in_range (eulerStep dt damping baselines edges values).
Proof.
  intro H. unfold eulerStep.
  apply fold_left_invariant; [ | assumption ].
  intros s entry Hs. now apply advance_in_range.
Qed.

Lemma captureSnapshot_in_range (step : Z) (values : JsMap.t float) :
  map_in_range values -> snapshot_in_range (captureSnapshot step values).
Proof.
  intro H. unfold captureSnapshot, snapshot_in_range. simpl.
  assert (G : forall o, map_in_range o ->
            map_in_range
              (fold_left (fun snapshot entry =>
                            object_set snapshot (fst entry) (snd entry)) values o)).
  { induction H as [ | [k x] m Hx Hm IH]; simpl; intros o Ho; [ assumption | ].
    apply IH. unfold object_set.
    destruct (k =? "__proto__")%string; [ assumption | ].
    now apply Forall_values_set. }
  apply G. constructor.
Qed.

Lemma eulerLoop_in_range (remaining : nat) :
  forall (step : Z) (dt damping : float) (baselines : JsMap.t float)
         (edges : list Edge) (values : JsMap.t float) (series : list Snapshot),
    map_in_range values ->
    Forall snapshot_in_range series ->
    let simulation :=
      eulerLoop remaining step dt damping baselines edges values series in
    Forall snapshot_in_range (timeSeries simulation) /\
    map_in_range (finalValues simulation).
Proof.
  induction remaining as [ | n IH]; simpl; intros; [ split; assumption | ].
  apply IH.
  - now apply eulerStep_in_range.
  - apply Forall_app. split; [ assumption | ].
    constructor; [ | constructor ].
    apply captureSnapshot_in_range. now apply eulerStep_in_range.
Qed.

Lemma aggregate_in_range (finalValues : JsMap.t float)
    (positives negatives : list string) :
  in_range 1 10 (aggregate finalValues positives negatives).
Proof. unfold aggregate. apply clamp_in_range. reflexivity. Qed.

Lemma deriveFiveFactorState_in_range (finalValues : JsMap.t float) :
  state_in_range (deriveFiveFactorState finalValues).
Proof. repeat split; apply aggregate_in_range. Qed.

(** ** The stages of a run *)

Section Stages.

Variable NumberOfText : jsval -> float.

(** A run that returns went through every stage, and its result is
    assembled from what the stages returned. *)
Lemma runCausalSimulation_stages (causalGraph opts : jsval) (result : Result) :
  runCausalSimulation NumberOfText causalGraph opts = Ok result ->
  exists variables edges initialState anchored simulation loops,
    resolveGraph NumberOfText (Js.default causalGraph (VObject []))
      = Ok (variables, edges) /\
    Js.get (Js.default opts (VObject [])) "initialState" = Ok initialState /\
    applyInitialStateAnchors NumberOfText variables initialState = Ok anchored /\
    runEulerSimulation anchored edges (Js.default opts (VObject []))
      = Ok simulation /\
    detectCycles edges = Some loops /\
    result = mkResult loops (timeSeries simulation)
               (deriveFiveFactorState (finalValues simulation)).
Proof.
  unfold runCausalSimulation. intro H.
  apply bind_Ok in H. destruct H as ([variables edges] & Hg & H).
  apply bind_Ok in H. destruct H as (initialState & Hi & H).
  apply bind_Ok in H. destruct H as (anchored & Ha & H).
  apply bind_Ok in H. destruct H as (simulation & Hs & H).
  destruct (detectCycles edges) as [loops | ] eqn:Hl; [ | discriminate ].
  inversion H. subst.
  exists variables, edges, initialState, anchored, simulation, loops.
  repeat split; assumption.
Qed.

Lemma runEulerSimulation_Ok (variables : list GVariable) (edges : list Edge)
    (opts : jsval) (simulation : Simulation) :
  runEulerSimulation variables edges opts = Ok simulation ->
  let opts := Js.default opts (VObject []) in
  (readSteps opts <= maxSteps)%Z /\
  simulation =
    eulerLoop (Z.to_nat (readSteps opts)) 1%Z
      (readFinite opts "dt" 0.35) (readFinite opts "damping" 0.28)
      (snd (loadVariables variables)) edges (fst (loadVariables variables))
      [captureSnapshot 0%Z (fst (loadVariables variables))].
Proof.
  unfold runEulerSimulation.
  destruct (loadVariables variables) as [values baselines]. simpl.
  destruct (maxSteps <? readSteps (Js.default opts (VObject [])))%Z eqn:E;
    [ discriminate | ].
  intro H. inversion H. split; [ | reflexivity ].
  apply Z.ltb_ge in E. exact E.
Qed.

(** C2. For every graph description and options on which the engine
    returns: every variable's value and baseline lie in [0,10] after
    normalization (or template substitution) and after anchoring, so do
    the value and baseline maps the integrator starts from and every
    value of every snapshot of the time series, and the five fields of
    the new state lie in [1,10]. *)
Theorem range_invariant (causalGraph opts : jsval) (result : Result) :
  runCausalSimulation NumberOfText causalGraph opts = Ok result ->
  exists variables edges initialState anchored,
    resolveGraph NumberOfText (Js.default causalGraph (VObject []))
      = Ok (variables, edges) /\
    Js.get (Js.default opts (VObject [])) "initialState" = Ok initialState /\
    applyInitialStateAnchors NumberOfText variables initialState = Ok anchored /\
    Forall variable_in_range variables /\
    Forall variable_in_range anchored /\
    map_in_range (fst (loadVariables anchored)) /\
    map_in_range (snd (loadVariables anchored)) /\
    Forall snapshot_in_range (r_timeSeries result) /\
    state_in_range (r_newState result).
Proof.
  intro H. apply runCausalSimulation_stages in H.
  destruct H as (variables & edges & initialState & anchored & simulation
                 & loops & Hg & Hi & Ha & Hs & Hl & ->).
  exists variables, edges, initialState, anchored.
  pose proof (resolveGraph_in_range _ _ _ _ Hg) as Rv.
  pose proof (applyInitialStateAnchors_in_range _ _ _ _ Rv Ha) as Ra.
  destruct (loadVariables_in_range anchored) as [Lv Lb].
  apply runEulerSimulation_Ok in Hs. destruct Hs as [_ ->].
  repeat (split; [ assumption | ]). simpl.
  split; [ | apply deriveFiveFactorState_in_range ].
  apply eulerLoop_in_range; [ assumption | ].
  constructor; [ | constructor ]. now apply captureSnapshot_in_range.
Qed.

End Stages.

(** The invariant on the integration scenario. *)
Lemma range_invariant_witness :
  exists result,
    runCausalSimulation noNumericText scenarioGraph scenarioOptions = Ok result /\
    Forall snapshot_in_range (r_timeSeries result) /\
    state_in_range (r_newState result).
Proof.
  eexists. split; [ vm_compute; reflexivity | ].
  destruct (range_invariant noNumericText scenarioGraph scenarioOptions _ eq_refl)
    as (variables & edges & initialState & anchored & _ & _ & _ & _ & _ & _ & _ & Hs & Hn).
  split; assumption.
Defined.

(** ** The built-in template *)

Section Template.

Variable NumberOfText : jsval -> float.

Lemma resolveGraph_empty_object :
  resolveGraph NumberOfText (VObject []) = Ok (TEMPLATE_VARIABLES, TEMPLATE_EDGES).
Proof. reflexivity. Qed.

Lemma detectCycles_template :
  option_map loopSummary (detectCycles TEMPLATE_EDGES) = Some TEMPLATE_LOOPS.
Proof. vm_compute. reflexivity. Qed.

(** C1, as amended.  An empty normalized variable list is replaced by
    the 8 template variables and an empty normalized edge list by the 12
    template edges, each independently of the other.  For the graph
    description [{}] the engine works on exactly the template, and the
    loops it reports are the five loops of the template, all of them
    Reinforcing. *)
Theorem template_fallback (causalGraph : jsval)
    (variables : list GVariable) (edges : list Edge) :
  normalizeVariables NumberOfText causalGraph = Ok variables ->
  normalizeEdges NumberOfText causalGraph = Ok edges ->
  resolveGraph NumberOfText causalGraph =
    Ok (match variables with [] => TEMPLATE_VARIABLES | _ => variables end,
        match edges with [] => TEMPLATE_EDGES | _ => edges end) /\
  List.length TEMPLATE_VARIABLES = 8%nat /\
  List.length TEMPLATE_EDGES = 12%nat /\
  resolveGraph NumberOfText (VObject []) = Ok (TEMPLATE_VARIABLES, TEMPLATE_EDGES) /\
  forall opts result,
    runCausalSimulation NumberOfText (VObject []) opts = Ok result ->
    loopSummary (r_loopsDetected result) = TEMPLATE_LOOPS /\
    r_loopsDetected result <> [] /\
    (exists c, In c (r_loopsDetected result) /\ c_type c = Reinforcing) /\
    Forall (fun c => c_type c = Reinforcing) (r_loopsDetected result).
Proof.
  intros Hv He. split.
  { unfold resolveGraph. rewrite Hv, He. reflexivity. }
  repeat (split; [ reflexivity | ]).
  intros opts result H. apply runCausalSimulation_stages in H.
  destruct H as (vs & es & initialState & anchored & simulation & loops
                 & Hg & _ & _ & _ & Hl & ->).
  simpl in Hg. rewrite resolveGraph_empty_object in Hg. inversion Hg. subst.
  simpl. pose proof detectCycles_template as T. rewrite Hl in T.
  simpl in T. inversion T as [T']. clear T.
  assert (F : Forall (fun c => c_type c = Reinforcing) loops).
  { apply Forall_forall. intros c Hc.
    apply (in_map (fun c => (c_type c, c_nodes c))) in Hc.
    unfold loopSummary in T'. rewrite T' in Hc. simpl in Hc.
    repeat (destruct Hc as [Hc | Hc]; [ inversion Hc; reflexivity | ]).
    contradiction. }
  split; [ reflexivity | ]. split; [ | split; [ | exact F ] ].
  - intro E. rewrite E in T'. discriminate.
  - destruct loops as [ | c rest]; [ discriminate | ].
    exists c. split; [ left; reflexivity | ]. inversion F. assumption.
Qed.

End Template.

(** The fallback on a description with one variable and no edge. *)
Lemma template_fallback_witness :
  resolveGraph noNumericText loneVariableGraph =
    Ok ([mkVariable "X" 5 5], TEMPLATE_EDGES).
Proof.
  exact (proj1 (template_fallback noNumericText loneVariableGraph
                  [mkVariable "X" 5 5] [] eq_refl eq_refl)).
Defined.

(** C1, as stated, fails twice.  With one variable and no edge the
    normalized edge list is empty, yet the variable list is kept: the
    graph is not replaced as a whole.  And on [{}] no reported loop is
    Balancing. *)
Lemma template_fallback_counterexample :
  (normalizeEdges noNumericText loneVariableGraph = Ok [] /\
   resolveGraph noNumericText loneVariableGraph
     = Ok ([mkVariable "X" 5 5], TEMPLATE_EDGES) /\
   [mkVariable "X" 5 5] <> TEMPLATE_VARIABLES) /\
  (exists result,
     runCausalSimulation noNumericText (VObject []) VUndefined = Ok result /\
     ~ exists c, In c (r_loopsDetected result) /\ c_type c = Balancing).
Proof.
  split.
  - repeat split; try reflexivity. discriminate.
  - eexists. split; [ vm_compute; reflexivity | ].
    intros (c & Hc & Ht). simpl in Hc.
    repeat (destruct Hc as [Hc | Hc]; [ subst c; discriminate | ]).
    contradiction.
Qed.

(** ** Failures of the engine *)

(** C3 (the code departs from it).  The engine throws on a graph
    description that is [null], on options that are [null], and, when an
    initial state is given, on a variable named like a function inherited
    from [Object.prototype]. *)
Theorem engine_throws (NumberOfText : jsval -> float) :
  (forall opts, runCausalSimulation NumberOfText VNull opts = TypeError) /\
  runCausalSimulation NumberOfText (VObject []) VNull = TypeError /\
  runCausalSimulation NumberOfText
    (VObject [ ("variables", VArray [ VString "constructor" ]) ])
    (VObject [ ("initialState", VObject []) ]) = TypeError.
Proof. repeat split. Qed.

(** ** A self-loop *)

(** C7. When the only edge is the self-loop on [X] with weight -0.5, the
    detector returns exactly one record: Balancing, nodes [X], dominance
    100. *)
Theorem self_loop_cycle :
  detectCycles [mkEdge "X" "X" (-0.5)] =
    Some [mkCycle Balancing 100 ["X"] "X → X" [-0.5]] /\
  forall NumberOfText : jsval -> float,
    normalizeEdges NumberOfText
      (VObject [ ("edges",
                  VArray [ VObject [ ("from", VString "X"); ("to", VString "X");
                                     ("weight", VNumber (-0.5)) ] ]) ])
      = Ok [mkEdge "X" "X" (-0.5)].
Proof. split; [ vm_compute; reflexivity | intro; reflexivity ]. Qed.

(** ** Maps built by a loop of [set] *)

Lemma get_fold_set {A E : Type} (key : E -> string) (val : E -> A)
    (entries : list E) :
  forall (m : JsMap.t A) (k : string),
    JsMap.get (fold_left (fun m e => JsMap.set m (key e) (val e)) entries m) k =
    match findLast (fun e => (k =? key e)%string) entries with
    | Some e => Some (val e)
    | None => JsMap.get m k
    end.
Proof.
  induction entries as [ | x rest IH]; simpl; intros m k; [ reflexivity | ].
  rewrite IH. destruct (findLast _ rest); [ reflexivity | ].
  destruct (k =? key x)%string eqn:Hk.
  - apply String.eqb_eq in Hk. subst. apply get_set_same.
  - apply String.eqb_neq in Hk. now apply get_set_other.
Qed.

Lemma NoDup_fold_set {A E : Type} (key : E -> string) (val : E -> A)
    (entries : list E) :
  forall m : JsMap.t A,
    NoDup (JsMap.keys m) ->
    NoDup (JsMap.keys (fold_left (fun m e => JsMap.set m (key e) (val e)) entries m)).
Proof.
  induction entries as [ | x rest IH]; simpl; intros m H; [ assumption | ].
  apply IH. now apply NoDup_set.
Qed.

(** In a well-formed map the last entry of a key is its only entry. *)
Lemma findLast_get {A : Type} (m : JsMap.t A) (k : string) :
  NoDup (JsMap.keys m) ->
  option_map snd (findLast (fun e => (k =? fst e)%string) m) = JsMap.get m k.
Proof.
  induction m as [ | [k' v] m IH]; simpl; intro N; [ reflexivity | ].
  inversion N as [ | ? ? Hn N']. subst.
  specialize (IH N').
  destruct (k =? k')%string eqn:E.
  - apply String.eqb_eq in E. subst k'.
    destruct (findLast _ m) as [e | ] eqn:F; [ | reflexivity ].
    exfalso. apply Hn. simpl in IH. symmetry in IH.
    apply get_In in IH. apply (in_map fst) in IH. exact IH.
  - destruct (findLast _ m); simpl in *; assumption.
Qed.

(** ** The maps the integrator starts from *)

Lemma loadVariables_fst (variables : list GVariable) :
  forall maps,
    fst (fold_left loadVariable variables maps) =
    fold_left (fun m v => JsMap.set m (v_id v) (clampRange (v_value v)))
      variables (fst maps).
Proof.
  induction variables as [ | v rest IH]; simpl; intro maps; [ reflexivity | ].
  rewrite IH. reflexivity.
Qed.

Lemma loadVariables_snd (variables : list GVariable) :
  forall maps,
    snd (fold_left loadVariable variables maps) =
    fold_left (fun m v => JsMap.set m (v_id v) (clampRange (v_baseline v)))
      variables (snd maps).
Proof.
  induction variables as [ | v rest IH]; simpl; intro maps; [ reflexivity | ].
  rewrite IH. reflexivity.
Qed.

Lemma loadVariables_values (variables : list GVariable) (id : string) :
  JsMap.get (fst (loadVariables variables)) id =
  option_map clampRange (initialValueOf variables id).
Proof.
  unfold loadVariables, initialValueOf. rewrite loadVariables_fst. simpl.
  rewrite (get_fold_set v_id (fun v => clampRange (v_value v))).
  destruct (findLast _ variables); reflexivity.
Qed.

Lemma loadVariables_baselines (variables : list GVariable) (id : string) :
  JsMap.get (snd (loadVariables variables)) id =
  option_map clampRange (initialBaselineOf variables id).
Proof.
  unfold loadVariables, initialBaselineOf. rewrite loadVariables_snd. simpl.
  rewrite (get_fold_set v_id (fun v => clampRange (v_baseline v))).
  destruct (findLast _ variables); reflexivity.
Qed.

Lemma loadVariables_NoDup (variables : list GVariable) :
  NoDup (JsMap.keys (fst (loadVariables variables))) /\
  NoDup (JsMap.keys (snd (loadVariables variables))).
Proof.
  unfold loadVariables. rewrite loadVariables_fst, loadVariables_snd.
  split; apply NoDup_fold_set; constructor.
Qed.

Lemma findLast_In {A : Type} (p : A -> bool) (l : list A) (x : A) :
  findLast p l = Some x -> In x l.
Proof.
  induction l as [ | y rest IH]; simpl; [ discriminate | ].
  destruct (findLast p rest).
  - intro E. inversion E. subst. auto.
  - destruct (p y); [ | discriminate ]. intro E. inversion E. auto.
Qed.

(** ** Snapshots *)

(** A snapshot maps a key to its value in the map, except ["__proto__"]. *)
Lemma captureSnapshot_get (step : Z) (values : JsMap.t float) (k : string) :
  NoDup (JsMap.keys values) ->
  k <> "__proto__" ->
  JsMap.get (s_values (captureSnapshot step values)) k = JsMap.get values k.
Proof.
  intros N Hk. unfold captureSnapshot. simpl.
  rewrite <- (findLast_get values k N).
  assert (G : forall (entries : list (string * float)) o,
            JsMap.get
              (fold_left (fun snapshot entry =>
                            object_set snapshot (fst entry) (snd entry)) entries o) k =
            match findLast (fun e => (k =? fst e)%string) entries with
            | Some e => Some (snd e)
            | None => JsMap.get o k
            end).
  { induction entries as [ | [k' x] rest IH]; simpl; intro o; [ reflexivity | ].
    rewrite IH. destruct (findLast _ rest); [ reflexivity | ].
    unfold object_set. destruct (k' =? "__proto__")%string eqn:P.
    - apply String.eqb_eq in P. subst k'.
      apply String.eqb_neq in Hk. rewrite Hk. reflexivity.
    - destruct (k =? k')%string eqn:E.
      + apply String.eqb_eq in E. subst. apply get_set_same.
      + apply String.eqb_neq in E. now apply get_set_other. }
  rewrite G. destruct (findLast _ values); reflexivity.
Qed.

Lemma eulerLoop_series (remaining : nat) :
  forall (step : Z) (dt damping : float) (baselines : JsMap.t float)
         (edges : list Edge) (values : JsMap.t float) (series : list Snapshot),
  exists rest,
    timeSeries (eulerLoop remaining step dt damping baselines edges values series)
      = series ++ rest /\
    map s_step rest = map (fun i => (step + Z.of_nat i)%Z) (seq 0 remaining).
Proof.
  induction remaining as [ | n IH]; simpl; intros.
  - exists []. split; [ now rewrite app_nil_r | reflexivity ].
  - destruct (IH (step + 1)%Z dt damping baselines edges
                (eulerStep dt damping baselines edges values)
                (series ++ [captureSnapshot step
                              (eulerStep dt damping baselines edges values)]))
      as (rest & Hr & Hs).
    eexists. split.
    + rewrite Hr, <- app_assoc. reflexivity.
    + simpl. rewrite Hs, Z.add_0_r. f_equal.
      rewrite <- seq_shift, map_map. apply map_ext. intro i. lia.
Qed.

Lemma stepNumbers_shift (n : nat) :
  stepNumbers n = 0%Z :: map (fun i => (1 + Z.of_nat i)%Z) (seq 0 n).
Proof.
  unfold stepNumbers. rewrite <- cons_seq. cbn [map Z.of_nat]. f_equal.
  rewrite <- seq_shift, map_map. apply map_ext. intro i. lia.
Qed.

(** ** Snapshot 0 and the number of snapshots *)

Section SnapshotCount.

Variable NumberOfText : jsval -> float.

Lemma template_settled :
  Forall (fun v => settled (v_value v) /\ settled (v_baseline v))
    TEMPLATE_VARIABLES.
Proof. repeat constructor. Qed.

(** The variables the integrator receives hold clamped numbers. *)
Lemma anchored_settled (causalGraph initialState : jsval)
    (variables anchored : list GVariable) (edges : list Edge) :
  resolveGraph NumberOfText causalGraph = Ok (variables, edges) ->
  applyInitialStateAnchors NumberOfText variables initialState = Ok anchored ->
  Forall (fun v => settled (v_value v) /\ settled (v_baseline v)) anchored.
Proof.
  intros Hg Ha.
  apply (applyInitialStateAnchors_sat NumberOfText settled
           clampRange_idempotent variables initialState anchored);
    [ | assumption ].
  apply (resolveGraph_sat NumberOfText settled clampRange_idempotent
           eq_refl template_settled causalGraph variables edges Hg).
Qed.

Lemma readSteps_given (opts : jsval) (x : float) (N : Z) :
  Js.field opts "steps" = VNumber x ->
  Js.integer_value x = Some N ->
  (0 < N)%Z ->
  readSteps (Js.default opts (VObject [])) = N.
Proof.
  intros Hf Hx HN.
  assert (D : Js.default opts (VObject []) = opts).
  { destruct opts; try reflexivity. discriminate. }
  rewrite D. unfold readSteps. rewrite Hf, Hx.
  apply Z.ltb_lt in HN. rewrite HN. reflexivity.
Qed.

(** C4, as amended.  When [steps] is a positive integer [N] and the
    engine returns, the time series holds exactly [N + 1] snapshots,
    numbered 0 to [N], and snapshot 0 is taken before any integration
    step: it maps every id other than ["__proto__"] to the value of the
    last variable carrying that id after normalization and anchoring. *)
Theorem snapshot_count (causalGraph opts : jsval) (x : float) (N : Z)
    (result : Result) :
  Js.field opts "steps" = VNumber x ->
  Js.integer_value x = Some N ->
  (0 < N)%Z ->
  runCausalSimulation NumberOfText causalGraph opts = Ok result ->
  List.length (r_timeSeries result) = S (Z.to_nat N) /\
  map s_step (r_timeSeries result) = stepNumbers (Z.to_nat N) /\
  exists variables edges initialState anchored first rest,
    resolveGraph NumberOfText (Js.default causalGraph (VObject []))
      = Ok (variables, edges) /\
    Js.get (Js.default opts (VObject [])) "initialState" = Ok initialState /\
    applyInitialStateAnchors NumberOfText variables initialState = Ok anchored /\
    r_timeSeries result = first :: rest /\
    forall id, id <> "__proto__" ->
      JsMap.get (s_values first) id = initialValueOf anchored id.
Proof.
  intros Hf Hx HN H. apply runCausalSimulation_stages in H.
  destruct H as (variables & edges & initialState & anchored & simulation
                 & loops & Hg & Hi & Ha & Hs & Hl & ->).
  apply runEulerSimulation_Ok in Hs. destruct Hs as [_ Hs].
  assert (D : Js.default (Js.default opts (VObject [])) (VObject [])
              = Js.default opts (VObject [])).
  { destruct opts; reflexivity. }
  rewrite D in Hs. rewrite (readSteps_given opts x N Hf Hx HN) in Hs.
  simpl. subst simulation.
  match goal with
  | |- context [eulerLoop ?n ?s ?dt ?d ?b ?e ?v ?ser] =>
      destruct (eulerLoop_series n s dt d b e v ser) as (rest & Hr & Hn)
  end.
  rewrite Hr. split; [ | split ].
  - simpl. f_equal. rewrite <- (length_map s_step), Hn, length_map, length_seq.
    reflexivity.
  - simpl. rewrite Hn, stepNumbers_shift. reflexivity.
  - exists variables, edges, initialState, anchored. eexists. exists rest.
    repeat (split; [ eassumption || reflexivity | ]).
    intros id Hid.
    rewrite captureSnapshot_get;
      [ | apply loadVariables_NoDup | assumption ].
    rewrite loadVariables_values. unfold initialValueOf.
    destruct (findLast _ anchored) as [v | ] eqn:F; [ | reflexivity ].
    simpl. f_equal.
    pose proof (anchored_settled _ _ _ _ _ Hg Ha) as S.
    rewrite Forall_forall in S. apply (S v). eapply findLast_In. exact F.
Qed.

End SnapshotCount.

(** The count on the integration scenario: one step, two snapshots. *)
Lemma snapshot_count_witness :
  exists result,
    runCausalSimulation noNumericText scenarioGraph scenarioOptions = Ok result /\
    List.length (r_timeSeries result) = 2%nat /\
    map s_step (r_timeSeries result) = [0%Z; 1%Z].
Proof.
  eexists. split; [ vm_compute; reflexivity | ].
  destruct (snapshot_count noNumericText scenarioGraph scenarioOptions 1 1%Z _
              eq_refl eq_refl eq_refl eq_refl) as (Hl & Hs & _).
  split; assumption.
Defined.

(** C4, as stated, fails: snapshot 0 does not give every variable its
    value.  Of two variables named [A], with values 1 and 2, it records the
    second only; and a variable named ["__proto__"] is not recorded. *)
Lemma snapshot_count_counterexample :
  (exists result first rest,
     runCausalSimulation noNumericText duplicateGraph scenarioOptions = Ok result /\
     resolveGraph noNumericText duplicateGraph
       = Ok ([mkVariable "A" 1 1; mkVariable "A" 2 2], TEMPLATE_EDGES) /\
     applyInitialStateAnchors noNumericText
       [mkVariable "A" 1 1; mkVariable "A" 2 2] VUndefined
       = Ok [mkVariable "A" 1 1; mkVariable "A" 2 2] /\
     r_timeSeries result = first :: rest /\
     JsMap.get (s_values first) "A" = Some 2 /\
     JsMap.get (s_values first) "A" <> Some (v_value (mkVariable "A" 1 1))) /\
  (exists result first rest,
     runCausalSimulation noNumericText protoGraph scenarioOptions = Ok result /\
     resolveGraph noNumericText protoGraph
       = Ok ([mkVariable "__proto__" 3 3], TEMPLATE_EDGES) /\
     applyInitialStateAnchors noNumericText [mkVariable "__proto__" 3 3] VUndefined
       = Ok [mkVariable "__proto__" 3 3] /\
     r_timeSeries result = first :: rest /\
     JsMap.get (s_values first) "__proto__" = None).
Proof.
  split.
  - do 3 eexists. split; [ vm_compute; reflexivity | ].
    repeat (split; [ reflexivity | ]).
    simpl. intro E. inversion E.
  - do 3 eexists. split; [ vm_compute; reflexivity | ].
    repeat (split; [ reflexivity | ]). reflexivity.
Qed.

(** ** One integration step *)

Lemma has_of_findLast {A : Type} (m : JsMap.t A) (k : string) :
  NoDup (JsMap.keys m) ->
  (exists e, findLast (fun e => (k =? fst e)%string) m = Some e)
  <-> JsMap.has m k = true.
Proof.
  intro N. unfold JsMap.has. rewrite <- (findLast_get m k N).
  destruct (findLast _ m); simpl; split; intro H; eauto; try discriminate.
  destruct H. discriminate.
Qed.

Lemma zeroDeltas_get (values : JsMap.t float) (k : string) :
  NoDup (JsMap.keys values) ->
  JsMap.get (zeroDeltas values) k = if JsMap.has values k then Some 0 else None.
Proof.
  intro N. unfold zeroDeltas.
  rewrite (get_fold_set fst (fun _ => 0)). simpl.
  pose proof (has_of_findLast values k N) as H.
  destruct (findLast _ values) as [e | ].
  - destruct H as [H _]. rewrite H; eauto.
  - destruct (JsMap.has values k); [ | reflexivity ].
    destruct H as [_ H]. destruct (H eq_refl). discriminate.
Qed.

(** After the loop over the edges, the delta of a variable is its
    accumulated influence. *)
Lemma deltas_get (values : JsMap.t float) (edges : list Edge) :
  forall (deltas : JsMap.t float) (start : string -> float),
    (forall k, JsMap.get deltas k =
               if JsMap.has values k then Some (start k) else None) ->
    forall k,
      JsMap.get (fold_left (addInfluence values) edges deltas) k =
      if JsMap.has values k
      then Some (fold_left
                   (fun total edge =>
                      if feeds values edge k
                      then orZero (Some total)
                           + orNaN (JsMap.get values (e_from edge)) * e_weight edge
                      else total)
                   edges (start k))
      else None.
Proof.
  induction edges as [ | edge rest IH]; simpl; intros deltas start H k.
  - apply H.
  - apply (IH _ (fun k => if feeds values edge k
                          then orZero (Some (start k))
                               + orNaN (JsMap.get values (e_from edge))
                                 * e_weight edge
                          else start k)).
    clear k. intro k. unfold addInfluence, feeds.
    destruct (JsMap.has values (e_from edge)) eqn:Hf; simpl;
      [ | apply H ].
    destruct (JsMap.has values (e_to edge)) eqn:Ht; simpl; [ | apply H ].
    destruct (e_to edge =? k)%string eqn:E.
    + apply String.eqb_eq in E. subst k.
      rewrite get_set_same, Ht, H, Ht. reflexivity.
    + apply String.eqb_neq in E.
      rewrite get_set_other by congruence. apply H.
Qed.

Lemma set_middle {A : Type} (pre suf : JsMap.t A) (k : string) (v w : A) :
  ~ In k (JsMap.keys pre) ->
  JsMap.set (pre ++ (k, v) :: suf) k w = pre ++ (k, w) :: suf.
Proof.
  induction pre as [ | [k' v'] pre IH]; simpl; intro H.
  - rewrite String.eqb_refl. reflexivity.
  - destruct (k =? k')%string eqn:E.
    + apply String.eqb_eq in E. subst. tauto.
    + rewrite IH by tauto. reflexivity.
Qed.

(** A loop that rewrites every entry of a map in place rewrites the map
    entry by entry. *)
Lemma fold_set_in_place {A : Type} (g : string * A -> A) (m : JsMap.t A) :
  NoDup (JsMap.keys m) ->
  fold_left (fun acc e => JsMap.set acc (fst e) (g e)) m m =
  map (fun e => (fst e, g e)) m.
Proof.
  intro N.
  assert (G : forall suf pre,
            NoDup (JsMap.keys (pre ++ suf)) ->
            fold_left (fun acc e => JsMap.set acc (fst e) (g e)) suf
              (map (fun e => (fst e, g e)) pre ++ suf) =
            map (fun e => (fst e, g e)) (pre ++ suf)).
  { induction suf as [ | [k v] suf IH]; simpl; intros pre H.
    - rewrite !app_nil_r. reflexivity.
    - rewrite set_middle.
      + specialize (IH (pre ++ [(k, v)])).
        rewrite map_app, <- !app_assoc in IH. simpl in IH. apply IH. exact H.
      + unfold JsMap.keys in *. rewrite map_map. simpl.
        rewrite map_app in H. simpl in H.
        apply NoDup_remove_2 in H. intro K. apply H.
        apply in_or_app. left. exact K. }
  apply (G m []). exact N.
Qed.

Lemma fold_left_pointwise {A S : Type} (f g : S -> A -> S) (items : list A) :
  (forall s item, f s item = g s item) ->
  forall s, fold_left f items s = fold_left g items s.
Proof.
  intro H. induction items as [ | item rest IH]; simpl; intro s; [ reflexivity | ].
  rewrite H. apply IH.
Qed.

(** The step the engine takes is the synchronous step over the
    accumulated influences. *)
Lemma eulerStep_synchronous (dt damping : float) (baselines : JsMap.t float)
    (edges : list Edge) (values : JsMap.t float) :
  NoDup (JsMap.keys values) ->
  eulerStep dt damping baselines edges values =
  stepWith (influenceOf values edges) dt damping baselines values.
Proof.
  intro N. unfold eulerStep, stepWith.
  set (deltas := fold_left (addInfluence values) edges (zeroDeltas values)).
  rewrite (fold_left_pointwise (advance dt damping baselines deltas)
             (fun acc e =>
                JsMap.set acc (fst e)
                  (nextValueOf dt damping (snd e)
                     (orElse (JsMap.get baselines (fst e)) 5)
                     (orElse (JsMap.get deltas (fst e)) 0))))
    by (intros acc [k x]; reflexivity).
  rewrite (fold_set_in_place
             (fun e => nextValueOf dt damping (snd e)
                         (orElse (JsMap.get baselines (fst e)) 5)
                         (orElse (JsMap.get deltas (fst e)) 0)) values N).
  apply map_ext_in. intros [k x] Hin. simpl. f_equal.
  unfold nextValueOf, clampRange, NORMALIZED_RANGE_min, NORMALIZED_RANGE_max.
  f_equal. f_equal. f_equal. f_equal.
  unfold deltas.
  rewrite (deltas_get values edges (zeroDeltas values) (fun _ => 0)
             (fun k => zeroDeltas_get values k N)).
  assert (Hk : JsMap.has values k = true).
  { apply has_In. apply (in_map fst) in Hin. exact Hin. }
  rewrite Hk. reflexivity.
Qed.




(** ** Edges with an endpoint outside the variable set *)

Lemma fold_left_invariant_In {A S : Type} (Q : S -> Prop) (f : S -> A -> S)
    (items : list A) :
  (forall s item, In item items -> Q s -> Q (f s item)) ->
  forall s, Q s -> Q (fold_left f items s).
Proof.
  induction items as [ | item rest IH]; simpl; intros Hf s Hs; [ assumption | ].
  apply IH; auto.
Qed.

(** A step changes values, never the set of variables. *)
Lemma eulerStep_keys (dt damping : float) (baselines : JsMap.t float)
    (edges : list Edge) (values : JsMap.t float) :
  JsMap.keys (eulerStep dt damping baselines edges values) = JsMap.keys values.
Proof.
  unfold eulerStep.
  apply (fold_left_invariant_In (fun acc => JsMap.keys acc = JsMap.keys values));
    [ | reflexivity ].
  intros acc [k x] Hin Hacc. unfold advance. rewrite keys_set.
  assert (Hk : JsMap.has acc k = true).
  { apply has_In. rewrite Hacc. apply (in_map fst) in Hin. exact Hin. }
  rewrite Hk. exact Hacc.
Qed.

Lemma has_keys {A B : Type} (m : JsMap.t A) (m' : JsMap.t B) (k : string) :
  JsMap.keys m = JsMap.keys m' -> JsMap.has m k = JsMap.has m' k.
Proof.
  intro E. destruct (JsMap.has m' k) eqn:H.
  - apply has_In. rewrite E. now apply has_In.
  - destruct (JsMap.has m k) eqn:H'; [ | reflexivity ].
    apply has_In in H'. rewrite E in H'. apply has_In in H'. congruence.
Qed.

Lemma has_loadVariables (variables : list GVariable) (id : string) :
  JsMap.has (fst (loadVariables variables)) id = true <->
  In id (map v_id variables).
Proof.
  unfold JsMap.has. rewrite loadVariables_values. unfold initialValueOf.
  destruct (findLast _ variables) as [v | ] eqn:F; simpl.
  - split; [ intros _ | reflexivity ].
    assert (K : forall l, findLast (fun v => (id =? v_id v)%string) l = Some v ->
                          In v l /\ v_id v = id).
    { induction l as [ | y rest IH]; simpl; [ discriminate | ].
      destruct (findLast _ rest).
      - intro E. inversion E. subst. destruct (IH eq_refl). auto.
      - destruct (id =? v_id y)%string eqn:Ey; [ | discriminate ].
        intro E. inversion E. subst. apply String.eqb_eq in Ey. auto. }
    destruct (K _ F) as [Hin <-]. now apply in_map.
  - split; [ discriminate | ]. intro H. exfalso.
    apply in_map_iff in H. destruct H as (v & <- & Hin).
    assert (K : forall l, In v l ->
                          findLast (fun w => (v_id v =? v_id w)%string) l <> None).
    { induction l as [ | y rest IH]; simpl; [ tauto | ].
      intros [-> | H].
      - destruct (findLast _ rest); [ discriminate | ].
        rewrite String.eqb_refl. discriminate.
      - specialize (IH H). destruct (findLast _ rest); [ discriminate | tauto ]. }
    exact (K _ Hin F).
Qed.

Lemma addInfluence_skip (values deltas : JsMap.t float) (edge : Edge) :
  JsMap.has values (e_from edge) = false \/ JsMap.has values (e_to edge) = false ->
  addInfluence values deltas edge = deltas.
Proof.
  unfold addInfluence. intros [-> | ->]; simpl; [ reflexivity | ].
  rewrite orb_true_r. reflexivity.
Qed.

Lemma eulerStep_skip (dt damping : float) (baselines : JsMap.t float)
    (before after : list Edge) (edge : Edge) (values : JsMap.t float) :
  JsMap.has values (e_from edge) = false \/ JsMap.has values (e_to edge) = false ->
  eulerStep dt damping baselines (before ++ edge :: after) values =
  eulerStep dt damping baselines (before ++ after) values.
Proof.
  intro H. unfold eulerStep. rewrite !fold_left_app. simpl.
  rewrite (addInfluence_skip _ _ _ H). reflexivity.
Qed.

Lemma eulerLoop_skip (before after : list Edge) (edge : Edge) (remaining : nat) :
  forall (step : Z) (dt damping : float) (baselines values : JsMap.t float)
         (series : list Snapshot),
    JsMap.has values (e_from edge) = false \/ JsMap.has values (e_to edge) = false ->
    eulerLoop remaining step dt damping baselines (before ++ edge :: after)
      values series =
    eulerLoop remaining step dt damping baselines (before ++ after) values series.
Proof.
  induction remaining as [ | n IH]; simpl; intros; [ reflexivity | ].
  rewrite eulerStep_skip by assumption. apply IH.
  pose proof (eulerStep_keys dt damping baselines (before ++ after) values) as K.
  rewrite (has_keys _ values (e_from edge) K), (has_keys _ values (e_to edge) K).
  assumption.
Qed.

Lemma indexOf_In (l : list string) (x : string) :
  indexOf l x <> None <-> In x l.
Proof.
  induction l as [ | y rest IH]; simpl; [ tauto | ].
  destruct (x =? y)%string eqn:E.
  - apply String.eqb_eq in E. subst. split; [ auto | discriminate ].
  - apply String.eqb_neq in E.
    destruct (indexOf rest x) as [i | ].
    + split; [ intros _; right; apply IH; discriminate | discriminate ].
    + split; [ congruence | ]. intros [K | K]; [ congruence | ].
      apply IH in K. congruence.
Qed.

(** The nodes of the traversal are the endpoints of the edges. *)
Lemma addToSet_In (l : list string) :
  forall (acc : list string) (x : string),
    In x (fold_left addToSet l acc) <-> In x l \/ In x acc.
Proof.
  induction l as [ | y rest IH]; simpl; intros acc x; [ tauto | ].
  rewrite IH. unfold addToSet.
  destruct (indexOf acc y) eqn:E.
  - assert (Hy : In y acc) by (apply indexOf_In; congruence).
    split; [ tauto | ]. intros [[<- | H] | H]; auto.
  - rewrite in_app_iff. simpl. tauto.
Qed.

Lemma nodesOf_In (edges : list Edge) (x : string) :
  In x (nodesOf edges) <->
  exists edge, In edge edges /\ (x = e_from edge \/ x = e_to edge).
Proof.
  unfold nodesOf. rewrite addToSet_In, in_flat_map. simpl. split.
  - intros [(edge & Hin & [<- | [<- | []]]) | []]; eauto.
  - intros (edge & Hin & [-> | ->]); left; exists edge; auto.
Qed.

(** The adjacency of a node lists its outgoing edges in their order. *)
Lemma outgoingOf_buildAdjacency (edges : list Edge) (node : string) :
  outgoingOf (buildAdjacency edges) node =
  map (fun edge => (e_to edge, e_weight edge))
    (filter (fun edge => (e_from edge =? node)%string) edges).
Proof.
  unfold buildAdjacency.
  assert (G : forall adjacency,
            outgoingOf
              (fold_left
                 (fun adjacency edge =>
                    let adjacency :=
                      if negb (JsMap.has adjacency (e_from edge))
                      then JsMap.set adjacency (e_from edge) []
                      else adjacency in
                    match JsMap.get adjacency (e_from edge) with
                    | Some out =>
                        JsMap.set adjacency (e_from edge)
                          (out ++ [(e_to edge, e_weight edge)])
                    | None => adjacency
                    end) edges adjacency) node =
            outgoingOf adjacency node ++
            map (fun edge => (e_to edge, e_weight edge))
              (filter (fun edge => (e_from edge =? node)%string) edges)).
  { induction edges as [ | edge rest IH]; simpl; intro adjacency.
    - now rewrite app_nil_r.
    - rewrite IH. clear IH.
      assert (S : forall adj out,
                JsMap.get adj (e_from edge) = Some out ->
                outgoingOf (JsMap.set adj (e_from edge)
                              (out ++ [(e_to edge, e_weight edge)])) node =
                outgoingOf adj node ++
                (if (e_from edge =? node)%string
                 then [(e_to edge, e_weight edge)] else [])).
      { intros adj out Hout. unfold outgoingOf.
        destruct (e_from edge =? node)%string eqn:E.
        - apply String.eqb_eq in E. subst node.
          rewrite get_set_same, Hout. reflexivity.
        - apply String.eqb_neq in E.
          rewrite get_set_other by congruence. now rewrite app_nil_r. }
      unfold JsMap.has.
      destruct (JsMap.get adjacency (e_from edge)) as [out | ] eqn:Hget; simpl.
      + rewrite Hget, (S _ _ Hget), <- app_assoc. f_equal.
        destruct (e_from edge =? node)%string; reflexivity.
      + rewrite get_set_same, (S _ [] (get_set_same _ _ _)), <- app_assoc.
        replace (outgoingOf (JsMap.set adjacency (e_from edge) []) node)
          with (outgoingOf adjacency node).
        * f_equal. destruct (e_from edge =? node)%string; reflexivity.
        * unfold outgoingOf.
          destruct (String.eqb_spec (e_from edge) node) as [<- | Hne].
          -- rewrite get_set_same, Hget. reflexivity.
          -- rewrite get_set_other by congruence. reflexivity. }
  apply (G []).
Qed.

(** ** Anchoring *)

Section Anchoring.

Variable NumberOfText : jsval -> float.

Lemma factorNumber_Number (v : jsval) :
  Number NumberOfText v = factorNumber NumberOfText v.
Proof. destruct v as [ | | [ | ] | | | | ]; reflexivity. Qed.

Lemma anchorValuesOf_finite (initialState : jsval) (factors : list string) :
  anchorValuesOf NumberOfText initialState factors =
  finiteFactorValues NumberOfText initialState factors.
Proof.
  unfold anchorValuesOf, finiteFactorValues.
  induction factors as [ | f rest IH]; simpl; [ reflexivity | ].
  rewrite IH. unfold toNumber, Js.isFinite. rewrite factorNumber_Number.
  destruct (is_finite (factorNumber NumberOfText (Js.field initialState f)))
    eqn:E.
  - rewrite E. reflexivity.
  - reflexivity.
Qed.

Lemma anchorVariable_spec (initialState : jsval) (v v' : GVariable) :
  anchorVariable NumberOfText initialState v = Ok v' ->
  anchoredBy NumberOfText initialState v v' /\ v_id v' = v_id v.
Proof.
  unfold anchorVariable, anchoredBy.
  destruct (VARIABLE_FACTORS (v_id v)) as [factors | [ | n] | | ];
    try (intro E; inversion E; subst; split; reflexivity); try discriminate.
  rewrite <- anchorValuesOf_finite.
  destruct factors as [ | f fs].
  - intro E. inversion E. subst. split; reflexivity.
  - destruct (anchorValuesOf NumberOfText initialState (f :: fs));
      intro E; inversion E; subst; split; reflexivity.
Qed.

Lemma applyInitialStateAnchors_Forall2 (variables : list GVariable)
    (initialState : jsval) (anchored : list GVariable) :
  Js.truthy initialState = true ->
  Js.typeof_object initialState = true ->
  applyInitialStateAnchors NumberOfText variables initialState = Ok anchored ->
  Forall2 (fun v v' => anchoredBy NumberOfText initialState v v'
                       /\ v_id v' = v_id v) variables anchored.
Proof.
  intros Ht Ho. unfold applyInitialStateAnchors. rewrite Ht, Ho. simpl.
  assert (G : forall vs acc acc',
              forEach vs (fun mapped variable =>
                anchored <- anchorVariable NumberOfText initialState variable ;;
                Ok (mapped ++ [anchored])) acc = Ok acc' ->
              exists l, acc' = acc ++ l /\
                Forall2 (fun v v' => anchoredBy NumberOfText initialState v v'
                                     /\ v_id v' = v_id v) vs l).
  { induction vs as [ | v vs IH]; simpl; intros acc acc' H.
    - inversion H. subst. exists []. split; [ now rewrite app_nil_r | constructor ].
    - apply bind_Ok in H. destruct H as (s1 & H1 & H2).
      apply bind_Ok in H1. destruct H1 as (a & Ha & H1). inversion H1. subst.
      destruct (IH _ _ H2) as (l & -> & Hl).
      exists (a :: l). split; [ now rewrite <- app_assoc | ].
      constructor; [ now apply anchorVariable_spec | assumption ]. }
  intro H. destruct (G _ _ _ H) as (l & -> & Hl). exact Hl.
Qed.

End Anchoring.

(** The first snapshot of a simulation is taken from the loaded values. *)
Lemma runEulerSimulation_first (variables : list GVariable) (edges : list Edge)
    (opts : jsval) (simulation : Simulation) :
  runEulerSimulation variables edges opts = Ok simulation ->
  exists rest,
    timeSeries simulation =
      captureSnapshot 0%Z (fst (loadVariables variables)) :: rest.
Proof.
  intro H. apply runEulerSimulation_Ok in H. destruct H as [_ ->].
  match goal with
  | |- context [eulerLoop ?n ?s ?dt ?d ?b ?e ?v ?ser] =>
      destruct (eulerLoop_series n s dt d b e v ser) as (rest & Hr & _)
  end.
  exists rest. exact Hr.
Qed.

(** When every variable carrying [id] holds the same settled numbers, the
    maps the integrator starts from, and snapshot 0, hold them for [id]. *)
Lemma loaded_uniform (variables : list GVariable) (id : string) (x b : float) :
  In id (map v_id variables) ->
  (forall v, In v variables -> v_id v = id -> v_value v = x /\ v_baseline v = b) ->
  settled x -> settled b ->
  JsMap.get (fst (loadVariables variables)) id = Some x /\
  JsMap.get (snd (loadVariables variables)) id = Some b.
Proof.
  intros Hin Hall Sx Sb.
  rewrite loadVariables_values, loadVariables_baselines.
  unfold initialValueOf, initialBaselineOf.
  destruct (findLast (fun v => (id =? v_id v)%string) variables) as [v | ] eqn:F.
  - assert (K : In v variables /\ v_id v = id).
    { clear Hall Hin. revert F.
      induction variables as [ | y rest IH]; simpl; [ discriminate | ].
      destruct (findLast _ rest).
      - intro E. inversion E. subst. destruct (IH eq_refl). auto.
      - destruct (id =? v_id y)%string eqn:Ey; [ | discriminate ].
        intro E. inversion E. subst. apply String.eqb_eq in Ey. auto. }
    destruct K as [Kin Kid]. destruct (Hall v Kin Kid) as [Hx Hb].
    simpl. rewrite Hx, Hb. unfold settled in Sx, Sb. rewrite Sx, Sb.
    split; reflexivity.
  - exfalso. apply has_loadVariables in Hin.
    unfold JsMap.has in Hin. rewrite loadVariables_values in Hin.
    unfold initialValueOf in Hin. rewrite F in Hin. discriminate.
Qed.

Lemma Forall2_left {A B : Type} (R : A -> B -> Prop) (l : list A) (l' : list B)
    (x : A) :
  Forall2 R l l' -> In x l -> exists y, In y l' /\ R x y.
Proof.
  induction 1 as [ | a b l l' Hab H IH]; simpl; [ tauto | ].
  intros [-> | Hin]; [ eauto | ].
  destruct (IH Hin) as (y & Hy & Hr). eauto.
Qed.

Lemma Forall2_right {A B : Type} (R : A -> B -> Prop) (l : list A) (l' : list B)
    (y : B) :
  Forall2 R l l' -> In y l' -> exists x, In x l /\ R x y.
Proof.
  induction 1 as [ | a b l l' Hab H IH]; simpl; [ tauto | ].
  intros [-> | Hin]; [ eauto | ].
  destruct (IH Hin) as (x & Hx & Hr). eauto.
Qed.

(** ** The traversal *)

Lemma walk_length (edges : list Edge) (nodes : list string) (weights : list float) :
  walk edges nodes weights -> List.length nodes = S (List.length weights).
Proof. induction 1; simpl in *; lia. Qed.

Lemma walk_snoc (edges : list Edge) (path : list string) (a b : string)
    (w : float) (weights : list float) :
  walk edges (path ++ [a]) weights ->
  In (mkEdge a b w) edges ->
  walk edges ((path ++ [a]) ++ [b]) (weights ++ [w]).
Proof.
  revert weights. induction path as [ | p path IH]; simpl; intros weights H Hin.
  - inversion H. subst. simpl. constructor; [ assumption | constructor ].
  - inversion H as [ n E | n m rest w' ws Hedge Hrest [E1 E2] E3 ].
    + destruct path; discriminate.
    + subst. simpl. rewrite <- E2 in *.
      destruct path as [ | q path]; simpl in *.
      * inversion E2. subst. constructor; [ assumption | ].
        apply (IH ws Hrest Hin).
      * inversion E2. subst. constructor; [ assumption | ].
        apply (IH ws Hrest Hin).
Qed.

Lemma walk_skipn (edges : list Edge) (nodes : list string) (weights : list float)
    (i : nat) :
  walk edges nodes weights ->
  (i < List.length nodes)%nat ->
  walk edges (skipn i nodes) (skipn i weights).
Proof.
  intro H. revert i. induction H as [ n | n m rest w ws Hin H IH ]; intros i Hi.
  - simpl in Hi. assert (i = 0%nat) by lia. subst. constructor.
  - destruct i as [ | i]; [ constructor; assumption | ].
    simpl. apply IH. simpl in *. lia.
Qed.

Lemma indexOf_Some (l : list string) (x : string) (i : nat) :
  indexOf l x = Some i ->
  (i < List.length l)%nat /\ firstn 1 (skipn i l) = [x].
Proof.
  revert i. induction l as [ | y rest IH]; simpl; intro i; [ discriminate | ].
  destruct (x =? y)%string eqn:E.
  - apply String.eqb_eq in E. subst. intro H. inversion H. subst.
    split; [ lia | reflexivity ].
  - destruct (indexOf rest x) as [j | ]; [ | discriminate ].
    intro H. inversion H. subst. destruct (IH j eq_refl) as [Hj Hf].
    split; [ lia | exact Hf ].
Qed.

Lemma Forall_set {A : Type} (Q : string * A -> Prop) (m : JsMap.t A)
    (k : string) (v : A) :
  Q (k, v) -> Forall Q m -> Forall Q (JsMap.set m k v).
Proof.
  intro Hv. induction 1 as [ | [k' v'] m Hx Hm IH]; simpl.
  - constructor; [ assumption | constructor ].
  - destruct (k =? k')%string eqn:E.
    + apply String.eqb_eq in E. subst. constructor; assumption.
    + constructor; assumption.
Qed.

Lemma NoDup_skipn {A : Type} (l : list A) (i : nat) : NoDup l -> NoDup (skipn i l).
Proof.
  revert i. induction l as [ | x l IH]; intros [ | i] H; simpl; auto.
  inversion H. auto.
Qed.

Lemma visitEdge_step (visitNext : string -> Dfs -> option Dfs) (maxAbs : float)
    (st : Dfs) (to : string) (w : float) :
  visitEdge visitNext maxAbs (Some st) (to, w) =
  let st1 := mkDfs (stack st) (edgeStack st ++ [w]) (seen st) in
  match
    match indexOf (stack st1) to with
    | Some idx =>
        if (1 <=? List.length (stack st1) - idx)%nat
        then Some (closeCycle maxAbs to idx st1)
        else Some st1
    | None => visitNext to st1
    end
  with
  | None => None
  | Some st2 => Some (mkDfs (stack st2) (removelast (edgeStack st2)) (seen st2))
  end.
Proof. reflexivity. Qed.

Lemma detectCycles_nonempty (edges : list Edge) :
  edges <> [] ->
  detectCycles edges =
  match fold_left
          (visitRoot (List.length (nodesOf edges)) (buildAdjacency edges)
             (maxAbsOf edges))
          (nodesOf edges) (Some []) with
  | Some found => Some (JsMap.values found)
  | None => None
  end.
Proof. destruct edges; [ contradiction | reflexivity ]. Qed.

Lemma empty_or_not {A : Type} (l : list A) : l = [] \/ l <> [].
Proof. destruct l; [ left; reflexivity | right; discriminate ]. Qed.

Section Traversal.

Variable edges : list Edge.

Let adjacency := buildAdjacency edges.
Let nodes := nodesOf edges.
Let maxAbs := maxAbsOf edges.

Lemma outgoing_edge (current to : string) (w : float) :
  In (to, w) (outgoingOf adjacency current) -> In (mkEdge current to w) edges.
Proof.
  unfold adjacency. rewrite outgoingOf_buildAdjacency.
  rewrite in_map_iff. intros ([f t x] & E & Hin).
  apply filter_In in Hin. destruct Hin as [Hin Hf]. simpl in *.
  apply String.eqb_eq in Hf. inversion E. subst. exact Hin.
Qed.

Local Abbreviation seen_ok := (seen_ok edges).

Lemma closeCycle_ok (to : string) (idx : nat) (st : Dfs) :
  indexOf (stack st) to = Some idx ->
  NoDup (stack st) ->
  walk edges (stack st ++ [to]) (edgeStack st) ->
  seen_ok (seen st) ->
  let st' := closeCycle maxAbs to idx st in
  stack st' = stack st /\ edgeStack st' = edgeStack st /\ seen_ok (seen st').
Proof.
  intros Hidx Hnd Hw [Hs Hk]. unfold closeCycle.
  destruct (canonicalizeCycle (skipn idx (stack st) ++ [to])) as [key | ] eqn:Ck;
    [ | repeat split; assumption ].
  destruct (negb (key =? "")%string && negb (JsMap.has (seen st) key));
    [ | repeat split; assumption ].
  simpl. split; [ reflexivity | ]. split; [ reflexivity | ].
  destruct (indexOf_Some _ _ _ Hidx) as [Hlt Hfirst].
  split; [ | now apply NoDup_set ].
  apply Forall_set; [ | assumption ].
  unfold entry_ok, keyOf, recordOf, closedWalk.
  cbn [c_nodes c_type c_dominance c_weights].
  rewrite removelast_last, Hfirst.
  split; [ exact Ck | ]. split; [ reflexivity | ]. split; [ reflexivity | ].
  split; [ | split ].
  - replace (skipn idx (stack st) ++ [to])
      with (skipn idx (stack st ++ [to])).
    + apply walk_skipn; [ assumption | ]. rewrite length_app. simpl. lia.
    + rewrite skipn_app.
      replace (idx - List.length (stack st))%nat with 0%nat by lia.
      reflexivity.
  - now apply NoDup_skipn.
  - intro E. rewrite E in Hfirst. discriminate.
Qed.

(** The loop over the outgoing edges of the node on top of the path,
    given that the recursive calls behave. *)
Lemma visitEdges_ok (visitNext : string -> Dfs -> option Dfs)
    (path : list string) (current : string) (weights : list float) :
  NoDup (path ++ [current]) ->
  walk edges (path ++ [current]) weights ->
  (forall to st,
     stack st = path ++ [current] ->
     ~ In to (path ++ [current]) ->
     In to nodes ->
     walk edges ((path ++ [current]) ++ [to]) (edgeStack st) ->
     seen_ok (seen st) ->
     exists st',
       visitNext to st = Some st' /\ stack st' = stack st /\
       edgeStack st' = edgeStack st /\ seen_ok (seen st')) ->
  forall (outgoing : list (string * float)) (st : Dfs),
    (forall to w, In (to, w) outgoing -> In (mkEdge current to w) edges) ->
    stack st = path ++ [current] ->
    edgeStack st = weights ->
    seen_ok (seen st) ->
    exists st',
      fold_left (visitEdge visitNext maxAbs) outgoing (Some st) = Some st' /\
      stack st' = path ++ [current] /\
      edgeStack st' = weights /\
      seen_ok (seen st').
Proof.
  intros Hnd Hw Hnext.
  induction outgoing as [ | [to w] rest IH]; intros st Hout Hst Hes Hseen.
  - exists st. simpl. auto.
  - cbn [fold_left]. rewrite visitEdge_step. cbv zeta.
    assert (Hedge : In (mkEdge current to w) edges)
      by (apply Hout; left; reflexivity).
    assert (Hw' : walk edges ((path ++ [current]) ++ [to]) (weights ++ [w])).
    { now apply walk_snoc. }
    set (st1 := mkDfs (stack st) (edgeStack st ++ [w]) (seen st)) in *.
    assert (K : exists st2,
              match indexOf (stack st1) to with
              | Some idx =>
                  if (1 <=? List.length (stack st1) - idx)%nat
                  then Some (closeCycle maxAbs to idx st1)
                  else Some st1
              | None => visitNext to st1
              end = Some st2 /\
              stack st2 = path ++ [current] /\
              edgeStack st2 = weights ++ [w] /\
              seen_ok (seen st2)).
    { destruct (indexOf (stack st1) to) as [idx | ] eqn:Hidx.
      - destruct (1 <=? List.length (stack st1) - idx)%nat.
        + eexists. split; [ reflexivity | ].
          destruct (closeCycle_ok to idx st1 Hidx) as (Hs1 & He1 & Hk1);
            simpl; try assumption.
          * rewrite Hst. assumption.
          * rewrite Hst, Hes. assumption.
          * rewrite Hs1, He1. simpl. rewrite Hst, Hes. auto.
        + exists st1. simpl. rewrite Hst, Hes. auto.
      - destruct (Hnext to st1) as (st2 & Hv & Hs2 & He2 & Hk2);
          simpl; try assumption.
        + intro Hin. apply indexOf_In in Hin. simpl in Hidx.
          rewrite Hst in Hidx. congruence.
        + apply nodesOf_In. exists (mkEdge current to w). simpl. auto.
        + rewrite Hes. assumption.
        + exists st2. simpl in *. rewrite Hs2, He2, Hst, Hes. auto. }
    destruct K as (st2 & -> & Hs2 & He2 & Hk2).
    apply IH; simpl.
    + intros to' w' Hin. apply Hout. right. exact Hin.
    + assumption.
    + rewrite He2. apply removelast_last.
    + assumption.
Qed.

(** A traversal from a node that is not on the path returns, with both
    stacks as it found them and the recorded cycles in order.  The fuel
    is enough whenever it covers the nodes that are not on the path. *)
Lemma visit_ok (fuel : nat) :
  forall (current : string) (st : Dfs),
    NoDup (stack st ++ [current]) ->
    incl (stack st ++ [current]) nodes ->
    (List.length nodes <= fuel + List.length (stack st))%nat ->
    walk edges (stack st ++ [current]) (edgeStack st) ->
    seen_ok (seen st) ->
    exists st',
      visit fuel adjacency maxAbs current st = Some st' /\
      stack st' = stack st /\
      edgeStack st' = edgeStack st /\
      seen_ok (seen st').
Proof.
  induction fuel as [ | fuel IH]; intros current st Hnd Hincl Hfuel Hw Hseen.
  - exfalso. apply NoDup_incl_length in Hincl; [ | assumption ].
    rewrite length_app in Hincl. simpl in *. lia.
  - simpl.
    destruct (visitEdges_ok (visit fuel adjacency maxAbs) (stack st) current
                (edgeStack st) Hnd Hw) with
      (outgoing := outgoingOf adjacency current)
      (st := mkDfs (stack st ++ [current]) (edgeStack st) (seen st))
      as (st' & Hf & Hs' & He' & Hk'); simpl; try reflexivity; try assumption.
    + intros to st1 Hst1 Hnin Hto Hw1 Hseen1.
      apply IH; rewrite ?Hst1; try assumption.
      * apply NoDup_app; [ assumption | constructor; [ simpl; tauto | constructor ] | ].
        intros x Hx [<- | []]. contradiction.
      * intros x Hx. apply in_app_or in Hx.
        destruct Hx as [Hx | [<- | []]]; [ now apply Hincl | assumption ].
      * rewrite length_app. simpl. lia.
    + intros to w Hin. now apply outgoing_edge.
    + rewrite Hf. eexists. split; [ reflexivity | ]. simpl.
      rewrite Hs', removelast_last. auto.
Qed.

(** The detector returns, and every record it returns is in order. *)
Lemma detectCycles_ok :
  exists found,
    detectCycles edges = Some (JsMap.values found) /\ seen_ok found.
Proof.
  destruct (empty_or_not edges) as [E | E].
  { exists []. rewrite E. split; [ reflexivity | split; constructor ]. }
  rewrite (detectCycles_nonempty edges E).
  assert (G : forall roots found,
            incl roots nodes -> seen_ok found ->
            exists found',
              fold_left (visitRoot (List.length nodes) adjacency maxAbs)
                roots (Some found) = Some found' /\ seen_ok found').
  { induction roots as [ | root roots IH]; simpl; intros found Hincl Hseen.
    - eauto.
    - destruct (visit_ok (List.length nodes) root (mkDfs [] [] found))
        as (st' & Hv & _ & _ & Hk); simpl; try assumption.
      + constructor; [ simpl; tauto | constructor ].
      + intros x [<- | []]. apply Hincl. left. reflexivity.
      + lia.
      + constructor.
      + rewrite Hv. apply IH; [ | assumption ].
        intros x Hx. apply Hincl. right. exact Hx. }
  destruct (G nodes []) as (found & Hf & Hk).
  - apply incl_refl.
  - split; constructor.
  - exists found. split; [ | exact Hk ].
    exact (f_equal (fun o : option (JsMap.t CycleRecord) =>
                      match o with
                      | Some f => Some (JsMap.values f)
                      | None => None
                      end) Hf).
Qed.

End Traversal.

(** ** Further facts on binary64 numbers *)

Module FloatArith.

Lemma SFmul_comm (prec emax : Z) (a b : spec_float) :
  SFmul prec emax a b = SFmul prec emax b a.
Proof.
  destruct a as [sa | sa | | sa ma ea], b as [sb | sb | | sb mb eb]; simpl;
    try reflexivity; rewrite ?(xorb_comm sa sb); try reflexivity.
  rewrite (Pos.mul_comm ma mb), (Z.add_comm ea eb). reflexivity.
Qed.

(** Multiplication of two numbers does not depend on their order. *)
Lemma mul_comm (x y : float) : x * y = y * x.
Proof.
  apply Prim2SF_inj. rewrite !mul_spec. apply SFmul_comm.
Qed.

Lemma is_nan_SF (x : float) : is_nan x = true <-> Prim2SF x = S754_nan.
Proof.
  unfold is_nan. rewrite negb_true_iff, eqb_spec. unfold SFeqb. split.
  - intro H. destruct (Prim2SF x) as [ | | | s m e] eqn:E; try reflexivity;
      rewrite FloatFacts.SFcompare_self in H by discriminate; discriminate.
  - intros ->. reflexivity.
Qed.

Lemma not_nan_SF (x : float) : is_nan x = false <-> Prim2SF x <> S754_nan.
Proof.
  rewrite <- is_nan_SF. destruct (is_nan x); split; congruence.
Qed.

Lemma is_finite_not_nan (x : float) : is_finite x = true -> is_nan x = false.
Proof.
  unfold is_finite. rewrite negb_true_iff, orb_false_iff. tauto.
Qed.

Lemma abs_not_nan (x : float) : is_nan x = false -> is_nan (abs x) = false.
Proof.
  rewrite !not_nan_SF, abs_spec. destruct (Prim2SF x); simpl; congruence.
Qed.

Lemma abs_nonneg (x : float) : is_nan x = false -> (0 <=? abs x) = true.
Proof.
  rewrite not_nan_SF, leb_spec, abs_spec. change (Prim2SF 0) with (S754_zero false).
  destruct (Prim2SF x); intro H; try reflexivity. contradiction.
Qed.

Lemma is_zero_SF (x : float) :
  is_zero x = true <-> exists s, Prim2SF x = S754_zero s.
Proof.
  unfold is_zero. rewrite eqb_spec. change (Prim2SF zero) with (S754_zero false).
  unfold SFeqb. destruct (Prim2SF x) as [s | s | | s m e]; simpl; split;
    try (intro H; discriminate H); try (intros [t H]; discriminate H);
    eauto; try (destruct s; intro H; discriminate H).
Qed.

(** A number between zero and a zero is a zero. *)
Lemma sandwich_zero (a z : float) :
  (0 <=? a) = true -> (a <=? z) = true -> is_zero z = true -> is_zero a = true.
Proof.
  rewrite !leb_spec, !is_zero_SF. change (Prim2SF 0) with (S754_zero false).
  intros H0 Hz [t Ht]. rewrite Ht in Hz. unfold SFleb in *.
  destruct (Prim2SF a) as [s | [] | | [] m e]; simpl in *; eauto;
    discriminate.
Qed.

Lemma abs_of_zero (x : float) : is_zero x = true -> abs x = 0.
Proof.
  intro H. apply FloatFacts.is_zero_cases in H. destruct H as [-> | ->]; reflexivity.
Qed.

Lemma is_zero_abs (x : float) : is_zero (abs x) = true -> is_zero x = true.
Proof.
  rewrite !is_zero_SF, abs_spec. intros [s H].
  destruct (Prim2SF x); simpl in H; try discriminate. eauto.
Qed.

(** Zero divided by anything is a zero or [NaN]. *)
Lemma zero_div (y : float) : 0 / y = 0 \/ 0 / y = neg_zero \/ 0 / y = nan.
Proof.
  assert (K : Prim2SF (0 / y) = S754_zero false \/
              Prim2SF (0 / y) = S754_zero true \/
              Prim2SF (0 / y) = S754_nan).
  { rewrite div_spec. change (Prim2SF 0) with (S754_zero false).
    destruct (Prim2SF y) as [[] | [] | | [] m e]; simpl; auto. }
  destruct K as [K | [K | K]]; [ left | right; left | right; right ];
    apply Prim2SF_inj; rewrite K; reflexivity.
Qed.

End FloatArith.

Import FloatArith.

(** ** The order of numbers is an order *)

Module FloatOrder.

Lemma SFleb_place (a b : spec_float) :
  a <> S754_nan -> b <> S754_nan ->
  (SFleb a b = true <-> placeLe (placeOf a) (placeOf b)).
Proof.
  intros Ha Hb. unfold SFleb.
  destruct a as [sa | sa | | sa ma ea]; try (now elim Ha);
    destruct b as [sb | sb | | sb mb eb]; try (now elim Hb);
    try destruct sa; try destruct sb; cbn [SFcompare placeOf placeLe];
    try (split; [ intros _; lia | reflexivity ]);
    try (split; [ discriminate | intro; exfalso; lia ]).
  - change (Pos.compare_cont Eq ma mb) with (Pos.compare ma mb).
    destruct (Z.compare_spec ea eb) as [E | E | E].
    + destruct (Pos.compare_spec ma mb) as [M | M | M]; simpl;
        (split; [ try discriminate; intros _ | try reflexivity; intro ]); lia.
    + split; [ discriminate | intro; exfalso; lia ].
    + split; [ intros _; lia | reflexivity ].
  - change (Pos.compare_cont Eq ma mb) with (Pos.compare ma mb).
    destruct (Z.compare_spec ea eb) as [E | E | E].
    + destruct (Pos.compare_spec ma mb) as [M | M | M]; simpl;
        (split; [ try discriminate; intros _ | try reflexivity; intro ]); lia.
    + split; [ intros _; lia | reflexivity ].
    + split; [ discriminate | intro; exfalso; lia ].
Qed.

Lemma SFltb_place (a b : spec_float) :
  a <> S754_nan -> b <> S754_nan ->
  (SFltb a b = true <-> placeLt (placeOf a) (placeOf b)).
Proof.
  intros Ha Hb. unfold SFltb.
  destruct a as [sa | sa | | sa ma ea]; try (now elim Ha);
    destruct b as [sb | sb | | sb mb eb]; try (now elim Hb);
    try destruct sa; try destruct sb; cbn [SFcompare placeOf placeLt];
    try (split; [ intros _; lia | reflexivity ]);
    try (split; [ discriminate | intro; exfalso; lia ]).
  - change (Pos.compare_cont Eq ma mb) with (Pos.compare ma mb).
    destruct (Z.compare_spec ea eb) as [E | E | E].
    + destruct (Pos.compare_spec ma mb) as [M | M | M]; simpl;
        (split; [ try discriminate; intros _ | try reflexivity; intro ]); lia.
    + split; [ discriminate | intro; exfalso; lia ].
    + split; [ intros _; lia | reflexivity ].
  - change (Pos.compare_cont Eq ma mb) with (Pos.compare ma mb).
    destruct (Z.compare_spec ea eb) as [E | E | E].
    + destruct (Pos.compare_spec ma mb) as [M | M | M]; simpl;
        (split; [ try discriminate; intros _ | try reflexivity; intro ]); lia.
    + split; [ intros _; lia | reflexivity ].
    + split; [ discriminate | intro; exfalso; lia ].
Qed.

Lemma not_nan (x : float) : is_nan x = false -> Prim2SF x <> S754_nan.
Proof. apply FloatArith.not_nan_SF. Qed.

Lemma leb_place (x y : float) :
  (x <=? y) = true <->
  is_nan x = false /\ is_nan y = false /\
  placeLe (placeOf (Prim2SF x)) (placeOf (Prim2SF y)).
Proof.
  split.
  - intro H. destruct (leb_not_nan _ _ H) as [Hx Hy].
    split; [ exact Hx | ]. split; [ exact Hy | ].
    rewrite leb_spec in H. now apply SFleb_place; try apply not_nan.
  - intros (Hx & Hy & H). rewrite leb_spec.
    now apply SFleb_place; try apply not_nan.
Qed.

Lemma ltb_place (x y : float) :
  (x <? y) = true <->
  is_nan x = false /\ is_nan y = false /\
  placeLt (placeOf (Prim2SF x)) (placeOf (Prim2SF y)).
Proof.
  split.
  - intro H. destruct (ltb_not_nan _ _ H) as [Hx Hy].
    split; [ exact Hx | ]. split; [ exact Hy | ].
    rewrite ltb_spec in H. now apply SFltb_place; try apply not_nan.
  - intros (Hx & Hy & H). rewrite ltb_spec.
    now apply SFltb_place; try apply not_nan.
Qed.

Ltac places :=
  repeat match goal with
         | H : (_ <=? _) = true |- _ => apply leb_place in H; destruct H as (? & ? & H)
         | H : (_ <? _) = true |- _ => apply ltb_place in H; destruct H as (? & ? & H)
         end;
  repeat match goal with
         | |- (_ <=? _) = true => apply leb_place; split; [ assumption | split; [ assumption | ] ]
         | |- (_ <? _) = true => apply ltb_place; split; [ assumption | split; [ assumption | ] ]
         end;
  unfold placeLe, placeLt in *;
  repeat match goal with
         | |- context [placeOf ?a] => destruct (placeOf a) as [[? ?] ?]
         | H : context [placeOf ?a] |- _ => destruct (placeOf a) as [[? ?] ?]
         end;
  lia.

Lemma leb_trans (x y z : float) :
  (x <=? y) = true -> (y <=? z) = true -> (x <=? z) = true.
Proof. intros H1 H2. places. Qed.

Lemma ltb_leb_trans (x y z : float) :
  (x <? y) = true -> (y <=? z) = true -> (x <? z) = true.
Proof. intros H1 H2. places. Qed.

Lemma leb_ltb_trans (x y z : float) :
  (x <=? y) = true -> (y <? z) = true -> (x <? z) = true.
Proof. intros H1 H2. places. Qed.

(** Of two numbers, one is at most the other. *)
Lemma leb_total (x y : float) :
  is_nan x = false -> is_nan y = false ->
  (x <=? y) = true \/ (y <? x) = true.
Proof.
  intros Hx Hy.
  assert (K : placeLe (placeOf (Prim2SF x)) (placeOf (Prim2SF y)) \/
              placeLt (placeOf (Prim2SF y)) (placeOf (Prim2SF x))).
  { unfold placeLe, placeLt.
    destruct (placeOf (Prim2SF x)) as [[? ?] ?].
    destruct (placeOf (Prim2SF y)) as [[? ?] ?]. lia. }
  destruct K as [K | K]; [ left; apply leb_place | right; apply ltb_place ];
    auto.
Qed.

End FloatOrder.

(** ** Dominance *)

Lemma maxAbs_fold (l : list Edge) :
  forall acc : float,
    is_nan acc = false ->
    (0 <=? acc) = true ->
    Forall (fun e => is_nan (e_weight e) = false) l ->
    let m := fold_left
               (fun acc edge => Js.Math_max acc (Js.Math_abs (e_weight edge)))
               l acc in
    is_nan m = false /\
    (is_zero m = true ->
     is_zero acc = true /\ Forall (fun e => is_zero (e_weight e) = true) l).
Proof.
  induction l as [ | e l IH]; simpl; intros acc Hn H0 Hl.
  - split; [ assumption | ]. intro Hz. split; [ assumption | constructor ].
  - inversion Hl as [ | ? ? He Hl']. subst.
    pose proof (abs_not_nan _ He) as Ha.
    pose proof (abs_nonneg _ He) as Ha0.
    unfold Js.Math_abs in *.
    destruct (Math_max_cases acc (abs (e_weight e)) Hn Ha) as [[E Hle] | [E Hle]];
      rewrite E.
    + destruct (IH acc Hn H0 Hl') as [Hm Hz]. split; [ exact Hm | ].
      intro Z. destruct (Hz Z) as [Zacc Zl]. split; [ exact Zacc | ].
      constructor; [ | exact Zl ].
      apply is_zero_abs. exact (sandwich_zero _ _ Ha0 Hle Zacc).
    + destruct (IH (abs (e_weight e)) Ha Ha0 Hl') as [Hm Hz]. split; [ exact Hm | ].
      intro Z. destruct (Hz Z) as [Za Zl]. split.
      * exact (sandwich_zero _ _ H0 Hle Za).
      * constructor; [ now apply is_zero_abs | exact Zl ].
Qed.

(** With no [NaN] weight, the strongest edge is a number, and it is zero
    only when every weight is. *)
Lemma maxAbsAll_zero (edges : list Edge) :
  Forall (fun e => is_nan (e_weight e) = false) edges ->
  is_nan (maxAbsAll edges) = false /\
  (is_zero (maxAbsAll edges) = true ->
   Forall (fun e => is_zero (e_weight e) = true) edges).
Proof.
  intro H. destruct (maxAbs_fold edges 0 eq_refl eq_refl H) as [Hn Hz].
  split; [ exact Hn | ]. intro Z. apply Hz. exact Z.
Qed.

Lemma walk_weights (edges : list Edge) (nodes : list string) (weights : list float) :
  walk edges nodes weights ->
  Forall (fun w => exists e, In e edges /\ e_weight e = w) weights.
Proof.
  induction 1 as [ | n m rest w ws Hin H IH]; constructor; [ | assumption ].
  exists (mkEdge n m w). auto.
Qed.

Lemma sum_abs_zero (weights : list float) :
  Forall (fun w => is_zero w = true) weights ->
  fold_left (fun sum weight => sum + Js.Math_abs weight) weights 0 = 0.
Proof.
  induction 1 as [ | w ws Hw H IH]; simpl; [ reflexivity | ].
  unfold Js.Math_abs. rewrite (abs_of_zero w Hw).
  change (0 + 0) with 0. exact IH.
Qed.

Section FiniteWeights.

Variable NumberOfText : jsval -> float.

Let finite (e : Edge) : Prop := is_finite (e_weight e) = true.

Lemma toNumber_finite (v : jsval) (fallback : float) :
  is_finite fallback = true ->
  is_finite (toNumber NumberOfText v fallback) = true.
Proof.
  intro H. unfold toNumber, Js.isFinite.
  destruct (is_finite (Number NumberOfText v)) eqn:E; assumption.
Qed.

Lemma readWeight_finite (edge : jsval) :
  is_finite (readWeight NumberOfText edge) = true.
Proof. apply toNumber_finite. reflexivity. Qed.

Lemma snoc_finite (normalized : list Edge) (f t : string) (w : float) :
  Forall finite normalized -> is_finite w = true ->
  Forall finite (normalized ++ [mkEdge f t w]).
Proof.
  intros H Hw. apply Forall_app. split; [ assumption | ].
  constructor; [ exact Hw | constructor ].
Qed.

Lemma pushEdge_finite (normalized : list Edge) (edge : jsval)
    (normalized' : list Edge) :
  Forall finite normalized ->
  pushEdge NumberOfText normalized edge = Ok normalized' ->
  Forall finite normalized'.
Proof.
  intro H. unfold pushEdge.
  destruct (negb (Js.truthy edge)); [ intro E; inversion E; subst; assumption | ].
  destruct (negb (Js.truthy _) || negb (Js.truthy _));
    [ intro E; inversion E; subst; assumption | ].
  destruct (_ ||| _); try discriminate.
  destruct (_ ||| _); try discriminate.
  intro E. inversion E. subst. apply snoc_finite; [ assumption | ].
  apply readWeight_finite.
Qed.

Lemma pushTarget_finite (key : string) (normalized : list Edge) (target : jsval)
    (normalized' : list Edge) :
  Forall finite normalized ->
  pushTarget NumberOfText key normalized target = Ok normalized' ->
  Forall finite normalized'.
Proof.
  intro H. unfold pushTarget.
  destruct (negb (Js.truthy target)); [ intro E; inversion E; subst; assumption | ].
  assert (W : is_finite (if Js.typeof_object target
                         then readWeight NumberOfText target else 0.5) = true).
  { destruct (Js.typeof_object target); [ apply readWeight_finite | reflexivity ]. }
  destruct (match target with VString _ => target | _ => _ end);
    try discriminate.
  intro E. inversion E. subst. now apply snoc_finite.
Qed.

Lemma pushEdgeEntry_finite (normalized : list Edge) (entry : string * jsval)
    (normalized' : list Edge) :
  Forall finite normalized ->
  pushEdgeEntry NumberOfText normalized entry = Ok normalized' ->
  Forall finite normalized'.
Proof.
  intro H. destruct entry as [key value]. unfold pushEdgeEntry.
  destruct (negb (Js.truthy value)); [ intro E; inversion E; subst; assumption | ].
  destruct value; try (intro E; inversion E; subst; assumption).
  - apply forEach_invariant; [ | assumption ].
    intros s item s' Hs Hb. eapply pushTarget_finite; eassumption.
  - destruct (negb (Js.truthy _)); [ intro E; inversion E; subst; assumption | ].
    destruct (_ ||| _ ||| _); try discriminate.
    destruct (_ ||| _); try discriminate.
    intro E. inversion E. subst. apply snoc_finite; [ assumption | ].
    apply readWeight_finite.
Qed.

Lemma normalizeEdges_finite (graph : jsval) (edges : list Edge) :
  normalizeEdges NumberOfText graph = Ok edges -> Forall finite edges.
Proof.
  unfold normalizeEdges. intro H.
  apply bind_Ok in H. destruct H as (raw & _ & H).
  destruct (_ ||| _ ||| _ ||| _) as [ | | b | x | s | items | props ];
    try (inversion H; subst; constructor; fail).
  - revert H. apply forEach_invariant; [ | constructor ].
    intros s item s' Hs Hb. eapply pushEdge_finite; eassumption.
  - revert H. apply forEach_invariant; [ | constructor ].
    intros s item s' Hs Hb. eapply pushEdgeEntry_finite; eassumption.
Qed.

(** Every weight of the graph the engine works on is finite. *)
Lemma resolveGraph_finite (causalGraph : jsval)
    (variables : list GVariable) (edges : list Edge) :
  resolveGraph NumberOfText causalGraph = Ok (variables, edges) ->
  Forall (fun e => is_finite (e_weight e) = true) edges.
Proof.
  unfold resolveGraph. intro H.
  apply bind_Ok in H. destruct H as (vs & Hv & H).
  apply bind_Ok in H. destruct H as (es & He & H).
  inversion H. subst. apply normalizeEdges_finite in He.
  destruct es; [ repeat constructor | exact He ].
Qed.

End FiniteWeights.

(** ** Cycle records *)

(** No two records of a detection are filed under the same key. *)
Lemma detectCycles_keys (edges : list Edge) (loops : list CycleRecord) :
  detectCycles edges = Some loops -> NoDup (map keyOf loops).
Proof.
  intro H. destruct (detectCycles_ok edges) as (found & Hf & Hok & Hnd).
  rewrite H in Hf. inversion Hf. subst loops. clear H Hf.
  assert (E : map keyOf (JsMap.values found) = map Some (JsMap.keys found)).
  { unfold JsMap.values, JsMap.keys. rewrite !map_map.
    induction Hok as [ | [key r] found Hx Hok IH]; simpl; [ reflexivity | ].
    destruct Hx as (Hk & _). rewrite Hk. f_equal. apply IH.
    inversion Hnd. assumption. }
  rewrite E. apply Finite.Injective_map_NoDup; [ | exact Hnd ].
  intros x y Hxy. inversion Hxy. reflexivity.
Qed.

(** C6 (the code departs from it).  The records are filed under the text
    of the canonical node sequence joined by ["->"], and two distinct
    cycles can share that text.  In a graph with the cycle a, b, c and
    the cycle a, [b->c], both cycles are walks of the graph and both are
    filed under ["a->b->c->a"]; the detector returns one record. *)
Theorem cycle_key_collision :
  option_map loopSummary (detectCycles collisionEdges)
    = Some [ (Reinforcing, ["a"; "b"; "c"]) ] /\
  closedWalk collisionEdges ["a"; "b"; "c"] [1; 1; 1] /\
  closedWalk collisionEdges ["a"; "b->c"] [1; 1] /\
  canonicalizeCycle ["a"; "b"; "c"; "a"] = Some "a->b->c->a" /\
  canonicalizeCycle ["a"; "b->c"; "a"] = Some "a->b->c->a".
Proof.
  split; [ vm_compute; reflexivity | ].
  split; [ | split; [ | split; vm_compute; reflexivity ] ].
  - unfold closedWalk, collisionEdges. simpl.
    repeat (constructor; [ simpl; tauto | ]). constructor.
  - unfold closedWalk, collisionEdges. simpl.
    repeat (constructor; [ simpl; tauto | ]). constructor.
Qed.

(** *** The cycle of two nodes *)

Lemma ltb_flip (A B : string) : A <> B -> Js.lessThan B A = negb (Js.lessThan A B).
Proof. apply OrderFacts.lessThan_flip. Qed.

Lemma visit_S (fuel : nat) (adjacency : JsMap.t (list (string * float)))
    (maxAbs : float) (current : string) (st : Dfs) :
  visit (S fuel) adjacency maxAbs current st =
  match fold_left (visitEdge (visit fuel adjacency maxAbs) maxAbs)
          (outgoingOf adjacency current)
          (Some (mkDfs (stack st ++ [current]) (edgeStack st) (seen st))) with
  | None => None
  | Some st' => Some (mkDfs (removelast (stack st')) (edgeStack st') (seen st'))
  end.
Proof. reflexivity. Qed.

(** Two edges [A -> B] and [B -> A] between distinct nodes yield exactly
    one record, the cycle found from the source of the first edge. *)
Lemma two_cycle_record (A B : string) (w1 w2 : float) :
  A <> B ->
  detectCycles [mkEdge A B w1; mkEdge B A w2] =
    Some [recordOf (maxAbsOf [mkEdge A B w1; mkEdge B A w2]) [A; B; A] [w1; w2]].
Proof.
  intro H.
  assert (EAB : (A =? B)%string = false) by now apply String.eqb_neq.
  assert (EBA : (B =? A)%string = false) by (apply String.eqb_neq; congruence).
  pose proof (ltb_flip A B H) as L.
  assert (N : nodesOf [mkEdge A B w1; mkEdge B A w2] = [A; B]).
  { unfold nodesOf, addToSet.
    repeat (progress (cbn; rewrite ?EAB, ?EBA, ?String.eqb_refl)). reflexivity. }
  assert (Adj : buildAdjacency [mkEdge A B w1; mkEdge B A w2] =
                [(A, [(B, w1)]); (B, [(A, w2)])]).
  { unfold buildAdjacency, JsMap.has.
    repeat (progress (cbn; rewrite ?EAB, ?EBA, ?String.eqb_refl)). reflexivity. }
  assert (K1 : canonicalizeCycle [B; A; B] = canonicalizeCycle [A; B; A]).
  { unfold canonicalizeCycle, rotationsOf, sortRotations. cbn.
    rewrite ?EAB, ?EBA, L. destruct (Js.lessThan A B); reflexivity. }
  assert (K2 : exists key, canonicalizeCycle [A; B; A] = Some key /\
                           (key =? "")%string = false).
  { unfold canonicalizeCycle, rotationsOf, sortRotations. cbn.
    rewrite ?EAB. destruct (Js.lessThan A B); eexists; (split; [ reflexivity | ]).
    - destruct A; reflexivity.
    - destruct B; reflexivity. }
  destruct K2 as (key & K2 & K3).
  unfold detectCycles. rewrite N, Adj.
  set (m := maxAbsOf _). clearbody m.
  set (adj := [(A, [(B, w1)]); (B, [(A, w2)])]).
  set (rec := recordOf m [A; B; A] [w1; w2]).
  assert (OA : outgoingOf adj A = [(B, w1)]).
  { unfold outgoingOf, adj. cbn [JsMap.get]. rewrite String.eqb_refl. reflexivity. }
  assert (OB : outgoingOf adj B = [(A, w2)]).
  { unfold outgoingOf, adj. cbn [JsMap.get]. rewrite EBA, String.eqb_refl. reflexivity. }
  assert (R1 : visit 2 adj m A (mkDfs [] [] []) = Some (mkDfs [] [] [(key, rec)])).
  { rewrite visit_S, OA. cbn [fold_left stack edgeStack seen app].
    rewrite visitEdge_step. cbv zeta. cbn [stack edgeStack seen app indexOf].
    rewrite EBA. rewrite visit_S, OB. cbn [fold_left stack edgeStack seen app].
    rewrite visitEdge_step. cbv zeta. cbn [stack edgeStack seen app indexOf].
    rewrite String.eqb_refl. cbn [List.length Nat.sub Nat.leb].
    unfold closeCycle. cbn [stack edgeStack seen skipn app].
    rewrite K2, K3. cbn [JsMap.has JsMap.get negb andb JsMap.set removelast].
    reflexivity. }
  assert (R2 : visit 2 adj m B (mkDfs [] [] [(key, rec)])
               = Some (mkDfs [] [] [(key, rec)])).
  { rewrite visit_S, OB. cbn [fold_left stack edgeStack seen app].
    rewrite visitEdge_step. cbv zeta. cbn [stack edgeStack seen app indexOf].
    rewrite EAB. rewrite visit_S, OA. cbn [fold_left stack edgeStack seen app].
    rewrite visitEdge_step. cbv zeta. cbn [stack edgeStack seen app indexOf].
    rewrite String.eqb_refl. cbn [List.length Nat.sub Nat.leb].
    unfold closeCycle. cbn [stack edgeStack seen skipn app].
    rewrite K1, K2, K3. unfold JsMap.has. cbn [JsMap.get].
    rewrite String.eqb_refl. cbn [negb andb removelast]. reflexivity. }
  cbn [fold_left List.length]. unfold visitRoot at 2.
  rewrite R1. cbn [seen]. unfold visitRoot. rewrite R2. reflexivity.
Qed.

(** A number is [NaN], a zero, positive or negative. *)
Lemma sign_cases (w : float) :
  w = nan \/
  ((w =? 0) = true /\ (0 <? w) = false /\ (w <? 0) = false) \/
  ((w =? 0) = false /\ (0 <? w) = true /\ (w <? 0) = false) \/
  ((w =? 0) = false /\ (0 <? w) = false /\ (w <? 0) = true).
Proof.
  rewrite eqb_spec, !ltb_spec. change (Prim2SF 0) with (S754_zero false).
  destruct (Prim2SF w) as [s | [] | | [] m e] eqn:E; simpl;
    try (right; left; repeat split; reflexivity);
    try (right; right; left; repeat split; reflexivity);
    try (right; right; right; repeat split; reflexivity).
  left. apply Prim2SF_inj. rewrite E. reflexivity.
Qed.

(** A cycle of two edges is Reinforcing exactly when the two weights have
    the same sign and neither is zero. *)
Lemma typeOf_pair (w1 w2 : float) :
  typeOf [w1; w2] = if sameSign w1 w2 then Reinforcing else Balancing.
Proof.
  unfold typeOf, signProduct, sameSign, Js.Math_sign. cbn [fold_left].
  destruct (sign_cases w1) as [-> | [(E1 & P1 & N1) | [(E1 & P1 & N1) | (E1 & P1 & N1)]]];
    destruct (sign_cases w2) as [-> | [(E2 & P2 & N2) | [(E2 & P2 & N2) | (E2 & P2 & N2)]]];
    rewrite ?E1, ?P1, ?N1, ?E2, ?P2, ?N2; reflexivity.
Qed.

(** X18 (the part of C6 about two edges).  A graph whose only edges are
    [A -> B] and [B -> A], with [A] and [B] distinct, yields one record,
    whatever the order of the two edges in the list: its nodes start at
    the source of the first edge, and it is Reinforcing exactly when the
    weights have the same sign and neither is zero. *)
Lemma two_cycle (A B : string) (w1 w2 : float) :
  A <> B ->
  (exists r,
     detectCycles [mkEdge A B w1; mkEdge B A w2] = Some [r] /\
     c_nodes r = [A; B] /\ c_weights r = [w1; w2] /\
     c_type r = if sameSign w1 w2 then Reinforcing else Balancing) /\
  (exists r,
     detectCycles [mkEdge B A w2; mkEdge A B w1] = Some [r] /\
     c_nodes r = [B; A] /\ c_weights r = [w2; w1] /\
     c_type r = if sameSign w1 w2 then Reinforcing else Balancing).
Proof.
  intro H. split.
  - eexists. split; [ now apply two_cycle_record | ].
    repeat split. apply typeOf_pair.
  - eexists. split; [ apply two_cycle_record; congruence | ].
    repeat split. simpl. rewrite typeOf_pair. unfold sameSign.
    destruct (0 <? w1), (0 <? w2), (w1 <? 0), (w2 <? 0); reflexivity.
Qed.

(** * Further properties of the engine *)

(** ** What normalization hands on *)

Lemma forEach_invariant_In {A S : Type} (Q : S -> Prop)
    (body : S -> A -> outcome S) (items : list A) :
  (forall s item s', In item items -> Q s -> body s item = Ok s' -> Q s') ->
  forall s s', Q s -> forEach items body s = Ok s' -> Q s'.
Proof.
  induction items as [ | item rest IH]; simpl; intros Hbody s s' Hs H.
  - inversion H. subst. assumption.
  - apply bind_Ok in H. destruct H as (s1 & H1 & H2).
    apply (IH (fun s0 i s0' Hi => Hbody s0 i s0' (or_intror Hi)) s1 s');
      [ | assumption ].
    apply (Hbody s item s1); auto.
Qed.

Lemma Forall_snoc {A : Type} (P : A -> Prop) (l : list A) (x : A) :
  Forall P l -> P x -> Forall P (l ++ [x]).
Proof.
  intros Hl Hx. apply Forall_app. split; [ assumption | ].
  constructor; [ assumption | constructor ].
Qed.

Lemma truthy_text (s : string) : Js.truthy (VString s) = true -> s <> "".
Proof. simpl. intros H E. subst. discriminate. Qed.

Section ResolvedGraph.

Variable NumberOfText : jsval -> float.

Let named (v : GVariable) : Prop := v_id v <> "".

Let finite (e : Edge) : Prop := is_finite (e_weight e) = true.

Let joined (e : Edge) : Prop := e_from e <> "" /\ e_to e <> "".

Lemma pushNode_named (normalized : list GVariable) (item : jsval)
    (normalized' : list GVariable) :
  Forall named normalized ->
  pushNode NumberOfText normalized item = Ok normalized' ->
  Forall named normalized'.
Proof.
  intro H. unfold pushNode.
  destruct (Js.truthy item) eqn:T; simpl;
    [ | intro E; inversion E; subst; assumption ].
  destruct item; simpl in T; try discriminate; simpl;
    try (intro E; inversion E; subst; assumption).
  - intro E. inversion E. subst.
    apply Forall_snoc; [ assumption | now apply truthy_text ].
  - destruct (Js.truthy (_ ||| _)) eqn:Tid; simpl;
      [ | intro E; inversion E; subst; assumption ].
    destruct (_ ||| _) eqn:Eid; try discriminate.
    intro E. inversion E. subst.
    apply Forall_snoc; [ assumption | now apply truthy_text ].
Qed.

Lemma pushEntry_named (normalized : list GVariable) (entry : string * jsval) :
  Forall named normalized ->
  Forall named (pushEntry NumberOfText normalized entry).
Proof.
  intro H. destruct entry as [id item]. unfold pushEntry.
  destruct (id =? "")%string eqn:E; [ assumption | ].
  apply String.eqb_neq in E.
  destruct (Js.truthy item && Js.typeof_object item);
    (apply Forall_snoc; [ assumption | exact E ]).
Qed.

Lemma normalizeVariables_named (graph : jsval) (variables : list GVariable) :
  normalizeVariables NumberOfText graph = Ok variables ->
  Forall named variables.
Proof.
  unfold normalizeVariables. intro H.
  apply bind_Ok in H. destruct H as (raw & _ & H).
  destruct (_ ||| _ ||| _ ||| _ ||| _) as [ | | b | x | s | items | props ];
    try (inversion H; subst; constructor; fail).
  - revert H. apply forEach_invariant; [ | constructor ].
    intros s item s' Hs Hb. eapply pushNode_named; eassumption.
  - inversion H. subst.
    apply fold_left_invariant; [ | constructor ].
    intros s item Hs. now apply pushEntry_named.
Qed.

Lemma pushEdge_joined (normalized : list Edge) (edge : jsval)
    (normalized' : list Edge) :
  Forall joined normalized ->
  pushEdge NumberOfText normalized edge = Ok normalized' ->
  Forall joined normalized'.
Proof.
  intro H. unfold pushEdge.
  destruct (negb (Js.truthy edge)); [ intro E; inversion E; subst; assumption | ].
  destruct (Js.truthy (Js.field edge "from" ||| Js.field edge "source")) eqn:Tf;
    simpl; [ | intro E; inversion E; subst; assumption ].
  destruct (Js.truthy (Js.field edge "to" ||| Js.field edge "target")) eqn:Tt;
    simpl; [ | intro E; inversion E; subst; assumption ].
  destruct (Js.field edge "from" ||| Js.field edge "source"); try discriminate.
  destruct (Js.field edge "to" ||| Js.field edge "target"); try discriminate.
  intro E. inversion E. subst. apply Forall_snoc; [ assumption | ].
  split; simpl; now apply truthy_text.
Qed.

(** X1. The graph the engine works on is never empty and never
    ill-formed: it has at least one variable and at least one edge,
    every variable has a non-empty id, and every weight is a finite
    number.  When the description gives its edges as an array, both
    endpoints of every edge are non-empty too. *)
Theorem resolved_graph_well_formed (causalGraph : jsval)
    (variables : list GVariable) (edges : list Edge) :
  resolveGraph NumberOfText causalGraph = Ok (variables, edges) ->
  variables <> [] /\ edges <> [] /\
  Forall (fun v => v_id v <> "") variables /\
  Forall (fun e => is_finite (e_weight e) = true) edges /\
  (forall items,
     Js.field causalGraph "edges" = VArray items ->
     Forall (fun e => e_from e <> "" /\ e_to e <> "") edges).
Proof.
  intro H. pose proof (resolveGraph_finite NumberOfText _ _ _ H) as Hfin.
  unfold resolveGraph in H.
  apply bind_Ok in H. destruct H as (vs & Hv & H).
  apply bind_Ok in H. destruct H as (es & He & H).
  inversion H. subst. clear H.
  split; [ destruct vs; discriminate | ].
  split; [ destruct es; discriminate | ].
  split; [ | split; [ exact Hfin | ] ].
  - apply normalizeVariables_named in Hv.
    destruct vs; [ | exact Hv ].
    repeat constructor; discriminate.
  - intros items Hitems.
    assert (J : Forall joined es).
    { unfold normalizeEdges in He.
      destruct causalGraph; simpl in Hitems; try discriminate.
      simpl in He. rewrite Hitems in He. simpl in He.
      revert He. apply forEach_invariant; [ | constructor ].
      intros s item s' Hs Hb. eapply pushEdge_joined; eassumption. }
    destruct es; [ | exact J ].
    repeat constructor; discriminate.
Qed.

End ResolvedGraph.

(** The scenario's graph is handed on as it is. *)
Lemma resolved_graph_well_formed_witness :
  resolveGraph noNumericText scenarioGraph
    = Ok ([mkVariable "X" 5 5], [mkEdge "X" "X" (-0.5)]) /\
  Forall (fun e => e_from e <> "" /\ e_to e <> "") [mkEdge "X" "X" (-0.5)].
Proof.
  assert (R : resolveGraph noNumericText scenarioGraph
              = Ok ([mkVariable "X" 5 5], [mkEdge "X" "X" (-0.5)]))
    by (vm_compute; reflexivity).
  split; [ exact R | ].
  destruct (resolved_graph_well_formed noNumericText _ _ _ R) as (_ & _ & _ & _ & J).
  apply (J _ eq_refl).
Defined.

(** ** Defaults of the variables *)

Section VariableDefaults.

Variable NumberOfText : jsval -> float.

Let level (v : GVariable) : Prop := v_baseline v = v_value v.

Lemma readInitial_finite (item : jsval) :
  is_finite (readInitial NumberOfText item) = true.
Proof. apply toNumber_finite. reflexivity. Qed.

Lemma variableOf_level (id : string) (item : jsval) :
  noBaseline item = true -> level (variableOf NumberOfText id item).
Proof.
  unfold noBaseline, level, variableOf, readBaseline. intro H.
  apply andb_prop in H. destruct H as [Hb Hs]. cbn [v_baseline v_value].
  f_equal.
  destruct (Js.field item "baseline"); try discriminate;
    destruct (Js.field item "setPoint"); try discriminate;
    unfold Js.coalesce, toNumber, Number, Js.isFinite;
    rewrite readInitial_finite; reflexivity.
Qed.

Lemma pushNode_level (normalized : list GVariable) (item : jsval)
    (normalized' : list GVariable) :
  noBaseline item = true ->
  Forall level normalized ->
  pushNode NumberOfText normalized item = Ok normalized' ->
  Forall level normalized'.
Proof.
  intros Hitem H. unfold pushNode.
  destruct (negb (Js.truthy item)); [ intro E; inversion E; subst; assumption | ].
  destruct item; simpl;
    try (intro E; inversion E; subst; assumption).
  - intro E. inversion E. subst.
    apply Forall_snoc; [ assumption | reflexivity ].
  - destruct (negb (Js.truthy (_ ||| _)));
      [ intro E; inversion E; subst; assumption | ].
    destruct (_ ||| _) eqn:Eid; try discriminate.
    intro E. inversion E. subst.
    apply Forall_snoc; [ assumption | now apply variableOf_level ].
Qed.

(** X2. A variable whose item states neither [baseline] nor [setPoint]
    gets its own starting value as baseline: when no item of the
    [variables] array states one, every normalized variable has its
    baseline equal to its value.  A bare name counts as such an item,
    with 5 for both. *)
Theorem baseline_defaults_to_value (graph : jsval) (items : list jsval)
    (variables : list GVariable) :
  Js.field graph "variables" = VArray items ->
  Forall (fun item => noBaseline item = true) items ->
  normalizeVariables NumberOfText graph = Ok variables ->
  Forall (fun v => v_baseline v = v_value v) variables.
Proof.
  intros Hitems Hall. unfold normalizeVariables.
  destruct graph; simpl in Hitems; try discriminate.
  simpl. rewrite Hitems. simpl.
  apply forEach_invariant_In; [ | constructor ].
  intros s item s' Hin Hs Hb.
  rewrite Forall_forall in Hall.
  eapply pushNode_level; [ apply Hall | | ]; eassumption.
Qed.

Lemma pushEntry_ids (normalized : list GVariable) (entry : string * jsval) :
  map v_id (pushEntry NumberOfText normalized entry) =
  map v_id normalized ++ filter nonEmpty [fst entry].
Proof.
  destruct entry as [id item]. unfold pushEntry, nonEmpty. simpl.
  destruct (id =? "")%string; simpl; [ now rewrite app_nil_r | ].
  destruct (Js.truthy item && Js.typeof_object item);
    rewrite map_app; reflexivity.
Qed.

Lemma fold_pushEntry_ids (props : list (string * jsval)) :
  forall normalized,
    map v_id (fold_left (pushEntry NumberOfText) props normalized) =
    map v_id normalized ++ filter nonEmpty (map fst props).
Proof.
  induction props as [ | entry props IH]; simpl; intro normalized.
  - now rewrite app_nil_r.
  - rewrite IH, pushEntry_ids. simpl.
    destruct (nonEmpty (fst entry)); simpl; rewrite <- app_assoc; reflexivity.
Qed.


End VariableDefaults.

(** Two items without a baseline, one of them a bare name. *)
Lemma baseline_defaults_to_value_witness :
  Forall (fun v => v_baseline v = v_value v)
    [mkVariable "A" 3 3; mkVariable "B" 5 5].
Proof.
  apply (baseline_defaults_to_value noNumericText
           (VObject [ ("variables",
                       VArray [ VObject [ ("id", VString "A");
                                          ("value", VNumber 3) ];
                                VString "B" ]) ])
           [ VObject [ ("id", VString "A"); ("value", VNumber 3) ]; VString "B" ]).
  - reflexivity.
  - repeat constructor.
  - vm_compute. reflexivity.
Defined.


(** ** Edges given as adjacency lists *)

Section AdjacencyLists.

Variable NumberOfText : jsval -> float.

Let edgesFrom (key : string) (targets : list string) : list Edge :=
  map (fun t => mkEdge key t 0.5) (filter nonEmpty targets).

Lemma pushTarget_names (key : string) (targets : list string) :
  forall normalized,
    forEach (map VString targets) (pushTarget NumberOfText key) normalized =
    Ok (normalized ++ edgesFrom key targets).
Proof.
  induction targets as [ | t targets IH]; simpl; intro normalized.
  - now rewrite app_nil_r.
  - unfold pushTarget at 1, edgesFrom, nonEmpty. simpl.
    destruct (t =? "")%string; simpl.
    + apply IH.
    + rewrite IH. unfold edgesFrom. rewrite <- app_assoc. reflexivity.
Qed.

Lemma pushEdgeEntry_lists (lists : list (string * list string)) :
  forall normalized,
    forEach
      (map (fun entry => (fst entry, VArray (map VString (snd entry)))) lists)
      (pushEdgeEntry NumberOfText) normalized =
    Ok (normalized ++
        flat_map (fun entry => edgesFrom (fst entry) (snd entry)) lists).
Proof.
  induction lists as [ | [key targets] lists IH]; simpl; intro normalized.
  - now rewrite app_nil_r.
  - rewrite pushTarget_names. simpl. rewrite IH, <- app_assoc. reflexivity.
Qed.

(** X4. Edges may be given as adjacency lists, each source mapped to
    the array of the names of its targets.  Every non-empty name then
    gives one edge of weight 0.5 (not the weight 0 that an edge object
    without a weight gets); the sources come in the order in which the
    object lists its keys (array indices first, ascending, then the
    others as written) and the targets of a source in the order of its
    array.  An empty name gives no edge. *)
Theorem adjacency_list_edges (lists : list (string * list string)) :
  normalizeEdges NumberOfText (adjacencyListGraph lists) =
  Ok (flat_map
        (fun entry =>
           map (fun t => mkEdge (fst entry) t 0.5) (filter nonEmpty (snd entry)))
        (Js.entries lists)) /\
  normalizeEdges NumberOfText
    (adjacencyListGraph [ ("b", ["x"; ""]); ("10", ["y"]); ("2", ["z"]) ])
    = Ok [mkEdge "2" "z" 0.5; mkEdge "10" "y" 0.5; mkEdge "b" "x" 0.5] /\
  normalizeEdges NumberOfText
    (VObject [ ("edges", VArray [ VObject [ ("from", VString "A");
                                            ("to", VString "B") ] ]) ])
    = Ok [mkEdge "A" "B" 0].
Proof.
  split; [ | split; reflexivity ].
  unfold normalizeEdges, adjacencyListGraph. simpl.
  rewrite (EnumFacts.entries_map (fun targets => VArray (map VString targets))).
  apply (pushEdgeEntry_lists (Js.entries lists) []).
Qed.

End AdjacencyLists.

(** ** The adjacency map *)

Lemma indexOf_keys {A : Type} (m : JsMap.t A) (k : string) :
  indexOf (JsMap.keys m) k = None <-> JsMap.has m k = false.
Proof.
  split; intro H.
  - destruct (JsMap.has m k) eqn:E; [ | reflexivity ].
    apply has_In in E. apply indexOf_In in E. contradiction.
  - destruct (indexOf (JsMap.keys m) k) eqn:E; [ | reflexivity ].
    assert (K : In k (JsMap.keys m)) by (apply indexOf_In; congruence).
    apply has_In in K. congruence.
Qed.

Lemma addToSet_keys {A : Type} (m : JsMap.t A) (k : string) (v : A) :
  JsMap.keys (JsMap.set m k v) = addToSet (JsMap.keys m) k.
Proof.
  rewrite keys_set. unfold addToSet.
  destruct (JsMap.has m k) eqn:E.
  - destruct (indexOf (JsMap.keys m) k) eqn:I; [ reflexivity | ].
    apply indexOf_keys in I. congruence.
  - apply indexOf_keys in E. now rewrite E.
Qed.

Lemma addToSet_NoDup (l : list string) :
  forall acc, NoDup acc -> NoDup (fold_left addToSet l acc).
Proof.
  induction l as [ | x l IH]; simpl; intros acc H; [ assumption | ].
  apply IH. unfold addToSet.
  destruct (indexOf acc x) eqn:E; [ assumption | ].
  apply NoDup_app; [ assumption | repeat constructor; simpl; tauto | ].
  intros y Hy [<- | []].
  apply indexOf_In in Hy. contradiction.
Qed.

Lemma buildAdjacency_keys (edges : list Edge) :
  JsMap.keys (buildAdjacency edges) = fold_left addToSet (map e_from edges) [].
Proof.
  unfold buildAdjacency.
  change (@nil string) with (JsMap.keys (@nil (string * list (string * float)))).
  generalize (@nil (string * list (string * float))).
  induction edges as [ | edge rest IH]; simpl; intro adjacency; [ reflexivity | ].
  rewrite IH. f_equal. unfold JsMap.has.
  destruct (JsMap.get adjacency (e_from edge)) as [out | ] eqn:G; simpl.
  - rewrite G, addToSet_keys. unfold addToSet.
    destruct (indexOf (JsMap.keys adjacency) (e_from edge)) eqn:I; [ reflexivity | ].
    apply indexOf_keys in I. unfold JsMap.has in I. rewrite G in I. discriminate.
  - rewrite get_set_same, addToSet_keys, addToSet_keys.
    unfold addToSet at 1.
    destruct (indexOf (addToSet (JsMap.keys adjacency) (e_from edge)) (e_from edge))
      eqn:I; [ reflexivity | ].
    exfalso. rewrite <- addToSet_keys with (v := @nil (string * float)) in I.
    apply indexOf_keys in I. rewrite has_set, String.eqb_refl in I. discriminate.
Qed.

(** X5. The adjacency map groups the edges by source and loses none: its
    keys are the sources in the order of their first edge, each once, and
    the list under a source holds its outgoing edges in the order of the
    edge list.  A node with no outgoing edge has no key and is given the
    empty list. *)
Theorem adjacency_groups_edges (edges : list Edge) :
  JsMap.keys (buildAdjacency edges) = fold_left addToSet (map e_from edges) [] /\
  NoDup (JsMap.keys (buildAdjacency edges)) /\
  (forall node,
     outgoingOf (buildAdjacency edges) node =
     map (fun edge => (e_to edge, e_weight edge))
       (filter (fun edge => (e_from edge =? node)%string) edges)) /\
  (forall node,
     JsMap.has (buildAdjacency edges) node = false <->
     ~ exists edge, In edge edges /\ e_from edge = node).
Proof.
  split; [ apply buildAdjacency_keys | ].
  split; [ rewrite buildAdjacency_keys; apply addToSet_NoDup; constructor | ].
  split; [ intro node; apply outgoingOf_buildAdjacency | ].
  intro node. rewrite <- indexOf_keys, buildAdjacency_keys.
  split.
  - intros H (edge & Hin & <-).
    assert (K : In (e_from edge) (fold_left addToSet (map e_from edges) [])).
    { apply addToSet_In. left. now apply in_map. }
    apply indexOf_In in K. contradiction.
  - intro H.
    destruct (indexOf (fold_left addToSet (map e_from edges) []) node) eqn:I;
      [ | reflexivity ].
    exfalso. apply H.
    assert (K : In node (fold_left addToSet (map e_from edges) []))
      by (apply indexOf_In; congruence).
    apply addToSet_In in K. destruct K as [K | []].
    apply in_map_iff in K. destruct K as (edge & <- & Hin). eauto.
Qed.

(** ** Options of the integrator *)

Lemma readSteps_usable (opts : jsval) :
  readSteps (usableOptions opts) = readSteps (Js.default opts (VObject [])).
Proof.
  assert (F : Js.field (Js.default opts (VObject [])) "steps" = Js.field opts "steps")
    by (destruct opts; reflexivity).
  unfold readSteps. rewrite F. unfold usableOptions. cbn [Js.field Js.lookup].
  cbn [String.eqb Ascii.eqb Bool.eqb].
  destruct (Js.field opts "steps") as [ | | b | x | s | items | props ];
    try reflexivity.
  unfold noStepCount.
  destruct (Js.integer_value x) as [n | ] eqn:I; [ | reflexivity ].
  destruct (0 <? n)%Z eqn:P; simpl; [ now rewrite I, P | reflexivity ].
Qed.

Lemma readFinite_usable (opts : jsval) (k : string) (d : float) :
  is_finite d = true ->
  readFinite
    (VObject [ ("k", if noFiniteNumber (Js.field opts k) then VNumber d
                     else Js.field opts k) ]) "k" d =
  readFinite (Js.default opts (VObject [])) k d.
Proof.
  intro Hd.
  assert (F : Js.field (Js.default opts (VObject [])) k = Js.field opts k)
    by (destruct opts; reflexivity).
  unfold readFinite. rewrite F. cbn [Js.field Js.lookup].
  cbn [String.eqb Ascii.eqb Bool.eqb].
  destruct (Js.field opts k) as [ | | b | x | s | items | props ];
    simpl; unfold Js.isFinite; rewrite ?Hd; try reflexivity.
  destruct (is_finite x) eqn:E; simpl; unfold Js.isFinite; rewrite ?E, ?Hd;
    reflexivity.
Qed.

Lemma runEulerSimulation_usable (variables : list GVariable) (edges : list Edge)
    (opts : jsval) :
  runEulerSimulation variables edges (usableOptions opts) =
  runEulerSimulation variables edges (Js.default opts (VObject [])).
Proof.
  unfold runEulerSimulation.
  replace (Js.default (Js.default opts (VObject [])) (VObject []))
    with (Js.default opts (VObject [])) by (destruct opts; reflexivity).
  change (Js.default (usableOptions opts) (VObject [])) with (usableOptions opts).
  rewrite readSteps_usable.
  replace (readFinite (usableOptions opts) "dt" 0.35)
    with (readFinite (Js.default opts (VObject [])) "dt" 0.35).
  2:{ rewrite <- (readFinite_usable opts "dt" 0.35 eq_refl). reflexivity. }
  replace (readFinite (usableOptions opts) "damping" 0.28)
    with (readFinite (Js.default opts (VObject [])) "damping" 0.28).
  2:{ rewrite <- (readFinite_usable opts "damping" 0.28 eq_refl). reflexivity. }
  reflexivity.
Qed.

Section Options.

Variable NumberOfText : jsval -> float.

(** X6. The engine reads four options and no other: [initialState],
    [steps], [dt] and [damping].  A step count that is no positive
    integer is replaced by 12, and a [dt] or [damping] that is no finite
    number (a numeric string included) by 0.35 and 0.28; with an
    unusable step count the series has 13 snapshots. *)
Theorem option_defaults (causalGraph opts : jsval) :
  opts <> VNull ->
  runCausalSimulation NumberOfText causalGraph opts =
    runCausalSimulation NumberOfText causalGraph (usableOptions opts) /\
  (noStepCount (Js.field opts "steps") = true ->
   forall result,
     runCausalSimulation NumberOfText causalGraph opts = Ok result ->
     List.length (r_timeSeries result) = 13%nat).
Proof.
  intro Hopts.
  assert (G : Js.get (Js.default opts (VObject [])) "initialState"
              = Ok (Js.field opts "initialState"))
    by (destruct opts; try reflexivity; contradiction).
  assert (E : runCausalSimulation NumberOfText causalGraph opts =
              runCausalSimulation NumberOfText causalGraph (usableOptions opts)).
  { unfold runCausalSimulation.
    change (Js.default (usableOptions opts) (VObject [])) with (usableOptions opts).
    destruct (resolveGraph NumberOfText (Js.default causalGraph (VObject [])))
      as [[variables edges] | | ]; cbn [bind]; try reflexivity.
    rewrite G.
    change (Js.get (usableOptions opts) "initialState")
      with (@Ok jsval (Js.field opts "initialState")).
    cbn [bind].
    destruct (applyInitialStateAnchors NumberOfText variables
                (Js.field opts "initialState")) as [anchored | | ];
      cbn [bind]; try reflexivity.
    rewrite <- (runEulerSimulation_usable anchored edges opts).
    assert (D : runEulerSimulation anchored edges (usableOptions opts) =
                runEulerSimulation anchored edges
                  (Js.default (usableOptions opts) (VObject [])))
      by reflexivity.
    assert (D' : runEulerSimulation anchored edges (Js.default opts (VObject [])) =
                 runEulerSimulation anchored edges opts).
    { unfold runEulerSimulation.
      replace (Js.default (Js.default opts (VObject [])) (VObject []))
        with (Js.default opts (VObject [])) by (destruct opts; reflexivity).
      reflexivity. }
    rewrite (runEulerSimulation_usable anchored edges opts), D'. reflexivity. }
  split; [ exact E | ].
  intros Hsteps result Hrun.
  destruct (runCausalSimulation_stages NumberOfText _ _ _ Hrun)
    as (variables & edges & initialState & anchored & simulation & loops
        & _ & _ & _ & Hsim & _ & ->).
  simpl.
  assert (D' : runEulerSimulation anchored edges (Js.default opts (VObject [])) =
               runEulerSimulation anchored edges opts).
  { unfold runEulerSimulation.
    replace (Js.default (Js.default opts (VObject [])) (VObject []))
      with (Js.default opts (VObject [])) by (destruct opts; reflexivity).
    reflexivity. }
  rewrite D' in Hsim.
  apply runEulerSimulation_Ok in Hsim. destruct Hsim as [_ ->].
  assert (S12 : readSteps (Js.default opts (VObject [])) = 12%Z).
  { rewrite <- readSteps_usable. unfold usableOptions. rewrite Hsteps.
    reflexivity. }
  rewrite S12.
  destruct (eulerLoop_series (Z.to_nat 12) 1%Z
              (readFinite (Js.default opts (VObject [])) "dt" 0.35)
              (readFinite (Js.default opts (VObject [])) "damping" 0.28)
              (snd (loadVariables anchored)) edges (fst (loadVariables anchored))
              [captureSnapshot 0%Z (fst (loadVariables anchored))])
    as (rest & -> & Hs).
  rewrite length_app. apply (f_equal (@List.length Z)) in Hs.
  rewrite !length_map, length_seq in Hs. simpl. rewrite Hs. reflexivity.
Qed.

End Options.

(** Options with a step count of 0, a [dt] given as text and a [damping]
    that is [NaN]: the run is the run with the defaults. *)
Lemma option_defaults_witness :
  runCausalSimulation noNumericText scenarioGraph
    (VObject [ ("steps", VNumber 0); ("dt", VString "0.5");
               ("damping", VNumber nan) ]) =
  runCausalSimulation noNumericText scenarioGraph
    (VObject [ ("initialState", VUndefined); ("steps", VNumber 12);
               ("dt", VNumber 0.35); ("damping", VNumber 0.28) ]).
Proof.
  apply (option_defaults noNumericText scenarioGraph
           (VObject [ ("steps", VNumber 0); ("dt", VString "0.5");
                      ("damping", VNumber nan) ])).
  discriminate.
Defined.

(** ** The series of snapshots *)

Lemma set_absent {A : Type} (m : JsMap.t A) (k : string) (v : A) :
  ~ In k (JsMap.keys m) -> JsMap.set m k v = m ++ [(k, v)].
Proof.
  induction m as [ | [k' v'] m IH]; simpl; intro H; [ reflexivity | ].
  destruct (k =? k')%string eqn:E.
  - apply String.eqb_eq in E. subst. tauto.
  - rewrite IH by tauto. reflexivity.
Qed.

(** With distinct keys, a snapshot is the map itself without the key
    ["__proto__"]. *)
Lemma captureSnapshot_recorded (step : Z) (values : JsMap.t float) :
  NoDup (JsMap.keys values) ->
  s_values (captureSnapshot step values) = recorded values.
Proof.
  unfold captureSnapshot, recorded. simpl.
  assert (G : forall (entries acc : list (string * float)),
            NoDup (JsMap.keys acc ++ JsMap.keys entries) ->
            fold_left (fun snapshot entry =>
                         object_set snapshot (fst entry) (snd entry)) entries acc =
            acc ++ filter (fun entry => negb (fst entry =? "__proto__")%string)
                     entries).
  { induction entries as [ | [k x] rest IH]; simpl; intros acc H.
    - now rewrite app_nil_r.
    - unfold object_set at 2. simpl.
      destruct (k =? "__proto__")%string; simpl.
      + apply IH. apply NoDup_remove_1 in H. exact H.
      + rewrite IH.
        * rewrite set_absent; [ now rewrite <- app_assoc | ].
          apply NoDup_remove_2 in H. intro K. apply H.
          apply in_or_app. left. exact K.
        * rewrite set_absent.
          -- unfold JsMap.keys in *. rewrite map_app, <- app_assoc. exact H.
          -- apply NoDup_remove_2 in H. intro K. apply H.
             apply in_or_app. left. exact K. }
  intro N. apply (G values []). exact N.
Qed.

Lemma recorded_keys (values : JsMap.t float) :
  JsMap.keys (recorded values) =
  filter (fun k => negb (k =? "__proto__")%string) (JsMap.keys values).
Proof.
  unfold recorded, JsMap.keys.
  induction values as [ | [k x] rest IH]; simpl; [ reflexivity | ].
  destruct (k =? "__proto__")%string; simpl; now rewrite IH.
Qed.

(** A property of the values that a step keeps holds of every snapshot
    taken from them. *)
Lemma eulerLoop_invariant (Q : JsMap.t float -> Prop) (R : Snapshot -> Prop)
    (dt damping : float) (baselines : JsMap.t float) (edges : list Edge)
    (remaining : nat) :
  (forall values, Q values -> Q (eulerStep dt damping baselines edges values)) ->
  (forall step values, Q values -> R (captureSnapshot step values)) ->
  forall (step : Z) (values : JsMap.t float) (series : list Snapshot),
    Q values -> Forall R series ->
    Forall R (timeSeries
                (eulerLoop remaining step dt damping baselines edges values series))
    /\ Q (finalValues
            (eulerLoop remaining step dt damping baselines edges values series)).
Proof.
  intros Hstep Hcap.
  induction remaining as [ | n IH]; simpl; intros step values series Hq Hr.
  - auto.
  - apply IH; [ now apply Hstep | ].
    apply Forall_snoc; [ assumption | ]. apply Hcap. now apply Hstep.
Qed.

(** The last snapshot is the one taken from the final values. *)
Lemma eulerLoop_last (dt damping : float) (baselines : JsMap.t float)
    (edges : list Edge) (remaining : nat) :
  forall (step : Z) (values : JsMap.t float) (series : list Snapshot),
    (exists earlier s, series = earlier ++ [captureSnapshot s values]) ->
    exists earlier s,
      timeSeries (eulerLoop remaining step dt damping baselines edges values series)
        = earlier ++
          [captureSnapshot s
             (finalValues
                (eulerLoop remaining step dt damping baselines edges values
                   series))].
Proof.
  induction remaining as [ | n IH]; simpl; intros step values series H.
  - exact H.
  - apply IH. eauto.
Qed.

Lemma loadVariables_keys (variables : list GVariable) :
  JsMap.keys (fst (loadVariables variables)) =
  fold_left addToSet (map v_id variables) [].
Proof.
  unfold loadVariables. rewrite loadVariables_fst. simpl.
  change (@nil string) with (JsMap.keys (@nil (string * float))).
  generalize (@nil (string * float)).
  induction variables as [ | v rest IH]; simpl; intro m; [ reflexivity | ].
  rewrite IH, addToSet_keys. reflexivity.
Qed.

(** X7. Every snapshot of a run lists the same ids, in the same order:
    the ids of the variables, each once and without the key
    ["__proto__"], as an object lists its keys: the array indices first,
    ascending, then the other ids in the order of their first
    occurrence among the variables.  No step adds, drops or reorders a
    variable; the map of final values has the ids in the order of first
    occurrence. *)
Theorem snapshot_ids_are_fixed (variables : list GVariable) (edges : list Edge)
    (opts : jsval) (simulation : Simulation) :
  runEulerSimulation variables edges opts = Ok simulation ->
  NoDup (JsMap.keys (finalValues simulation)) /\
  JsMap.keys (finalValues simulation) = fold_left addToSet (map v_id variables) [] /\
  Forall
    (fun s =>
       map fst (Js.entries (s_values s)) =
       Js.keysInOrder
         (filter (fun k => negb (k =? "__proto__")%string)
            (fold_left addToSet (map v_id variables) [])))
    (timeSeries simulation).
Proof.
  intro H. apply runEulerSimulation_Ok in H. destruct H as [_ ->].
  set (ids := fold_left addToSet (map v_id variables) []).
  destruct (loadVariables_NoDup variables) as [N _].
  pose proof (loadVariables_keys variables) as K. fold ids in K.
  assert (Hcap : forall step values,
            JsMap.keys values = ids ->
            map fst (Js.entries (s_values (captureSnapshot step values))) =
            Js.keysInOrder
              (filter (fun k => negb (k =? "__proto__")%string) ids)).
  { intros step values Hv. rewrite EnumFacts.keys_entries. f_equal.
    change (map fst (s_values (captureSnapshot step values)))
      with (JsMap.keys (s_values (captureSnapshot step values))).
    rewrite captureSnapshot_recorded, recorded_keys, Hv; [ reflexivity | ].
    rewrite Hv, <- K. exact N. }
  destruct (eulerLoop_invariant
              (fun values => JsMap.keys values = ids)
              (fun s => map fst (Js.entries (s_values s)) =
                        Js.keysInOrder
                          (filter (fun k => negb (k =? "__proto__")%string) ids))
              (readFinite (Js.default opts (VObject [])) "dt" 0.35)
              (readFinite (Js.default opts (VObject [])) "damping" 0.28)
              (snd (loadVariables variables)) edges
              (Z.to_nat (readSteps (Js.default opts (VObject []))))) with
    (step := 1%Z) (values := fst (loadVariables variables))
    (series := [captureSnapshot 0%Z (fst (loadVariables variables))])
    as [Hseries Hfinal].
  - intros values Hv. now rewrite eulerStep_keys.
  - exact Hcap.
  - exact K.
  - constructor; [ | constructor ]. apply Hcap. exact K.
  - split; [ rewrite Hfinal, <- K; exact N | ].
    split; assumption.
Qed.

(** Three variables named [b], [10] and [2], in that order: every
    snapshot lists [2], [10], [b]. *)
Lemma snapshot_ids_are_fixed_witness :
  exists simulation,
    runEulerSimulation
      [mkVariable "b" 5 5; mkVariable "10" 5 5; mkVariable "2" 5 5]
      [mkEdge "b" "2" (-0.5)] scenarioOptions = Ok simulation /\
    JsMap.keys (finalValues simulation) = ["b"; "10"; "2"] /\
    Forall (fun s => map fst (Js.entries (s_values s)) = ["2"; "10"; "b"])
      (timeSeries simulation).
Proof.
  assert (R : exists simulation,
            runEulerSimulation
              [mkVariable "b" 5 5; mkVariable "10" 5 5; mkVariable "2" 5 5]
              [mkEdge "b" "2" (-0.5)] scenarioOptions = Ok simulation)
    by (eexists; vm_compute; reflexivity).
  destruct R as (simulation & R). exists simulation. split; [ exact R | ].
  destruct (snapshot_ids_are_fixed _ _ _ _ R) as (_ & Hk & Hs).
  split; [ exact Hk | exact Hs ].
Defined.

(** ** Rest points *)

Module FloatRest.

Lemma finite_SF (x : float) :
  is_finite x = true ->
  (exists s, Prim2SF x = S754_zero s) \/
  (exists s m e, Prim2SF x = S754_finite s m e).
Proof.
  unfold is_finite, is_infinity. intro H.
  apply negb_true_iff, orb_false_iff in H. destruct H as [Hn Hi].
  rewrite eqb_spec, abs_spec in Hi.
  apply not_nan_SF in Hn.
  destruct (Prim2SF x) as [s | s | | s m e] eqn:E; eauto.
  - destruct s; discriminate.
  - contradiction.
Qed.

Lemma positive_SF (x : float) :
  (0 <? x) = true -> (x <=? 10) = true ->
  exists m e, Prim2SF x = S754_finite false m e.
Proof.
  rewrite ltb_spec, leb_spec. unfold SFltb, SFleb.
  change (Prim2SF 0) with (S754_zero false).
  change (Prim2SF 10) with (S754_finite false 5629499534213120 (-49)).
  intros H0 H10.
  destruct (Prim2SF x) as [s | s | | s m e].
  - discriminate H0.
  - destruct s; [ discriminate H0 | discriminate H10 ].
  - discriminate H0.
  - destruct s; [ discriminate H0 | eauto ].
Qed.

(** [v + dt * (0 - damping * (v - v))] is [v]: the difference is [+0],
    and so is everything built on it. *)
Lemma SF_rest (sv sd st : spec_float) :
  sv = S754_zero false \/ (exists m e, sv = S754_finite false m e) ->
  (exists s, sd = S754_zero s) \/ (exists s m e, sd = S754_finite s m e) ->
  (exists s, st = S754_zero s) \/ (exists s m e, st = S754_finite s m e) ->
  SF64add sv (SF64mul st (SF64sub (S754_zero false) (SF64mul sd (SF64sub sv sv))))
  = sv.
Proof.
  intros Hv Hd Ht.
  assert (Z : SF64sub sv sv = S754_zero false).
  { destruct Hv as [-> | (m & e & ->)]; [ reflexivity | ].
    unfold SF64sub, SFsub. cbv zeta. unfold cond_Zopp.
    rewrite Z.sub_diag. reflexivity. }
  rewrite Z.
  assert (Z1 : exists s, SF64mul sd (S754_zero false) = S754_zero s).
  { destruct Hd as [(s & ->) | (s & m & e & ->)]; simpl; eauto. }
  destruct Z1 as (s1 & ->).
  assert (Z2 : SF64sub (S754_zero false) (S754_zero s1) = S754_zero false)
    by (destruct s1; reflexivity).
  rewrite Z2.
  assert (Z3 : exists s, SF64mul st (S754_zero false) = S754_zero s).
  { destruct Ht as [(s & ->) | (s & m & e & ->)]; simpl; eauto. }
  destruct Z3 as (s3 & ->).
  destruct Hv as [-> | (m & e & ->)]; [ destruct s3 | ]; reflexivity.
Qed.

Lemma rest_point (v dt damping : float) :
  is_finite dt = true -> is_finite damping = true ->
  v = 0 \/ ((0 <? v) = true /\ (v <=? 10) = true) ->
  v + dt * (0 - damping * (v - v)) = v.
Proof.
  intros Ht Hd Hv. apply Prim2SF_inj.
  rewrite add_spec, mul_spec, sub_spec, mul_spec, sub_spec.
  change (Prim2SF 0) with (S754_zero false).
  apply SF_rest.
  - destruct Hv as [-> | [H0 H10]]; [ left; reflexivity | right ].
    now apply positive_SF.
  - now apply finite_SF.
  - now apply finite_SF.
Qed.

End FloatRest.

Lemma readFinite_finite (opts : jsval) (k : string) (d : float) :
  is_finite d = true -> is_finite (readFinite opts k d) = true.
Proof.
  intro Hd. unfold readFinite, Js.isFinite.
  destruct (Js.field opts k); try assumption.
  destruct (is_finite x) eqn:E; assumption.
Qed.

(** The values the integrator starts from are clamped numbers. *)
Lemma loadVariables_clamped (variables : list GVariable) :
  Forall (fun entry => exists y, snd entry = clampRange y)
    (fst (loadVariables variables)).
Proof.
  unfold loadVariables. rewrite loadVariables_fst. simpl.
  apply fold_left_invariant; [ | constructor ].
  intros m v Hm.
  apply (Forall_values_set (fun x => exists y, x = clampRange y)); eauto.
Qed.

Lemma loadVariables_level (variables : list GVariable) :
  Forall (fun v => v_baseline v = v_value v) variables ->
  snd (loadVariables variables) = fst (loadVariables variables).
Proof.
  intro H. unfold loadVariables. rewrite loadVariables_fst, loadVariables_snd.
  simpl. generalize (@nil (string * float)).
  induction H as [ | v rest Hv Hrest IH]; simpl; intro m; [ reflexivity | ].
  rewrite Hv. apply IH.
Qed.

Lemma influenceOf_none (values : JsMap.t float) (edges : list Edge) (id : string) :
  Forall (fun e => JsMap.has values (e_from e) = false
                   \/ JsMap.has values (e_to e) = false) edges ->
  influenceOf values edges id = 0.
Proof.
  unfold influenceOf. intro H. generalize 0.
  induction H as [ | e rest He Hrest IH]; simpl; intro total; [ reflexivity | ].
  unfold feeds at 2. destruct He as [-> | ->]; simpl; rewrite ?andb_false_r; apply IH.
Qed.

Lemma map_fixed {A : Type} (f : A -> A) (l : list A) :
  Forall (fun x => f x = x) l -> map f l = l.
Proof. induction 1; simpl; congruence. Qed.

(** X8. A state at rest stays at rest.  When every variable starts at its
    baseline and no edge joins two variables of the graph, a step
    changes nothing: every snapshot of the run equals snapshot 0 and the
    final values are the initial ones, whatever the step count, [dt] and
    [damping]. *)
Theorem equilibrium_is_kept (variables : list GVariable) (edges : list Edge)
    (opts : jsval) (simulation : Simulation) :
  Forall (fun v => v_baseline v = v_value v) variables ->
  Forall (fun e => ~ In (e_from e) (map v_id variables)
                   \/ ~ In (e_to e) (map v_id variables)) edges ->
  runEulerSimulation variables edges opts = Ok simulation ->
  finalValues simulation = fst (loadVariables variables) /\
  Forall
    (fun s => s_values s
              = s_values (captureSnapshot 0 (fst (loadVariables variables))))
    (timeSeries simulation).
Proof.
  intros Hlevel Hedges H.
  apply runEulerSimulation_Ok in H. destruct H as [_ ->].
  rewrite (loadVariables_level variables Hlevel).
  set (values := fst (loadVariables variables)).
  set (dt := readFinite (Js.default opts (VObject [])) "dt" 0.35).
  set (damping := readFinite (Js.default opts (VObject [])) "damping" 0.28).
  destruct (loadVariables_NoDup variables) as [N _]. fold values in N.
  assert (Hstep : eulerStep dt damping values edges values = values).
  { rewrite eulerStep_synchronous by exact N. unfold stepWith.
    apply map_fixed. apply Forall_forall. intros [k x] Hin. simpl.
    rewrite influenceOf_none.
    - rewrite (get_of_In values k x N Hin). simpl.
      pose proof (loadVariables_clamped variables) as C. fold values in C.
      rewrite Forall_forall in C. destruct (C _ Hin) as (y & Hy). simpl in Hy.
      rewrite FloatRest.rest_point.
      + f_equal. rewrite Hy. apply clampRange_idempotent.
      + apply readFinite_finite. reflexivity.
      + apply readFinite_finite. reflexivity.
      + rewrite Hy. apply clampRange_cases.
    - revert Hedges. apply Forall_impl. intros e [He | He].
      + left. destruct (JsMap.has values (e_from e)) eqn:E; [ | reflexivity ].
        apply has_loadVariables in E. contradiction.
      + right. destruct (JsMap.has values (e_to e)) eqn:E; [ | reflexivity ].
        apply has_loadVariables in E. contradiction. }
  destruct (eulerLoop_invariant
              (fun vals => vals = values)
              (fun s => s_values s = s_values (captureSnapshot 0 values))
              dt damping values edges
              (Z.to_nat (readSteps (Js.default opts (VObject []))))) with
    (step := 1%Z) (values := values) (series := [captureSnapshot 0%Z values])
    as [Hseries Hfinal].
  - intros vals ->. exact Hstep.
  - intros step vals ->. reflexivity.
  - reflexivity.
  - constructor; [ reflexivity | constructor ].
  - split; assumption.
Qed.

(** A variable at its baseline with an edge from an unknown node: the
    two snapshots of the run hold the same value. *)
Lemma equilibrium_is_kept_witness :
  exists simulation,
    runEulerSimulation [mkVariable "X" 7 7] [mkEdge "Z" "X" 1] scenarioOptions
      = Ok simulation /\
    Forall (fun s => s_values s = [("X", 7)]) (timeSeries simulation).
Proof.
  assert (R : exists simulation,
            runEulerSimulation [mkVariable "X" 7 7] [mkEdge "Z" "X" 1]
              scenarioOptions = Ok simulation)
    by (eexists; vm_compute; reflexivity).
  destruct R as (simulation & R). exists simulation. split; [ exact R | ].
  apply (equilibrium_is_kept [mkVariable "X" 7 7] [mkEdge "Z" "X" 1]
           scenarioOptions simulation).
  - repeat constructor.
  - constructor; [ | constructor ]. left. simpl. intros [E | []]. discriminate.
  - exact R.
Defined.

(** ** Anchoring, once more *)

(** A loop that collects one result per item. *)
Lemma forEach_collect {A B : Type} (f : A -> outcome B) (items : list A) :
  forall (acc acc' : list B),
    forEach items (fun mapped item => b <- f item ;; Ok (mapped ++ [b])) acc
      = Ok acc' <->
    exists l, acc' = acc ++ l /\ Forall2 (fun item b => f item = Ok b) items l.
Proof.
  induction items as [ | item rest IH]; simpl; intros acc acc'.
  - split.
    + intro H. inversion H. subst. exists []. split; [ now rewrite app_nil_r | constructor ].
    + intros (l & -> & H). inversion H. now rewrite app_nil_r.
  - split.
    + intro H. apply bind_Ok in H. destruct H as (s1 & H1 & H2).
      apply bind_Ok in H1. destruct H1 as (b & Hb & H1). inversion H1. subst.
      apply IH in H2. destruct H2 as (l & -> & Hl).
      exists (b :: l). split; [ now rewrite <- app_assoc | now constructor ].
    + intros (l & -> & H). inversion H as [ | x b xs bs Hb Hrest ]. subst.
      rewrite Hb. simpl. apply IH. exists bs.
      split; [ now rewrite <- app_assoc | assumption ].
Qed.

Section AnchoringAgain.

Variable NumberOfText : jsval -> float.

Lemma anchorVariable_again (initialState : jsval) (v v' : GVariable) :
  anchorVariable NumberOfText initialState v = Ok v' ->
  v_id v' = v_id v /\ anchorVariable NumberOfText initialState v' = Ok v'.
Proof.
  unfold anchorVariable.
  destruct (VARIABLE_FACTORS (v_id v)) as [factors | [ | n] | | ] eqn:F;
    try discriminate;
    try (intro E; inversion E; subst; rewrite F; split; reflexivity).
  destruct factors as [ | f fs];
    [ intro E; inversion E; subst; rewrite F; split; reflexivity | ].
  destruct (anchorValuesOf NumberOfText initialState (f :: fs)) as [ | x xs] eqn:V;
    intro E; inversion E; subst.
  - rewrite F, V. split; reflexivity.
  - cbn [v_id]. rewrite F, V. split; reflexivity.
Qed.

(** X9. Anchoring keeps the variables and their order, changing values
    and baselines only, and anchoring an anchored list again with the
    same initial state changes nothing. *)
Theorem anchoring_is_idempotent (variables : list GVariable)
    (initialState : jsval) (anchored : list GVariable) :
  applyInitialStateAnchors NumberOfText variables initialState = Ok anchored ->
  map v_id anchored = map v_id variables /\
  applyInitialStateAnchors NumberOfText anchored initialState = Ok anchored.
Proof.
  unfold applyInitialStateAnchors.
  destruct (negb (Js.truthy initialState) || negb (Js.typeof_object initialState)).
  - intro E. inversion E. subst. split; reflexivity.
  - intro H. apply forEach_collect in H. destruct H as (l & -> & Hl).
    simpl. split.
    + induction Hl as [ | v v' vs vs' Hv Hrest IH]; simpl; [ reflexivity | ].
      destruct (anchorVariable_again _ _ _ Hv) as [-> _]. now rewrite IH.
    + apply forEach_collect. exists l. split; [ reflexivity | ].
      induction Hl as [ | v v' vs vs' Hv Hrest IH]; constructor; [ | assumption ].
      now destruct (anchorVariable_again _ _ _ Hv).
Qed.

Lemma applyInitialStateAnchors_ids (variables : list GVariable)
    (initialState : jsval) (anchored : list GVariable) :
  applyInitialStateAnchors NumberOfText variables initialState = Ok anchored ->
  map v_id anchored = map v_id variables.
Proof.
  unfold applyInitialStateAnchors.
  destruct (negb (Js.truthy initialState) || negb (Js.typeof_object initialState)).
  - intro E. inversion E. reflexivity.
  - intro H. apply forEach_collect in H. destruct H as (l & -> & Hl). simpl.
    induction Hl as [ | v v' vs vs' Hv Hrest IH]; simpl; [ reflexivity | ].
    destruct (anchorVariable_again _ _ _ Hv) as [-> _]. now rewrite IH.
Qed.

Lemma anchorVariable_cases (initialState : jsval) (v : GVariable) :
  (namesFunction (v_id v) = true /\
   anchorVariable NumberOfText initialState v = TypeError) \/
  (namesFunction (v_id v) = false /\
   exists v', anchorVariable NumberOfText initialState v = Ok v').
Proof.
  unfold namesFunction, anchorVariable.
  destruct (VARIABLE_FACTORS (v_id v)) as [factors | [ | n] | | ];
    try (right; split; [ reflexivity | eexists; reflexivity ]).
  - destruct factors as [ | f fs];
      [ right; split; [ reflexivity | eexists; reflexivity ] | ].
    destruct (anchorValuesOf NumberOfText initialState (f :: fs));
      right; split; try reflexivity; eexists; reflexivity.
  - left. split; reflexivity.
Qed.

Lemma anchoring_outcome (variables : list GVariable) (initialState : jsval) :
  if anchoringThrows initialState variables
  then applyInitialStateAnchors NumberOfText variables initialState = TypeError
  else exists anchored,
         applyInitialStateAnchors NumberOfText variables initialState = Ok anchored.
Proof.
  unfold anchoringThrows, applyInitialStateAnchors.
  destruct (Js.truthy initialState); simpl; [ | eauto ].
  destruct (Js.typeof_object initialState); simpl; [ | eauto ].
  assert (G : forall vs acc,
            if existsb (fun v => namesFunction (v_id v)) vs
            then forEach vs
                   (fun mapped variable =>
                      anchored <- anchorVariable NumberOfText initialState variable ;;
                      Ok (mapped ++ [anchored])) acc = TypeError
            else exists anchored,
                   forEach vs
                     (fun mapped variable =>
                        anchored <- anchorVariable NumberOfText initialState
                                      variable ;;
                        Ok (mapped ++ [anchored])) acc = Ok anchored).
  { induction vs as [ | v vs IH]; simpl; intro acc; [ eauto | ].
    destruct (anchorVariable_cases initialState v) as [[Hn Ht] | [Hn (v' & Hv)]];
      rewrite Hn; simpl.
    - rewrite Ht. reflexivity.
    - rewrite Hv. simpl. apply IH. }
  apply G.
Qed.


End AnchoringAgain.

(** Anchoring the variables of the anchoring example twice. *)
Lemma anchoring_is_idempotent_witness :
  applyInitialStateAnchors noNumericText
    [mkVariable "Isolation" 3.5 3.5; mkVariable "Custom" 2 2]
    (VObject [ ("emotion", VNumber 3); ("meaning", VNumber 4) ])
  = Ok [mkVariable "Isolation" 3.5 3.5; mkVariable "Custom" 2 2].
Proof.
  apply (anchoring_is_idempotent noNumericText
           [mkVariable "Isolation" 9 9; mkVariable "Custom" 2 2]
           (VObject [ ("emotion", VNumber 3); ("meaning", VNumber 4) ])).
  vm_compute. reflexivity.
Defined.


(** ** The projection onto the five factors *)

(** The projection reads the eight ids of the template and nothing else. *)
Lemma deriveFiveFactorState_reads (finalValues finalValues' : JsMap.t float) :
  (forall id, In id canonicalIds ->
              getValue finalValues id = getValue finalValues' id) ->
  deriveFiveFactorState finalValues = deriveFiveFactorState finalValues'.
Proof.
  intro H.
  assert (H1 := H "Isolation" ltac:(simpl; tauto)).
  assert (H2 := H "Belonging" ltac:(simpl; tauto)).
  assert (H3 := H "HPA" ltac:(simpl; tauto)).
  assert (H4 := H "Inflammation" ltac:(simpl; tauto)).
  assert (H5 := H "Neurodegeneration" ltac:(simpl; tauto)).
  assert (H6 := H "Withdrawal" ltac:(simpl; tauto)).
  assert (H7 := H "VagalTone" ltac:(simpl; tauto)).
  assert (H8 := H "Meaning" ltac:(simpl; tauto)).
  unfold deriveFiveFactorState, aggregate. cbn [map].
  rewrite H1, H2, H3, H4, H5, H6, H7, H8. reflexivity.
Qed.

Lemma canonical_not_proto (id : string) : In id canonicalIds -> id <> "__proto__".
Proof.
  simpl. intros H E. subst.
  repeat (destruct H as [H | H]; [ discriminate | ]). exact H.
Qed.

Lemma finalValues_NoDup (variables : list GVariable) (edges : list Edge)
    (opts : jsval) (simulation : Simulation) :
  runEulerSimulation variables edges opts = Ok simulation ->
  JsMap.keys (finalValues simulation) = JsMap.keys (fst (loadVariables variables)).
Proof.
  intro H. apply runEulerSimulation_Ok in H. destruct H as [_ ->].
  match goal with
  | |- context [eulerLoop ?n ?s ?dt ?d ?b ?e ?v ?ser] =>
      destruct (eulerLoop_invariant
                  (fun values => JsMap.keys values = JsMap.keys v)
                  (fun _ => True) dt d b e n) with
        (step := s) (values := v) (series := ser) as [_ K]
  end; auto.
  intros values Hv. now rewrite eulerStep_keys.
Qed.

Section Projection.

Variable NumberOfText : jsval -> float.

(** X11. The new state is a function of the last snapshot alone: the
    series is never empty, and projecting the values of its last
    snapshot gives the [newState] of the result. *)
Theorem new_state_reads_last_snapshot (causalGraph opts : jsval)
    (result : Result) :
  runCausalSimulation NumberOfText causalGraph opts = Ok result ->
  exists earlier final,
    r_timeSeries result = earlier ++ [final] /\
    r_newState result = deriveFiveFactorState (s_values final).
Proof.
  intro Hrun.
  destruct (runCausalSimulation_stages NumberOfText _ _ _ Hrun)
    as (variables & edges & initialState & anchored & simulation & loops
        & _ & _ & _ & Hsim & _ & ->).
  simpl.
  pose proof (finalValues_NoDup _ _ _ _ Hsim) as K.
  destruct (loadVariables_NoDup anchored) as [N _]. rewrite <- K in N.
  apply runEulerSimulation_Ok in Hsim. destruct Hsim as [_ Hsim].
  match type of Hsim with
  | _ = eulerLoop ?n ?s ?dt ?d ?b ?e ?v ?ser =>
      destruct (eulerLoop_last dt d b e n s v ser) as (earlier & st & L)
  end.
  { exists [], 0%Z. reflexivity. }
  rewrite <- Hsim in L.
  exists earlier, (captureSnapshot st (finalValues simulation)).
  split; [ exact L | ].
  apply deriveFiveFactorState_reads. intros id Hid. unfold getValue.
  rewrite captureSnapshot_get; [ reflexivity | exact N | ].
  now apply canonical_not_proto.
Qed.

(** X12. The five factors are read off the eight ids of the template.
    A graph whose variables carry none of them gets the neutral state,
    5 for every factor, whatever its edges, its values and the options. *)
Theorem custom_graph_state_is_neutral (causalGraph opts : jsval)
    (variables : list GVariable) (edges : list Edge) (result : Result) :
  resolveGraph NumberOfText (Js.default causalGraph (VObject []))
    = Ok (variables, edges) ->
  (forall id, In id canonicalIds -> ~ In id (map v_id variables)) ->
  runCausalSimulation NumberOfText causalGraph opts = Ok result ->
  r_newState result = mkState 5 5 5 5 5.
Proof.
  intros Hgraph Hcustom Hrun.
  destruct (runCausalSimulation_stages NumberOfText _ _ _ Hrun)
    as (variables' & edges' & initialState & anchored & simulation & loops
        & Hgraph' & _ & Hanchor & Hsim & _ & ->).
  rewrite Hgraph in Hgraph'. inversion Hgraph'. subst variables' edges'.
  simpl.
  change (mkState 5 5 5 5 5) with (deriveFiveFactorState []).
  apply deriveFiveFactorState_reads. intros id Hid. unfold getValue. simpl.
  replace (JsMap.get (finalValues simulation) id) with (@None float);
    [ reflexivity | ].
  symmetry. apply get_None.
  rewrite (finalValues_NoDup _ _ _ _ Hsim). intro Hin.
  apply has_In, has_loadVariables in Hin.
  rewrite (applyInitialStateAnchors_ids NumberOfText _ _ _ Hanchor) in Hin.
  exact (Hcustom id Hid Hin).
Qed.

End Projection.

(** The scenario's graph has the one variable [X]: its new state is
    neutral. *)
Lemma custom_graph_state_is_neutral_witness :
  exists result,
    runCausalSimulation noNumericText scenarioGraph scenarioOptions = Ok result /\
    r_newState result = mkState 5 5 5 5 5.
Proof.
  assert (R : exists result,
            runCausalSimulation noNumericText scenarioGraph scenarioOptions
              = Ok result)
    by (eexists; vm_compute; reflexivity).
  destruct R as (result & R). exists result. split; [ exact R | ].
  apply (custom_graph_state_is_neutral noNumericText scenarioGraph scenarioOptions
           [mkVariable "X" 5 5] [mkEdge "X" "X" (-0.5)] result).
  - vm_compute. reflexivity.
  - simpl. intros id Hid [E | []]. subst id.
    repeat (destruct Hid as [Hid | Hid]; [ discriminate | ]). exact Hid.
  - exact R.
Defined.

(** The last of the two snapshots of the scenario gives its new state. *)
Lemma new_state_reads_last_snapshot_witness :
  exists result earlier final,
    runCausalSimulation noNumericText scenarioGraph scenarioOptions = Ok result /\
    r_timeSeries result = earlier ++ [final] /\
    r_newState result = deriveFiveFactorState (s_values final).
Proof.
  assert (R : exists result,
            runCausalSimulation noNumericText scenarioGraph scenarioOptions
              = Ok result)
    by (eexists; vm_compute; reflexivity).
  destruct R as (result & R).
  destruct (new_state_reads_last_snapshot noNumericText _ _ _ R)
    as (earlier & final & L & S).
  exists result, earlier, final. auto.
Defined.

(** ** The canonical key of a cycle *)

Lemma ltb_trans (a b c : string) :
  Js.lessThan a b = true -> Js.lessThan b c = true -> Js.lessThan a c = true.
Proof. apply OrderFacts.lessThan_trans. Qed.

Lemma ltb_irrefl (a : string) : Js.lessThan a a = false.
Proof. apply OrderFacts.lessThan_irrefl. Qed.

Lemma compareRotations_refl (a : list string) : compareRotations a a = Eq.
Proof.
  induction a as [ | x a IH]; simpl; [ reflexivity | ].
  now rewrite String.eqb_refl.
Qed.

Lemma compareRotations_Eq (a : list string) :
  forall b, List.length a = List.length b -> compareRotations a b = Eq -> a = b.
Proof.
  induction a as [ | x a IH]; intros [ | y b]; simpl; try discriminate;
    [ reflexivity | ].
  intros L. destruct (x =? y)%string eqn:E.
  - apply String.eqb_eq in E. subst. intro H. f_equal. apply IH; [ lia | exact H ].
  - destruct (Js.lessThan x y); discriminate.
Qed.

Lemma compareRotations_flip (a : list string) :
  forall b, List.length a = List.length b ->
            compareRotations b a = CompOpp (compareRotations a b).
Proof.
  induction a as [ | x a IH]; intros [ | y b]; simpl; try discriminate;
    [ reflexivity | ].
  intros L. rewrite (String.eqb_sym y x).
  destruct (x =? y)%string eqn:E.
  - apply IH. lia.
  - apply String.eqb_neq in E. rewrite (ltb_flip x y E).
    destruct (Js.lessThan x y); reflexivity.
Qed.

Lemma compareRotations_trans (a : list string) :
  forall b c,
    List.length a = List.length b -> List.length b = List.length c ->
    compareRotations a b <> Gt -> compareRotations b c <> Gt ->
    compareRotations a c <> Gt.
Proof.
  induction a as [ | x a IH]; intros [ | y b] [ | z c]; simpl; try discriminate.
  intros L1 L2.
  destruct (x =? y)%string eqn:Exy.
  - apply String.eqb_eq in Exy. subst y.
    destruct (x =? z)%string eqn:Exz.
    + apply IH; lia.
    + intros _ H. exact H.
  - destruct (Js.lessThan x y) eqn:Lxy; [ intros _ | congruence ].
    destruct (y =? z)%string eqn:Eyz.
    + apply String.eqb_eq in Eyz. subst z. rewrite Exy, Lxy. discriminate.
    + destruct (Js.lessThan y z) eqn:Lyz; [ intros _ | congruence ].
      pose proof (ltb_trans _ _ _ Lxy Lyz) as Lxz.
      destruct (x =? z)%string eqn:Exz.
      * apply String.eqb_eq in Exz. subst z. rewrite ltb_irrefl in Lxz. discriminate.
      * rewrite Lxz. discriminate.
Qed.

(** The sort puts a smallest element first. *)
Lemma sortRotations_smallest (n : nat) (l : list (list string)) :
  Forall (fun x => List.length x = n) l ->
  l <> [] ->
  exists h rest, sortRotations l = h :: rest /\ smallest h l.
Proof.
  induction 1 as [ | r l Hr Hl IH]; [ contradiction | ]. intros _.
  change (sortRotations (r :: l)) with (insertRotation r (sortRotations l)).
  destruct l as [ | r' l'].
  - exists r, []. split; [ reflexivity | ].
    split; [ left; reflexivity | ].
    constructor; [ | constructor ]. rewrite compareRotations_refl. discriminate.
  - destruct (IH ltac:(discriminate)) as (h & rest & Hs & Hin & Hmin).
    assert (Lh : List.length h = n).
    { rewrite Forall_forall in Hl. now apply Hl. }
    rewrite Hs. cbn [insertRotation].
    destruct (compareRotations r h) eqn:C.
    + exists r, (h :: rest). split; [ reflexivity | ].
      split; [ left; reflexivity | ].
      constructor; [ rewrite compareRotations_refl; discriminate | ].
      rewrite Forall_forall in *. intros x Hx.
      apply (compareRotations_trans r h x); try congruence.
      * rewrite Lh. symmetry. now apply Hl.
      * now apply Hmin.
    + exists r, (h :: rest). split; [ reflexivity | ].
      split; [ left; reflexivity | ].
      constructor; [ rewrite compareRotations_refl; discriminate | ].
      rewrite Forall_forall in *. intros x Hx.
      apply (compareRotations_trans r h x); try congruence.
      * rewrite Lh. symmetry. now apply Hl.
      * now apply Hmin.
    + exists h, (insertRotation r rest). split; [ reflexivity | ].
      split; [ right; exact Hin | ].
      constructor; [ | exact Hmin ].
      rewrite (compareRotations_flip r h) by congruence. rewrite C. discriminate.
Qed.

Lemma smallest_unique (n : nat) (l l' : list (list string)) (h h' : list string) :
  Forall (fun x => List.length x = n) l ->
  (forall x, In x l <-> In x l') ->
  smallest h l -> smallest h' l' -> h = h'.
Proof.
  intros Hl Hsame [Hin Hmin] [Hin' Hmin'].
  rewrite Forall_forall in *.
  assert (L : List.length h = List.length h').
  { rewrite (Hl h Hin). symmetry. apply Hl. now apply Hsame. }
  apply compareRotations_Eq; [ exact L | ].
  pose proof (Hmin h' (proj2 (Hsame h') Hin')) as A.
  pose proof (Hmin' h (proj1 (Hsame h) Hin)) as B.
  rewrite (compareRotations_flip h h' L) in B.
  destruct (compareRotations h h'); simpl in *; congruence.
Qed.

(** *** Rotations *)

Lemma isRotation_sym (l x : list string) : isRotation l x -> isRotation x l.
Proof. intros (a & b & -> & ->). exists b, a. auto. Qed.

Lemma isRotation_trans (l x y : list string) :
  isRotation l x -> isRotation x y -> isRotation l y.
Proof.
  intros (a & b & -> & ->) (c & d & E & ->).
  apply app_eq_app in E. destruct E as (e & [[-> ->] | [-> ->]]).
  - exists (a ++ c), e. rewrite <- !app_assoc. auto.
  - exists e, (d ++ b). rewrite <- !app_assoc. auto.
Qed.

Lemma isRotation_length (l x : list string) :
  isRotation l x -> List.length x = List.length l.
Proof. intros (a & b & -> & ->). rewrite !length_app. lia. Qed.

Lemma rotate_isRotation (i : nat) (l : list string) : isRotation l (rotate i l).
Proof.
  exists (firstn i l), (skipn i l). split; [ | reflexivity ].
  symmetry. apply firstn_skipn.
Qed.

Lemma rotationsOf_In (l x : list string) :
  l <> [] -> (In x (rotationsOf l) <-> isRotation l x).
Proof.
  intro Hl. unfold rotationsOf. rewrite in_map_iff. split.
  - intros (i & <- & _). apply (rotate_isRotation i l).
  - intros (a & b & -> & ->). destruct b as [ | y b].
    + exists 0%nat. rewrite app_nil_r. simpl. rewrite app_nil_r.
      split; [ reflexivity | ]. apply in_seq. destruct a; [ contradiction | ].
      simpl. lia.
    + exists (List.length a). split.
      * rewrite skipn_app, firstn_app, Nat.sub_diag, skipn_all, firstn_all. simpl.
        now rewrite app_nil_r.
      * apply in_seq. rewrite length_app. simpl. lia.
Qed.

Lemma rotationsOf_length (l : list string) :
  Forall (fun x => List.length x = List.length l) (rotationsOf l).
Proof.
  apply Forall_forall. intros x Hx. unfold rotationsOf in Hx.
  apply in_map_iff in Hx. destruct Hx as (i & <- & _).
  apply (isRotation_length l _ (rotate_isRotation i l)).
Qed.

Lemma rotationsOf_nonempty (l : list string) : l <> [] -> rotationsOf l <> [].
Proof. destruct l; [ contradiction | discriminate ]. Qed.

(** The key of a node sequence is the text of the smallest rotation of
    the sequence without its last entry. *)
Lemma canonicalizeCycle_snoc (l : list string) (x : string) :
  l <> [] ->
  exists canonical,
    smallest canonical (rotationsOf l) /\
    canonicalizeCycle (l ++ [x])
      = Some (String.concat "->" (canonical ++ firstn 1 canonical)).
Proof.
  intro Hl.
  destruct (sortRotations_smallest (List.length l) (rotationsOf l)
              (rotationsOf_length l) (rotationsOf_nonempty l Hl))
    as (h & rest & Hs & Hmin).
  exists h. split; [ exact Hmin | ].
  unfold canonicalizeCycle.
  rewrite removelast_last, Hs.
  destruct (l ++ [x]) eqn:E; [ destruct l; discriminate | reflexivity ].
Qed.

Lemma canonicalizeCycle_closed (l : list string) :
  l <> [] ->
  exists canonical,
    smallest canonical (rotationsOf l) /\
    canonicalizeCycle (l ++ firstn 1 l)
      = Some (String.concat "->" (canonical ++ firstn 1 canonical)).
Proof.
  intro Hl. destruct l as [ | x l]; [ contradiction | ].
  change (firstn 1 (x :: l)) with [x]. now apply canonicalizeCycle_snoc.
Qed.

Lemma joined_not_empty (canonical : list string) :
  canonical <> [] ->
  String.concat "->" (canonical ++ firstn 1 canonical) <> "".
Proof.
  destruct canonical as [ | a rest]; [ contradiction | ]. intros _.
  change (firstn 1 (a :: rest)) with [a]. simpl.
  destruct (rest ++ [a]) eqn:E; [ destruct rest; discriminate | ].
  destruct a; discriminate.
Qed.

(** X14. A node sequence has a key unless it has fewer than two entries.
    The key is never empty: it is the text, joined by ["->"] and closed
    by its first node, of a rotation of the sequence without its last
    entry that the comparator puts before every other rotation of it.
    The comparator goes by the code units of the ids, so that an id
    which starts beyond U+FFFF comes before one which starts at
    U+FF5E. *)
Theorem canonical_key_is_smallest_rotation (nodes : list string) :
  (canonicalizeCycle nodes = None <-> (List.length nodes <= 1)%nat) /\
  (forall key,
     canonicalizeCycle nodes = Some key ->
     key <> "" /\
     exists canonical,
       isRotation (removelast nodes) canonical /\
       (forall r, isRotation (removelast nodes) r ->
                  compareRotations canonical r <> Gt) /\
       key = String.concat "->" (canonical ++ firstn 1 canonical)) /\
  canonicalizeCycle ["～"; "😀"; "～"] = Some "😀->～->😀" /\
  canonicalizeCycle ["b"; "a"; "B"; "b"] = Some "B->b->a->B".
Proof.
  assert (Samples : canonicalizeCycle ["～"; "😀"; "～"] = Some "😀->～->😀" /\
                    canonicalizeCycle ["b"; "a"; "B"; "b"] = Some "B->b->a->B")
    by (split; vm_compute; reflexivity).
  destruct (empty_or_not nodes) as [-> | Hn].
  { split; [ split; [ simpl; lia | reflexivity ] | ].
    split; [ discriminate | exact Samples ]. }
  destruct (exists_last Hn) as (l & x & ->).
  rewrite removelast_last.
  destruct (empty_or_not l) as [-> | Hl].
  { split; [ split; [ simpl; lia | reflexivity ] | ].
    split; [ discriminate | exact Samples ]. }
  destruct (canonicalizeCycle_snoc l x Hl) as (h & [Hin Hmin] & ->).
  split; [ | split; [ | exact Samples ] ].
  - split; [ discriminate | ].
    rewrite length_app. simpl. destruct l; [ contradiction | simpl; lia ].
  - intros key E. inversion E. subst key.
    apply (rotationsOf_In l h Hl) in Hin.
    split.
    + apply joined_not_empty. intro Eh. subst h.
      apply isRotation_length in Hin. destruct l; [ contradiction | discriminate ].
    + exists h. split; [ exact Hin | ]. split; [ | reflexivity ].
      intros r Hr. rewrite Forall_forall in Hmin. apply Hmin.
      now apply rotationsOf_In.
Qed.

(** X13. The key of a cycle does not depend on the node the traversal
    entered it by: a closed node sequence and each of its rotations get
    the same key. *)
Theorem canonical_key_rotation (simple : list string) (k : nat) :
  canonicalizeCycle (rotate k simple ++ firstn 1 (rotate k simple)) =
  canonicalizeCycle (simple ++ firstn 1 simple).
Proof.
  destruct (empty_or_not simple) as [-> | Hl].
  { unfold rotate. rewrite skipn_nil, firstn_nil. reflexivity. }
  pose proof (rotate_isRotation k simple) as R.
  assert (Hr : rotate k simple <> []).
  { intro E. apply isRotation_length in R. rewrite E in R.
    destruct simple; [ contradiction | discriminate ]. }
  destruct (canonicalizeCycle_closed simple Hl) as (h & Hh & ->).
  destruct (canonicalizeCycle_closed (rotate k simple) Hr) as (h' & Hh' & ->).
  assert (E : h' = h).
  { apply (smallest_unique (List.length simple)
             (rotationsOf (rotate k simple)) (rotationsOf simple));
      try assumption.
    - rewrite <- (isRotation_length _ _ R). apply rotationsOf_length.
    - intro x. rewrite !rotationsOf_In by assumption. split; intro H.
      + exact (isRotation_trans _ _ _ R H).
      + exact (isRotation_trans _ _ _ (isRotation_sym _ _ R) H). }
  now rewrite E.
Qed.

(** ** What the detector reports *)

(** X15. What the detector returns is sound: every record is a simple
    cycle of the graph (its nodes are distinct, each is joined to the
    next and the last to the first by an edge of the graph carrying the
    recorded weight), it has as many weights as nodes, its type follows
    from the signs of its weights, and no two records have the same
    key. *)
Theorem detected_cycles_are_simple (edges : list Edge) (loops : list CycleRecord) :
  detectCycles edges = Some loops ->
  NoDup (map keyOf loops) /\
  Forall
    (fun r =>
       c_nodes r <> [] /\ NoDup (c_nodes r) /\
       closedWalk edges (c_nodes r) (c_weights r) /\
       List.length (c_weights r) = List.length (c_nodes r) /\
       c_type r = typeOf (c_weights r))
    loops.
Proof.
  intro H.
  destruct (detectCycles_ok edges) as (found & Hf & Hok & Hnd).
  rewrite H in Hf. inversion Hf. subst loops. clear Hf.
  split; [ now apply (detectCycles_keys edges) | ].
  unfold JsMap.values. apply Forall_map.
  revert Hok. apply Forall_impl. intros [key r] (_ & Ht & _ & Hw & Hn & He).
  simpl. repeat split; try assumption.
  apply walk_length in Hw. rewrite length_app in Hw.
  revert Hw He. destruct (c_nodes r); intros Hw He; [ contradiction | ].
  simpl in Hw. simpl. lia.
Qed.

(** The five records of the template. *)
Lemma detected_cycles_are_simple_witness :
  exists loops,
    detectCycles TEMPLATE_EDGES = Some loops /\
    List.length loops = 5%nat /\
    NoDup (map keyOf loops) /\
    Forall
      (fun r =>
         c_nodes r <> [] /\ NoDup (c_nodes r) /\
         closedWalk TEMPLATE_EDGES (c_nodes r) (c_weights r) /\
         List.length (c_weights r) = List.length (c_nodes r) /\
         c_type r = typeOf (c_weights r))
      loops.
Proof.
  assert (R : exists loops,
            detectCycles TEMPLATE_EDGES = Some loops /\
            List.length loops = 5%nat)
    by (eexists; split; vm_compute; reflexivity).
  destruct R as (loops & R & L). exists loops.
  split; [ exact R | ]. split; [ exact L | ].
  exact (detected_cycles_are_simple TEMPLATE_EDGES loops R).
Defined.

(** *** Every simple cycle is found *)

Lemma visitEdges_None (visitNext : string -> Dfs -> option Dfs) (maxAbs : float)
    (outgoing : list (string * float)) :
  fold_left (visitEdge visitNext maxAbs) outgoing None = None.
Proof. induction outgoing; simpl; auto. Qed.

Lemma closeCycle_grows (maxAbs : float) (to : string) (idx : nat) (st : Dfs) :
  incl (JsMap.keys (seen st)) (JsMap.keys (seen (closeCycle maxAbs to idx st))).
Proof.
  unfold closeCycle.
  destruct (canonicalizeCycle _) as [key | ]; [ | apply incl_refl ].
  destruct (_ && _); [ | apply incl_refl ].
  simpl. rewrite keys_set.
  destruct (JsMap.has (seen st) key); [ apply incl_refl | ].
  apply incl_appl, incl_refl.
Qed.

Lemma closeCycle_records (maxAbs : float) (to : string) (idx : nat) (st : Dfs)
    (key : string) :
  canonicalizeCycle (skipn idx (stack st) ++ [to]) = Some key ->
  key <> "" ->
  In key (JsMap.keys (seen (closeCycle maxAbs to idx st))).
Proof.
  intros Hk Hne. unfold closeCycle. rewrite Hk.
  apply String.eqb_neq in Hne. rewrite Hne. simpl.
  destruct (JsMap.has (seen st) key) eqn:E; simpl.
  - now apply has_In.
  - rewrite keys_set, E. apply in_or_app. right. left. reflexivity.
Qed.

Lemma visitEdges_grows (visitNext : string -> Dfs -> option Dfs) (maxAbs : float) :
  (forall to st st', visitNext to st = Some st' ->
                     incl (JsMap.keys (seen st)) (JsMap.keys (seen st'))) ->
  forall outgoing st st',
    fold_left (visitEdge visitNext maxAbs) outgoing (Some st) = Some st' ->
    incl (JsMap.keys (seen st)) (JsMap.keys (seen st')).
Proof.
  intro Hnext. induction outgoing as [ | [to w] rest IH]; intros st st' H.
  - simpl in H. inversion H. apply incl_refl.
  - cbn [fold_left] in H. rewrite visitEdge_step in H. cbv zeta in H.
    set (st1 := mkDfs (stack st) (edgeStack st ++ [w]) (seen st)) in *.
    destruct (match indexOf (stack st1) to with
              | Some idx =>
                  if (1 <=? List.length (stack st1) - idx)%nat
                  then Some (closeCycle maxAbs to idx st1)
                  else Some st1
              | None => visitNext to st1
              end) as [st2 | ] eqn:E;
      [ | rewrite visitEdges_None in H; discriminate ].
    apply IH in H. simpl in H.
    apply incl_tran with (m := JsMap.keys (seen st2)); [ | exact H ].
    destruct (indexOf (stack st1) to) as [idx | ].
    + destruct (1 <=? List.length (stack st1) - idx)%nat;
        inversion E; subst; [ apply (closeCycle_grows maxAbs to idx st1) | ].
      apply incl_refl.
    + apply (Hnext to st1 st2 E).
Qed.

Lemma visit_grows (adjacency : JsMap.t (list (string * float))) (maxAbs : float)
    (fuel : nat) :
  forall current st st',
    visit fuel adjacency maxAbs current st = Some st' ->
    incl (JsMap.keys (seen st)) (JsMap.keys (seen st')).
Proof.
  induction fuel as [ | fuel IH]; intros current st st' H; [ discriminate | ].
  rewrite visit_S in H.
  destruct (fold_left _ _ _) as [st2 | ] eqn:F; [ | discriminate ].
  inversion H. subst. simpl.
  apply (visitEdges_grows _ maxAbs IH) in F. exact F.
Qed.

Lemma visitRoots_grows (adjacency : JsMap.t (list (string * float)))
    (maxAbs : float) (fuel : nat) (roots : list string) :
  forall found found',
    fold_left (visitRoot fuel adjacency maxAbs) roots (Some found) = Some found' ->
    incl (JsMap.keys found) (JsMap.keys found').
Proof.
  induction roots as [ | root roots IH]; simpl; intros found found' H.
  - inversion H. apply incl_refl.
  - destruct (visit fuel adjacency maxAbs root (mkDfs [] [] found)) as [st | ] eqn:V.
    + apply IH in H. apply visit_grows in V. simpl in V.
      eapply incl_tran; eassumption.
    + assert (N : forall l, fold_left (visitRoot fuel adjacency maxAbs) l None = None)
        by (induction l; simpl; auto).
      rewrite N in H. discriminate.
Qed.

Lemma walk_nodes (edges : list Edge) (ns : list string) (ws : list float) :
  walk edges ns ws -> (2 <= List.length ns)%nat -> incl ns (nodesOf edges).
Proof.
  induction 1 as [ n | n m rest w ws Hin Hw IH ]; simpl; intro L; [ lia | ].
  intros x [<- | Hx].
  - apply nodesOf_In. exists (mkEdge n m w). auto.
  - destruct rest as [ | p rest].
    + destruct Hx as [<- | []]. apply nodesOf_In. exists (mkEdge n m w). auto.
    + apply IH; [ simpl; lia | exact Hx ].
Qed.

Lemma NoDup_prefix {A : Type} (l l' : list A) : NoDup (l ++ l') -> NoDup l.
Proof.
  induction l as [ | x l IH]; simpl; intro H; [ constructor | ].
  inversion H. subst. constructor; [ | auto ].
  intro K. apply H2. apply in_or_app. now left.
Qed.

Section Completeness.

Variable edges : list Edge.

Local Abbreviation adjacency := (buildAdjacency edges).
Local Abbreviation nodes := (nodesOf edges).
Local Abbreviation maxAbs := (maxAbsOf edges).

Lemma edge_outgoing (current to : string) (w : float) :
  In (mkEdge current to w) edges -> In (to, w) (outgoingOf adjacency current).
Proof.
  intro H. rewrite outgoingOf_buildAdjacency.
  apply in_map_iff. exists (mkEdge current to w). split; [ reflexivity | ].
  apply filter_In. split; [ exact H | ]. simpl. apply String.eqb_refl.
Qed.

(** A traversal from [current] closes every cycle that a simple path
    from [current] leads to: when the path [ext] starts at [current],
    avoids the nodes already on the stack, and its last node has an
    edge to a node [t] of the stack or of the path, the key of the cycle
    entered at [t] is recorded when the traversal returns. *)
Lemma visit_finds (fuel : nat) :
  forall (more : list string) (current : string) (st st' : Dfs) (t : string)
         (ws : list float) (idx : nat) (key : string),
    NoDup (stack st ++ current :: more) ->
    incl (stack st ++ current :: more) nodes ->
    (List.length nodes <= fuel + List.length (stack st))%nat ->
    walk edges (stack st ++ [current]) (edgeStack st) ->
    seen_ok edges (seen st) ->
    walk edges ((current :: more) ++ [t]) ws ->
    indexOf (stack st ++ current :: more) t = Some idx ->
    canonicalizeCycle (skipn idx (stack st ++ current :: more) ++ [t]) = Some key ->
    key <> "" ->
    visit fuel adjacency maxAbs current st = Some st' ->
    In key (JsMap.keys (seen st')).
Proof.
  induction fuel as [ | fuel IH];
    intros more current st st' t ws idx key Hnd Hincl Hfuel Hpath Hseen Hext
           Hidx Hkey Hne Hvisit; [ discriminate | ].
  rewrite visit_S in Hvisit.
  destruct (fold_left _ _ _) as [stF | ] eqn:F; [ | discriminate ].
  inversion Hvisit. subst st'. simpl. clear Hvisit.
  assert (Hnd0 : NoDup (stack st ++ [current])).
  { apply (NoDup_prefix _ more). rewrite <- app_assoc. exact Hnd. }
  assert (Hincl0 : incl (stack st ++ [current]) nodes).
  { intros x Hx. apply Hincl. apply in_app_or in Hx. apply in_or_app.
    destruct Hx as [Hx | [<- | []]]; [ now left | right; now left ]. }
  assert (Hnext : forall to st1,
            stack st1 = stack st ++ [current] ->
            ~ In to (stack st ++ [current]) ->
            In to nodes ->
            walk edges ((stack st ++ [current]) ++ [to]) (edgeStack st1) ->
            seen_ok edges (seen st1) ->
            exists st2,
              visit fuel adjacency maxAbs to st1 = Some st2 /\
              stack st2 = stack st1 /\ edgeStack st2 = edgeStack st1 /\
              seen_ok edges (seen st2)).
  { intros to st1 Hst1 Hnin Hto Hw1 Hseen1.
    apply (visit_ok edges fuel to st1); rewrite ?Hst1; try assumption.
    - apply NoDup_app; [ assumption | constructor; [ simpl; tauto | constructor ] | ].
      intros x Hx [<- | []]. contradiction.
    - intros x Hx. apply in_app_or in Hx.
      destruct Hx as [Hx | [<- | []]]; [ now apply Hincl0 | assumption ].
    - rewrite length_app. simpl. lia. }
  (* the edge that the path takes out of [current] *)
  assert (Hedge : exists next w ws',
            ws = w :: ws' /\ In (mkEdge current next w) edges /\
            ((more = [] /\ next = t /\ ws' = []) \/
             (exists more', more = next :: more' /\
                            walk edges ((next :: more') ++ [t]) ws'))).
  { destruct more as [ | next more']; simpl in Hext.
    - inversion Hext as [ | n m rest w ws' Hin Hrest ]. subst.
      inversion Hrest. subst. exists t, w, [].
      split; [ reflexivity | ]. split; [ exact Hin | ]. left. auto.
    - inversion Hext as [ | n m rest w ws' Hin Hrest ]. subst.
      exists next, w, ws'. split; [ reflexivity | ]. split; [ exact Hin | ].
      right. exists more'. auto. }
  destruct Hedge as (next & w & ws' & -> & Hin & Hcase).
  destruct (in_split _ _ (edge_outgoing current next w Hin)) as (pre & post & Hout).
  rewrite Hout, fold_left_app in F.
  destruct (visitEdges_ok edges (visit fuel adjacency maxAbs) (stack st) current
              (edgeStack st) Hnd0 Hpath Hnext pre
              (mkDfs (stack st ++ [current]) (edgeStack st) (seen st)))
    as (stA & HA & HsA & HeA & HkA); try reflexivity; try assumption.
  { intros to w' Hp. apply (outgoing_edge edges).
    rewrite Hout. apply in_or_app. now left. }
  rewrite HA in F. cbn [fold_left] in F. rewrite visitEdge_step in F.
  cbv zeta in F.
  set (st1 := mkDfs (stack stA) (edgeStack stA ++ [w]) (seen stA)) in *.
  destruct (match indexOf (stack st1) next with
            | Some i =>
                if (1 <=? List.length (stack st1) - i)%nat
                then Some (closeCycle maxAbs next i st1)
                else Some st1
            | None => visit fuel adjacency maxAbs next st1
            end) as [st2 | ] eqn:E;
    [ | rewrite visitEdges_None in F; discriminate ].
  apply (visitEdges_grows _ maxAbs (visit_grows adjacency maxAbs fuel)) in F.
  simpl in F. apply F. clear F.
  destruct Hcase as [(-> & -> & ->) | (more' & -> & Hrest)].
  - (* the edge closes the cycle *)
    assert (S1 : stack st1 = stack st ++ [current]) by exact HsA.
    rewrite S1, Hidx in E.
    destruct (indexOf_Some _ _ _ Hidx) as [Hlt _].
    replace (1 <=? List.length (stack st ++ [current]) - idx)%nat with true in E
      by (symmetry; apply Nat.leb_le; lia).
    inversion E. subst st2.
    apply closeCycle_records; [ | assumption ].
    rewrite S1. exact Hkey.
  - (* the path goes on through [next] *)
    assert (S1 : stack st1 = stack st ++ [current]) by exact HsA.
    assert (Hnin : ~ In next (stack st ++ [current])).
    { replace (stack st ++ current :: next :: more')
        with ((stack st ++ [current]) ++ next :: more') in Hnd
        by (rewrite <- app_assoc; reflexivity).
      apply NoDup_remove_2 in Hnd. intro K. apply Hnd.
      apply in_or_app. now left. }
    assert (I : indexOf (stack st1) next = None).
    { destruct (indexOf (stack st1) next) eqn:I; [ | reflexivity ].
      exfalso. apply Hnin. rewrite <- S1. apply indexOf_In. congruence. }
    rewrite I in E.
    assert (L : stack st1 ++ next :: more' = stack st ++ current :: next :: more').
    { rewrite S1, <- app_assoc. reflexivity. }
    apply (IH more' next st1 st2 t ws' idx key); rewrite ?L; try assumption.
    + rewrite S1, length_app. simpl. lia.
    + rewrite S1. simpl. rewrite HeA. now apply walk_snoc.
Qed.

Lemma visitRoots_ok (roots : list string) :
  forall found,
    incl roots nodes -> seen_ok edges found ->
    exists found',
      fold_left (visitRoot (List.length nodes) adjacency maxAbs) roots (Some found)
        = Some found' /\
      seen_ok edges found'.
Proof.
  induction roots as [ | root roots IH]; simpl; intros found Hincl Hseen.
  - eauto.
  - destruct (visit_ok edges (List.length nodes) root (mkDfs [] [] found))
      as (st' & Hv & _ & _ & Hk); simpl; try assumption.
    + constructor; [ simpl; tauto | constructor ].
    + intros x [<- | []]. apply Hincl. left. reflexivity.
    + lia.
    + constructor.
    + rewrite Hv. apply IH; [ | assumption ].
      intros x Hx. apply Hincl. right. exact Hx.
Qed.

(** In this development the traversal of a graph that has a simple
    cycle comes back with a record filed under the key of that cycle. *)
Lemma simple_cycle_recorded (cycle : list string) (weights : list float) :
  cycle <> [] ->
  NoDup cycle ->
  closedWalk edges cycle weights ->
  exists loops r,
    detectCycles edges = Some loops /\
    In r loops /\
    keyOf r = canonicalizeCycle (cycle ++ firstn 1 cycle).
Proof.
  intros Hne Hnd Hwalk.
  destruct cycle as [ | c0 more]; [ contradiction | ].
  unfold closedWalk in Hwalk. change (firstn 1 (c0 :: more)) with [c0] in *.
  assert (Hnodes : incl (c0 :: more) nodes).
  { intros x Hx. apply (walk_nodes edges _ _ Hwalk).
    - rewrite length_app. simpl. lia.
    - apply in_or_app. now left. }
  assert (E : edges <> []).
  { intro K. assert (H0 : In c0 nodes) by (apply Hnodes; now left).
    rewrite K in H0. exact H0. }
  destruct (canonicalizeCycle_snoc (c0 :: more) c0 ltac:(discriminate))
    as (canonical & [Hin _] & Hkey).
  assert (Hkne : String.concat "->" (canonical ++ firstn 1 canonical) <> "").
  { apply joined_not_empty. intro K. subst canonical.
    apply rotationsOf_In in Hin; [ | discriminate ].
    apply isRotation_length in Hin. discriminate. }
  set (key := String.concat "->" (canonical ++ firstn 1 canonical)) in *.
  rewrite (detectCycles_nonempty edges E).
  destruct (in_split c0 nodes (Hnodes c0 (or_introl eq_refl)))
    as (pre & post & Hsplit).
  assert (Hpre : incl pre nodes).
  { intros x Hx. rewrite Hsplit. apply in_or_app. now left. }
  assert (Hpost : incl post nodes).
  { intros x Hx. rewrite Hsplit. apply in_or_app. right. now right. }
  destruct (visitRoots_ok pre [] Hpre) as (foundA & HA & HkA);
    [ split; constructor | ].
  destruct (visit_ok edges (List.length nodes) c0 (mkDfs [] [] foundA))
    as (stB & HB & _ & _ & HkB).
  { constructor; [ simpl; tauto | constructor ]. }
  { intros x [<- | []]. apply Hnodes. now left. }
  { simpl. lia. }
  { constructor. }
  { exact HkA. }
  assert (Hfound : In key (JsMap.keys (seen stB))).
  { apply (visit_finds (List.length nodes) more c0 (mkDfs [] [] foundA) stB c0
             weights 0 key); simpl; try assumption.
    - lia.
    - constructor.
    - rewrite String.eqb_refl. reflexivity. }
  destruct (visitRoots_ok post (seen stB) Hpost HkB) as (foundC & HC & HkC).
  assert (Hall : forall roots,
            roots = pre ++ c0 :: post ->
            fold_left (visitRoot (List.length nodes) adjacency maxAbs)
              roots (Some []) = Some foundC).
  { intros roots ->. rewrite fold_left_app.
    etransitivity;
      [ apply (f_equal (fold_left _ (c0 :: post))); exact HA | ].
    cbn [fold_left]. unfold visitRoot at 2. rewrite HB. exact HC. }
  rewrite (Hall nodes Hsplit).
  apply (visitRoots_grows adjacency maxAbs (List.length nodes) post) in HC.
  apply HC in Hfound.
  apply in_map_iff in Hfound. destruct Hfound as ([k r] & Hk & Hr).
  simpl in Hk. subst k.
  exists (JsMap.values foundC), r. split; [ reflexivity | ].
  split.
  - unfold JsMap.values. apply in_map_iff. exists (key, r). auto.
  - destruct HkC as [Hall' _]. rewrite Forall_forall in Hall'.
    destruct (Hall' _ Hr) as (Hkr & _). rewrite Hkr. symmetry. exact Hkey.
Qed.

(** X16. The detector misses no simple cycle.  For every cycle of the
    graph with distinct nodes, what the detector returns holds a
    record filed under the key of that cycle. *)
Theorem every_simple_cycle_is_reported (cycle : list string)
    (weights : list float) (loops : list CycleRecord) :
  cycle <> [] ->
  NoDup cycle ->
  closedWalk edges cycle weights ->
  detectCycles edges = Some loops ->
  exists r,
    In r loops /\ keyOf r = canonicalizeCycle (cycle ++ firstn 1 cycle).
Proof.
  intros Hne Hnd Hwalk Hloops.
  destruct (simple_cycle_recorded cycle weights Hne Hnd Hwalk)
    as (loops' & r & Hrun & Hin & Hkey).
  rewrite Hloops in Hrun. inversion Hrun. subst loops'.
  exists r. split; assumption.
Qed.

End Completeness.

(** The cycle a, b, c of the graph with the colliding keys is reported
    under its key. *)
Lemma every_simple_cycle_is_reported_witness :
  exists loops r,
    detectCycles collisionEdges = Some loops /\
    In r loops /\
    keyOf r = Some "a->b->c->a".
Proof.
  assert (R : exists loops, detectCycles collisionEdges = Some loops)
    by (eexists; vm_compute; reflexivity).
  destruct R as (loops & R).
  destruct (every_simple_cycle_is_reported collisionEdges ["a"; "b"; "c"] [1; 1; 1]
              loops) as (r & Hin & Hkey).
  - discriminate.
  - repeat constructor; simpl; intuition discriminate.
  - unfold closedWalk, collisionEdges. simpl.
    repeat (constructor; [ simpl; tauto | ]). constructor.
  - exact R.
  - exists loops, r. split; [ exact R | ]. split; [ exact Hin | exact Hkey ].
Defined.

(** *** The dominance is a whole percentage *)

Module RoundFacts.

Lemma digits2_bound (m : positive) :
  (Z.pos m < 2 ^ Z.pos (digits2_pos m))%Z.
Proof.
  induction m as [ m IH | m IH | ]; simpl digits2_pos.
  - rewrite Pos2Z.inj_succ, Z.pow_succ_r by lia. lia.
  - rewrite Pos2Z.inj_succ, Z.pow_succ_r by lia. lia.
  - reflexivity.
Qed.

(** The mantissa of a binary64 number has at most 53 bits. *)
Lemma mantissa_bound (x : float) (s : bool) (m : positive) (e : Z) :
  Prim2SF x = S754_finite s m e -> (Z.pos m < 2 ^ 53)%Z.
Proof.
  intro E. pose proof (Prim2SF_valid x) as V. rewrite E in V.
  unfold SpecFloat.valid_binary, bounded in V.
  apply andb_prop in V. destruct V as [V _].
  unfold canonical_mantissa, fexp in V. apply Z.eqb_eq in V.
  assert (D : (Z.pos (digits2_pos m) <= 53)%Z).
  { unfold prec in V. lia. }
  pose proof (digits2_bound m) as B.
  apply (Z.lt_le_trans _ _ _ B). apply Z.pow_le_mono_r; lia.
Qed.

Lemma small_integers (k : nat) :
  (k <= 100)%nat ->
  Js.integer_value (of_uint63 (Uint63.of_Z (Z.of_nat k))) = Some (Z.of_nat k).
Proof.
  intro H.
  do 101 (destruct k as [ | k]; [ vm_compute; reflexivity | ]).
  lia.
Qed.

(** A fraction with a power of two below it lies within a half of the
    integer that the rounding computes. *)
Lemma nearest_fraction (m : positive) (k n : Z) :
  (0 < k)%Z ->
  (n * 2 ^ (k + 1) <= 2 * Z.pos m + 2 ^ k)%Z ->
  (2 * Z.pos m + 2 ^ k < (n + 1) * 2 ^ (k + 1))%Z ->
  QArith_base.Qle
    (QArith_base.Qminus (QArith_base.inject_Z n) (QArith_base.Qmake 1 2))
    (QArith_base.Qmake (Z.pos m) (2 ^ Z.to_pos k)) /\
  QArith_base.Qlt
    (QArith_base.Qmake (Z.pos m) (2 ^ Z.to_pos k))
    (QArith_base.Qplus (QArith_base.inject_Z n) (QArith_base.Qmake 1 2)).
Proof.
  intros Hk Hlo Hhi.
  assert (D : Z.pos (2 ^ Z.to_pos k) = (2 ^ k)%Z).
  { rewrite Pos2Z.inj_pow, Z2Pos.id by lia. reflexivity. }
  assert (P : (2 ^ (k + 1) = 2 * 2 ^ k)%Z).
  { rewrite Z.pow_add_r by lia. change (2 ^ 1)%Z with 2%Z. lia. }
  assert (Q : (0 < 2 ^ k)%Z) by (apply Z.pow_pos_nonneg; lia).
  unfold QArith_base.Qle, QArith_base.Qlt, QArith_base.Qminus,
    QArith_base.Qplus, QArith_base.Qopp, QArith_base.inject_Z.
  cbn [QArith_base.Qnum QArith_base.Qden Pos.mul].
  rewrite D, P in *. lia.
Qed.

(** Rounding a number of [0, 100] gives the integer of [0, 100] that is
    nearest to it. *)
Lemma round_percentage (y : float) :
  (0 <=? y) = true -> (y <=? 100) = true ->
  exists n,
    (0 <= n <= 100)%Z /\ Js.integer_value (Js.Math_round y) = Some n /\
    Exact.nearest y n.
Proof.
  rewrite !leb_spec. unfold SFleb.
  change (Prim2SF 0) with (S754_zero false).
  change (Prim2SF 100) with (S754_finite false 7036874417766400 (-46)).
  intros H0 H100. unfold Js.Math_round.
  destruct (Prim2SF y) as [s | s | | s m e] eqn:E.
  - exists 0%Z. split; [ lia | ].
    split; [ unfold Js.integer_value; now rewrite E | ].
    exists (QArith_base.Qmake 0 1). unfold Exact.valueOf. rewrite E.
    split; [ reflexivity | ]. split; [ discriminate | reflexivity ].
  - destruct s; [ discriminate H0 | discriminate H100 ].
  - discriminate H0.
  - destruct s; [ discriminate H0 | ].
    pose proof (mantissa_bound y false m e E) as M.
    assert (B : (e < -46 \/ (e = -46 /\ Z.pos m <= 7036874417766400))%Z).
    { cbn [SFcompare] in H100.
      destruct (e ?= -46)%Z eqn:C.
      - apply Z.compare_eq in C. right. split; [ exact C | ].
        destruct (Pos.compare_cont Eq m 7036874417766400) eqn:P;
          [ | | discriminate H100 ].
        + assert (Q : Pos.compare m 7036874417766400 = Eq) by exact P.
          apply Pos.compare_eq in Q. rewrite Q. discriminate.
        + assert (Q : Pos.compare m 7036874417766400 = Lt) by exact P.
          apply Pos2Z.pos_le_pos, Pos.lt_le_incl. exact Q.
      - left. apply Z.compare_lt_iff. exact C.
      - discriminate H100. }
    assert (Neg : (0 <=? e)%Z = false) by (apply Z.leb_gt; lia).
    rewrite Neg.
    set (num := (1 * (2 * Z.pos m) + 2 ^ (- e))%Z).
    set (n := (num / 2 ^ (1 - e))%Z).
    assert (P47 : (2 ^ 46 <= 2 ^ (- e))%Z) by (apply Z.pow_le_mono_r; lia).
    assert (P2 : (2 ^ (1 - e) = 2 * 2 ^ (- e))%Z).
    { replace (1 - e)%Z with (Z.succ (- e)) by lia.
      apply Z.pow_succ_r. lia. }
    assert (Hn : (0 <= n <= 100)%Z).
    { unfold n. split.
      - apply Z.div_pos; [ unfold num; lia | lia ].
      - apply Z.lt_succ_r. apply Z.div_lt_upper_bound; [ lia | ].
        unfold num. rewrite P2.
        change (2 ^ 46)%Z with 70368744177664%Z in P47.
        change (2 ^ 53)%Z with 9007199254740992%Z in M.
        destruct B as [B | [-> B]].
        + assert (P48 : (2 ^ 47 <= 2 ^ (- e))%Z)
            by (apply Z.pow_le_mono_r; lia).
          change (2 ^ 47)%Z with 140737488355328%Z in P48. lia.
        + change (2 ^ (- -46))%Z with 70368744177664%Z. lia. }
    assert (Hnear : Exact.nearest y n).
    { exists (QArith_base.Qmake (Z.pos m) (2 ^ Z.to_pos (- e))).
      unfold Exact.valueOf. rewrite E, Neg. split; [ reflexivity | ].
      assert (Pk : (0 < 2 ^ (1 - e))%Z) by (apply Z.pow_pos_nonneg; lia).
      pose proof (Z.mul_div_le num (2 ^ (1 - e)) Pk) as Lo.
      pose proof (Z.mul_succ_div_gt num (2 ^ (1 - e)) Pk) as Hi.
      fold n in Lo, Hi.
      apply nearest_fraction; [ lia | | ].
      - replace (- e + 1)%Z with (1 - e)%Z by lia. unfold num in Lo. lia.
      - replace (- e + 1)%Z with (1 - e)%Z by lia. unfold num in Hi. lia. }
    destruct n as [ | p | p] eqn:En; [ | | lia ].
    + exists 0%Z. split; [ lia | ]. split; [ reflexivity | exact Hnear ].
    + exists (Z.pos p). split; [ lia | ]. split; [ | exact Hnear ].
      rewrite <- (positive_nat_Z p). apply small_integers. lia.
Qed.

End RoundFacts.

(** X17. The dominance of every record is a whole number from 0 to 100,
    whatever the weights of the graph. *)
Theorem dominance_is_a_percentage (edges : list Edge) (loops : list CycleRecord)
    (r : CycleRecord) :
  detectCycles edges = Some loops ->
  In r loops ->
  exists n, (0 <= n <= 100)%Z /\ Js.integer_value (c_dominance r) = Some n.
Proof.
  intros H Hin.
  destruct (detectCycles_ok edges) as (found & Hf & Hok & _).
  rewrite H in Hf. inversion Hf. subst loops. clear Hf.
  unfold JsMap.values in Hin. apply in_map_iff in Hin.
  destruct Hin as ([key r'] & <- & Hin).
  rewrite Forall_forall in Hok. destruct (Hok _ Hin) as (_ & _ & Hd & _).
  simpl. rewrite Hd. unfold dominanceOf.
  destruct (clamp_in_range (avgAbsOf (c_weights r') / maxAbsOf edges * 100) 0 100
              eq_refl) as [H0 H100].
  destruct (RoundFacts.round_percentage _ H0 H100) as (n & Hn & Hi & _).
  exists n. split; assumption.
Qed.

(** The self-loop of the scenario has dominance 100. *)
Lemma dominance_is_a_percentage_witness :
  exists n,
    (0 <= n <= 100)%Z /\
    Js.integer_value
      (c_dominance (mkCycle Balancing 100 ["X"] "X → X" [-0.5])) = Some n.
Proof.
  apply (dominance_is_a_percentage [mkEdge "X" "X" (-0.5)]
           [mkCycle Balancing 100 ["X"] "X → X" [-0.5]]).
  - vm_compute. reflexivity.
  - left. reflexivity.
Defined.

(** Two opposite edges of weights 0.5 and -0.25 between [A] and [B]: one
    record, Balancing. *)
Lemma two_cycle_witness :
  exists r,
    detectCycles [mkEdge "A" "B" 0.5; mkEdge "B" "A" (-0.25)] = Some [r] /\
    c_nodes r = ["A"; "B"] /\ c_weights r = [0.5; -0.25] /\
    c_type r = Balancing.
Proof.
  exact (proj1 (two_cycle "A" "B" 0.5 (-0.25) ltac:(discriminate))).
Defined.

(** ** Edges that leave the variable set *)



(** ** Clamping, as the specification words it *)

Lemma eqb_of_leb (a b : float) :
  (a <=? b) = true -> (b <=? a) = true -> (a =? b) = true.
Proof.
  intros H1 H2. apply leb_cmp in H1. apply leb_cmp in H2.
  rewrite cmp_antisym in H2.
  rewrite eqb_spec. unfold SFeqb.
  change (SFcompare (Prim2SF a) (Prim2SF b)) with (floatCompare a b).
  destruct H1 as [H1 | H1]; rewrite H1 in *; [ | reflexivity ].
  simpl in H2. destruct H2; discriminate.
Qed.

(** What [clamp] returns is its argument clamped to the bounds. *)
Lemma clamp_clampedTo (lo hi x : float) :
  (lo <? hi) = true -> clampedTo lo hi x (clamp x lo hi).
Proof.
  intro Hlt. pose proof (ltb_leb _ _ Hlt) as Hle.
  destruct (ltb_not_nan _ _ Hlt) as [Hlo Hhi].
  split; [ now apply clamp_in_range | ]. split; [ | split ].
  - intros [H1 H2]. destruct (leb_not_nan _ _ H1) as [_ Hx].
    unfold clamp. rewrite Hx.
    destruct (Math_min_cases hi x Hhi Hx) as [[-> Hm] | [-> Hm]].
    + destruct (Math_max_cases lo hi Hlo Hhi) as [[-> HM] | [-> HM]].
      * apply eqb_of_leb; [ assumption | ].
        apply (FloatOrder.leb_trans _ hi); assumption.
      * now apply eqb_of_leb.
    + destruct (Math_max_cases lo x Hlo Hx) as [[-> HM] | [-> HM]].
      * now apply eqb_of_leb.
      * apply eqb_of_leb; now apply leb_refl.
  - intro H. destruct (ltb_not_nan _ _ H) as [Hx _].
    pose proof (FloatOrder.ltb_leb_trans _ _ _ H Hle) as Hxhi.
    unfold clamp. rewrite Hx. unfold Js.Math_min. rewrite Hhi, Hx. simpl.
    rewrite (leb_not_ltb _ _ (ltb_leb _ _ Hxhi)), Hxhi.
    unfold Js.Math_max. rewrite Hlo, Hx. simpl.
    rewrite (leb_not_ltb _ _ (ltb_leb _ _ H)), H. reflexivity.
  - intro H. destruct (ltb_not_nan _ _ H) as [_ Hx].
    unfold clamp. rewrite Hx. unfold Js.Math_min. rewrite Hhi, Hx. simpl.
    rewrite H. unfold Js.Math_max. rewrite Hlo, Hhi. simpl.
    rewrite Hlt. reflexivity.
Qed.

(** ** Anchoring on the initial state *)

Section AnchorPrecedence.

Variable NumberOfText : jsval -> float.

Lemma anchoredBy_anchoredAs (initialState : jsval) (v v' : GVariable) :
  anchoredBy NumberOfText initialState v v' ->
  anchoredAs NumberOfText initialState v v'.
Proof.
  unfold anchoredBy, anchoredAs.
  destruct (VARIABLE_FACTORS (v_id v)); try (intro H; exact H).
  destruct (finiteFactorValues NumberOfText initialState factors);
    [ intro H; exact H | ].
  intros ->. cbn [v_id v_value v_baseline].
  split; [ reflexivity | ]. split; [ | reflexivity ].
  apply clamp_clampedTo. reflexivity.
Qed.

Lemma finiteNumbers_finiteFactorValues (initialState : jsval)
    (factors : list string) :
  Forall (fun factor => numberOrMissing (Js.field initialState factor) = true)
    factors ->
  finiteFactorValues NumberOfText initialState factors =
  finiteNumbers initialState factors.
Proof.
  unfold finiteFactorValues, finiteNumbers.
  induction 1 as [ | f rest Hf Hrest IH]; simpl; [ reflexivity | ].
  rewrite IH.
  destruct (Js.field initialState f); try discriminate Hf; simpl;
    [ reflexivity | ].
  destruct (is_finite x); reflexivity.
Qed.


End AnchorPrecedence.



(** ** The dominance of a record *)

Module ExactFacts.

(** A number that is an integer stands for that integer. *)
Lemma integer_denotes (x : float) (n : Z) :
  Js.integer_value x = Some n -> Exact.denotes x n.
Proof.
  unfold Js.integer_value, Exact.denotes, Exact.valueOf.
  destruct (Prim2SF x) as [s | s | | s m e]; try discriminate.
  - intro E. injection E as <-. eexists. split; reflexivity.
  - destruct (0 <=? e)%Z eqn:He.
    + intro E. injection E as <-. eexists. split; [ reflexivity | ].
      unfold QArith_base.Qeq, QArith_base.inject_Z.
      cbn [QArith_base.Qnum QArith_base.Qden].
      generalize (2 ^ e)%Z. intro P.
      change (match P with
              | 0 => 0
              | Z.pos y' => Z.pos (m * y')
              | Z.neg y' => Z.neg (m * y')
              end)%Z with (Z.pos m * P)%Z.
      destruct s; [ rewrite <- Pos2Z.opp_pos | ]; lia.
    + destruct (Z.pos m mod 2 ^ (- e) =? 0)%Z eqn:Hm; [ | discriminate ].
      intro E. injection E as <-. eexists. split; [ reflexivity | ].
      apply Z.leb_gt in He. apply Z.eqb_eq in Hm.
      assert (D : Z.pos (2 ^ Z.to_pos (- e)) = (2 ^ (- e))%Z).
      { rewrite Pos2Z.inj_pow, Z2Pos.id by lia. reflexivity. }
      assert (P : (0 < 2 ^ (- e))%Z) by (apply Z.pow_pos_nonneg; lia).
      pose proof (Z.div_mod (Z.pos m) (2 ^ (- e)) ltac:(lia)) as M.
      rewrite Hm in M.
      unfold QArith_base.Qeq, QArith_base.inject_Z.
      cbn [QArith_base.Qnum QArith_base.Qden]. rewrite D.
      revert M. generalize (Z.pos m / 2 ^ (- e))%Z (2 ^ (- e))%Z.
      intros d P' M.
      destruct s; [ rewrite <- Pos2Z.opp_pos | ]; lia.
Qed.

End ExactFacts.

Lemma maxAbs_strongest (l : list Edge) :
  forall acc : float,
    is_nan acc = false ->
    Forall (fun e => is_nan (e_weight e) = false) l ->
    let m := fold_left
               (fun acc edge => Js.Math_max acc (Js.Math_abs (e_weight edge)))
               l acc in
    (acc <=? m) = true /\
    Forall (fun e => (abs (e_weight e) <=? m) = true) l /\
    (m = acc \/ exists e, In e l /\ abs (e_weight e) = m).
Proof.
  induction l as [ | e l IH]; simpl; intros acc Hn Hl.
  - split; [ now apply leb_refl | ]. split; [ constructor | now left ].
  - inversion Hl as [ | ? ? He Hl']. subst.
    pose proof (abs_not_nan _ He) as Ha. unfold Js.Math_abs in *.
    destruct (Math_max_cases acc (abs (e_weight e)) Hn Ha) as [[E Hle] | [E Hle]];
      rewrite E.
    + destruct (IH acc Hn Hl') as (Hacc & Hall & Hm).
      split; [ exact Hacc | ]. split.
      * constructor; [ | exact Hall ].
        apply (FloatOrder.leb_trans _ acc); assumption.
      * destruct Hm as [Hm | (e' & Hin & He')]; [ now left | ].
        right. exists e'. split; [ now right | exact He' ].
    + destruct (IH (abs (e_weight e)) Ha Hl') as (Hacc & Hall & Hm).
      split; [ apply (FloatOrder.leb_trans _ (abs (e_weight e))); assumption | ].
      split.
      * constructor; assumption.
      * right. destruct Hm as [Hm | (e' & Hin & He')].
        -- exists e. split; [ now left | now symmetry ].
        -- exists e'. split; [ now right | exact He' ].
Qed.

(** With no [NaN] weight, the number that [maxAbsAll] computes is the
    strongest edge of the graph. *)
Lemma maxAbsAll_strongest (edges : list Edge) :
  edges <> [] ->
  Forall (fun e => is_nan (e_weight e) = false) edges ->
  isStrongest edges (maxAbsAll edges).
Proof.
  intros Hne Hn.
  destruct (maxAbs_strongest edges 0 eq_refl Hn) as (_ & Hall & Hm).
  fold (maxAbsAll edges) in *.
  split; [ | exact Hall ].
  destruct Hm as [Hm | Hm]; [ | exact Hm ].
  destruct edges as [ | e rest]; [ contradiction | ].
  exists e. split; [ now left | ].
  inversion Hall as [ | ? ? He _]. inversion Hn as [ | ? ? Hw _]. subst.
  rewrite Hm in He |- *.
  apply abs_of_zero. apply is_zero_abs.
  exact (sandwich_zero _ _ (abs_nonneg _ Hw) He eq_refl).
Qed.

Section Dominance.

Variable NumberOfText : jsval -> float.

(** C8, as amended.  For every cycle the engine reports, the
    dominance is computed from the mean of [|weight|] over the
    cycle's own edges (their sum from left to right, divided by their
    count) and from the strongest edge of the whole graph, not of the
    cycle: the mean divided by the strongest edge, times 100, in
    binary64 arithmetic, is clamped to [0,100], and the dominance is
    the integer nearest to that.  When every weight of the graph is
    zero the dominance is 0.  The weights of the record are those of
    the edges that lead from each node of the cycle to the next and
    from the last back to the first. *)
Theorem dominance_normalized (causalGraph opts : jsval) (result : Result)
    (r : CycleRecord) :
  runCausalSimulation NumberOfText causalGraph opts = Ok result ->
  In r (r_loopsDetected result) ->
  exists variables edges strongest,
    resolveGraph NumberOfText (Js.default causalGraph (VObject []))
      = Ok (variables, edges) /\
    closedWalk edges (c_nodes r) (c_weights r) /\
    isStrongest edges strongest /\
    (is_zero strongest = true -> c_dominance r = 0) /\
    (is_zero strongest = false ->
     exists clamped n,
       clampedTo 0 100 (meanAbs (c_weights r) / strongest * 100) clamped /\
       Exact.nearest clamped n /\
       Exact.denotes (c_dominance r) n).
Proof.
  intros H Hin. apply runCausalSimulation_stages in H.
  destruct H as (variables & edges & initialState & anchored & simulation
                 & loops & Hg & _ & _ & _ & Hl & ->).
  simpl in Hin. exists variables, edges, (maxAbsAll edges).
  split; [ exact Hg | ].
  assert (Hne : edges <> []).
  { intro K. rewrite K in Hl. inversion Hl. subst loops. exact Hin. }
  assert (Hn : Forall (fun e => is_nan (e_weight e) = false) edges).
  { apply resolveGraph_finite in Hg.
    eapply Forall_impl; [ | exact Hg ].
    intros e He. now apply is_finite_not_nan. }
  destruct (detectCycles_ok edges) as (found & Hf & Hok & _).
  rewrite Hl in Hf. inversion Hf. subst loops.
  unfold JsMap.values in Hin. apply in_map_iff in Hin.
  destruct Hin as ([key r'] & E & Hin). simpl in E. subst r'.
  rewrite Forall_forall in Hok. specialize (Hok _ Hin).
  destruct Hok as (_ & _ & Hd & Hw & _ & _).
  split; [ exact Hw | ].
  split; [ now apply maxAbsAll_strongest | ].
  destruct (maxAbsAll_zero edges Hn) as [Hm Hz].
  rewrite Hd. unfold dominanceOf, maxAbsOf, Js.truthy. rewrite Hm. simpl.
  split.
  - intro Z. rewrite Z. simpl.
    assert (W : Forall (fun w => is_zero w = true) (c_weights r)).
    { specialize (Hz Z). rewrite Forall_forall in Hz.
      apply walk_weights in Hw. rewrite Forall_forall in Hw.
      apply Forall_forall. intros w Hwin.
      destruct (Hw w Hwin) as (e & He & <-). now apply Hz. }
    unfold avgAbsOf. rewrite (sum_abs_zero _ W).
    destruct (zero_div (Js.of_length (List.length (c_weights r))))
      as [-> | [-> | ->]]; reflexivity.
  - intro Z. rewrite Z. simpl.
    change (avgAbsOf (c_weights r)) with (meanAbs (c_weights r)).
    set (x := meanAbs (c_weights r) / maxAbsAll edges * 100).
    destruct (clamp_in_range x 0 100 eq_refl) as [H0 H100].
    destruct (RoundFacts.round_percentage _ H0 H100) as (n & _ & Hi & Hnear).
    exists (clamp x 0 100), n.
    split; [ apply clamp_clampedTo; reflexivity | ].
    split; [ exact Hnear | ].
    now apply ExactFacts.integer_denotes.
Qed.

End Dominance.

(** A cycle of two edges of weight 0.5 and -0.5 in a graph whose
    strongest edge, of weight 1, is on no cycle: the dominance is 50. *)
Lemma dominance_normalized_witness :
  exists result r,
    runCausalSimulation noNumericText sideEdgeGraph scenarioOptions = Ok result /\
    r_loopsDetected result = [r] /\
    c_weights r = [0.5; -0.5] /\
    c_dominance r = 50 /\
    exists variables edges strongest,
      resolveGraph noNumericText sideEdgeGraph = Ok (variables, edges) /\
      closedWalk edges (c_nodes r) (c_weights r) /\
      isStrongest edges strongest.
Proof.
  assert (R : exists result r,
            runCausalSimulation noNumericText sideEdgeGraph scenarioOptions
              = Ok result /\
            r_loopsDetected result = [r] /\
            c_weights r = [0.5; -0.5] /\ c_dominance r = 50).
  { eexists. eexists. split; [ vm_compute; reflexivity | ].
    split; [ reflexivity | ]. split; reflexivity. }
  destruct R as (result & r & R & L & W & D).
  exists result, r. split; [ exact R | ]. split; [ exact L | ].
  split; [ exact W | ]. split; [ exact D | ].
  destruct (dominance_normalized noNumericText sideEdgeGraph scenarioOptions
              result r R) as (variables & edges & strongest & Hg & Hw & Hs & _).
  { rewrite L. left. reflexivity. }
  exists variables, edges, strongest.
  split; [ exact Hg | ]. split; [ exact Hw | exact Hs ].
Defined.

(** C8, as stated, fails: in exact arithmetic the two edges of weight
    1e308 and 1.7e308 give round(100 * 1.35e308 / 1.7e308) = 79, and
    the engine, whose sum of the two weights is [Infinity], gives 100. *)
Lemma dominance_normalized_counterexample :
  exists result r,
    runCausalSimulation noNumericText heavyCycleGraph scenarioOptions = Ok result /\
    r_loopsDetected result = [r] /\
    c_weights r = [1e308; 1.7e308] /\
    Exact.realDominance (c_weights r) [1e308; 1.7e308] = Some 79%Z /\
    c_dominance r = 100.
Proof.
  eexists. eexists. split; [ vm_compute; reflexivity | ].
  split; [ reflexivity | ]. split; [ reflexivity | ].
  split; [ vm_compute; reflexivity | reflexivity ].
Qed.

(** * Properties of the handler's helpers *)

(** ** Trimming *)

Module TextFacts.

Section Strip.

Variable p1 : ascii -> bool.
Variable p2 : ascii -> ascii -> bool.
Variable p3 : ascii -> ascii -> ascii -> bool.

Local Abbreviation leads := (leads p1 p2 p3).

Lemma strip_fixed (l : list ascii) :
  leads l = false -> Text.strip p1 p2 p3 l = l.
Proof.
  destruct l as [ | c [ | d [ | e rest]]]; simpl; try reflexivity.
  - intro H. rewrite orb_false_r in H. now rewrite H.
  - intro H. apply orb_false_elim in H. destruct H as [H1 H2].
    rewrite orb_false_r in H2. now rewrite H1, H2.
  - intro H. apply orb_false_elim in H. destruct H as [H1 H].
    apply orb_false_elim in H. destruct H as [H2 H3].
    now rewrite H1, H2, H3.
Qed.

(** Stripping leaves a tail of the list that does not start with
    white space. *)
Lemma strip_spec (n : nat) :
  forall l, (List.length l <= n)%nat ->
            leads (Text.strip p1 p2 p3 l) = false /\
            exists removed, l = removed ++ Text.strip p1 p2 p3 l.
Proof.
  induction n as [ | n IH]; intros l Hl.
  - destruct l; [ | simpl in Hl; lia ]. split; [ reflexivity | ].
    exists []. reflexivity.
  - destruct l as [ | c rest]; [ split; [ reflexivity | exists []; reflexivity ] | ].
    simpl in Hl. cbn [Text.strip].
    destruct (p1 c) eqn:E1.
    { destruct (IH rest ltac:(lia)) as [H (removed & Hr)].
      split; [ exact H | ]. exists (c :: removed). simpl. now rewrite <- Hr. }
    destruct rest as [ | d rest2].
    { split; [ simpl; now rewrite E1 | exists []; reflexivity ]. }
    simpl in Hl. destruct (p2 c d) eqn:E2.
    { destruct (IH rest2 ltac:(lia)) as [H (removed & Hr)].
      split; [ exact H | ]. exists (c :: d :: removed). simpl. now rewrite <- Hr. }
    destruct rest2 as [ | e rest3].
    { split; [ simpl; now rewrite E1, E2 | exists []; reflexivity ]. }
    simpl in Hl. destruct (p3 c d e) eqn:E3.
    { destruct (IH rest3 ltac:(lia)) as [H (removed & Hr)].
      split; [ exact H | ].
      exists (c :: d :: e :: removed). simpl. now rewrite <- Hr. }
    split; [ simpl; now rewrite E1, E2, E3 | exists []; reflexivity ].
Qed.

Lemma strip_clean (l : list ascii) : leads (Text.strip p1 p2 p3 l) = false.
Proof. apply (strip_spec (List.length l) l (le_n _)). Qed.

Lemma strip_tail (l : list ascii) :
  exists removed, l = removed ++ Text.strip p1 p2 p3 l.
Proof. apply (strip_spec (List.length l) l (le_n _)). Qed.

Lemma strip_idempotent (l : list ascii) :
  Text.strip p1 p2 p3 (Text.strip p1 p2 p3 l) = Text.strip p1 p2 p3 l.
Proof. apply strip_fixed, strip_clean. Qed.

(** A list that does not start with white space has no prefix that
    does, the empty one apart. *)
Lemma leads_prefix (l r : list ascii) :
  leads (l ++ r) = false -> leads l = false.
Proof.
  destruct l as [ | c [ | d [ | e rest]]]; simpl; try reflexivity.
  - intro H. destruct (p1 c); [ discriminate | reflexivity ].
  - intro H. destruct (p1 c); [ discriminate | ]. simpl in *.
    destruct (p2 c d); [ discriminate | reflexivity ].
  - intro H. exact H.
Qed.

End Strip.

Lemma trimStart_clean (l : list ascii) :
  leads Text.space1 Text.space2 Text.space3 (Text.trimStart l) = false.
Proof. apply strip_clean. Qed.

Lemma trimEnd_prefix (l : list ascii) :
  exists removed, l = Text.trimEnd l ++ removed.
Proof.
  unfold Text.trimEnd.
  destruct (strip_tail Text.space1 (fun c d => Text.space2 d c)
              (fun c d e => Text.space3 e d c) (rev l)) as (removed & H).
  exists (rev removed).
  apply (f_equal (@rev ascii)) in H.
  rewrite rev_involutive, rev_app_distr in H. exact H.
Qed.

Lemma trimEnd_idempotent (l : list ascii) :
  Text.trimEnd (Text.trimEnd l) = Text.trimEnd l.
Proof.
  unfold Text.trimEnd. rewrite rev_involutive, strip_idempotent. reflexivity.
Qed.

(** Trimmed text is left as it is by another trim. *)
Lemma trim_idempotent (s : string) : Text.trim (Text.trim s) = Text.trim s.
Proof.
  unfold Text.trim. rewrite list_ascii_of_string_of_list_ascii. f_equal.
  set (l := Text.trimStart (list_ascii_of_string s)).
  assert (F : Text.trimStart (Text.trimEnd l) = Text.trimEnd l).
  { apply strip_fixed.
    destruct (trimEnd_prefix l) as (removed & H).
    apply (leads_prefix _ _ _ _ removed). rewrite <- H. apply trimStart_clean. }
  rewrite F. apply trimEnd_idempotent.
Qed.

Lemma trim_empty : Text.trim "" = "".
Proof. reflexivity. Qed.

End TextFacts.

Section Texts.

Lemma ensure_app (front back : list jsval) :
  ensureInterventionsArray (VArray (front ++ back)) =
  ensureInterventionsArray (VArray front) ++ ensureInterventionsArray (VArray back).
Proof.
  cbn [ensureInterventionsArray]. rewrite map_app. apply filter_app.
Qed.

Lemma trim_inside (s : string) :
  exists front back,
    list_ascii_of_string s =
    front ++ list_ascii_of_string (Text.trim s) ++ back.
Proof.
  unfold Text.trim. rewrite list_ascii_of_string_of_list_ascii.
  destruct (TextFacts.strip_tail Text.space1 Text.space2 Text.space3
              (list_ascii_of_string s)) as (front & Hf).
  fold (Text.trimStart (list_ascii_of_string s)) in Hf.
  destruct (TextFacts.trimEnd_prefix (Text.trimStart (list_ascii_of_string s)))
    as (back & Hb).
  exists front, back. rewrite <- Hb. exact Hf.
Qed.

(** X19. The list of planned interventions that the handler returns
    holds texts only, each of them trimmed and none of them empty:
    a text of the array gives its trimmed text when that is not empty
    and nothing otherwise, an entry that is no text gives nothing, the
    entries are taken one after the other in the order given, and a
    single text counts as the array that holds it; anything else
    gives the empty list.  A clean list comes back as it is.  A
    trimmed text is a piece of the text it was made from.  With a
    fallback, [coerceString] gives the trimmed text when it is not
    empty and the fallback otherwise. *)
Theorem interventions_are_clean (value : jsval) :
  Forall (fun entry => entry <> "" /\ Text.trim entry = entry)
    (ensureInterventionsArray value) /\
  ensureInterventionsArray
    (VArray (map VString (ensureInterventionsArray value)))
  = ensureInterventionsArray value /\
  (forall fallback,
     let text := coerceString value fallback in
     text = fallback \/ (text <> "" /\ Text.trim text = text)) /\
  (forall texts,
     Forall (fun entry => entry <> "" /\ Text.trim entry = entry) texts ->
     ensureInterventionsArray (VArray (map VString texts)) = texts) /\
  (forall front back,
     ensureInterventionsArray (VArray (front ++ back)) =
     ensureInterventionsArray (VArray front)
     ++ ensureInterventionsArray (VArray back)) /\
  (forall s fallback,
     ensureInterventionsArray (VArray [VString s]) =
       (if (Text.trim s =? "")%string then [] else [Text.trim s]) /\
     ensureInterventionsArray (VString s) =
       ensureInterventionsArray (VArray [VString s]) /\
     coerceString (VString s) fallback =
       (if (Text.trim s =? "")%string then fallback else Text.trim s) /\
     exists before after,
       list_ascii_of_string s =
       before ++ list_ascii_of_string (Text.trim s) ++ after) /\
  ((forall s, value <> VString s) ->
   ensureInterventionsArray (VArray [value]) = [] /\
   (forall fallback, coerceString value fallback = fallback) /\
   ((forall items, value <> VArray items) ->
    ensureInterventionsArray value = [])).
Proof.
  assert (C : Forall (fun entry => entry <> "" /\ Text.trim entry = entry)
                (ensureInterventionsArray value)).
  { destruct value; simpl; try constructor.
    - destruct (Text.trim s =? "")%string eqn:E; constructor; [ | constructor ].
      split; [ now apply String.eqb_neq | apply TextFacts.trim_idempotent ].
    - induction items as [ | item items IH]; simpl; [ constructor | ].
      destruct item; simpl; try exact IH.
      destruct (Text.trim s =? "")%string eqn:E; simpl; [ exact IH | ].
      constructor; [ | exact IH ].
      split; [ now apply String.eqb_neq | apply TextFacts.trim_idempotent ]. }
  assert (K : forall texts,
            Forall (fun entry => entry <> "" /\ Text.trim entry = entry) texts ->
            ensureInterventionsArray (VArray (map VString texts)) = texts).
  { intros texts H. cbn [ensureInterventionsArray]. rewrite map_map.
    induction H as [ | entry rest [Hne Ht] Hrest IH]; simpl; [ reflexivity | ].
    rewrite Ht. apply String.eqb_neq in Hne. rewrite Hne. simpl.
    now rewrite IH. }
  split; [ exact C | ]. split; [ now apply K | ].
  split; [ | split; [ exact K | split; [ exact ensure_app | split ] ] ].
  - intro fallback. destruct value; simpl; auto.
    destruct (Text.trim s =? "")%string eqn:E; [ now left | right ].
    split; [ now apply String.eqb_neq | apply TextFacts.trim_idempotent ].
  - intros s fallback. split; [ | split; [ | split ] ].
    + simpl. destruct (Text.trim s =? "")%string; reflexivity.
    + simpl. destruct (Text.trim s =? "")%string; reflexivity.
    + reflexivity.
    + apply trim_inside.
  - intro H. split; [ | split ].
    + destruct value; try reflexivity. now elim (H s).
    + intro fallback. destruct value; try reflexivity. now elim (H s).
    + intro H'. destruct value; try reflexivity;
        [ now elim (H s) | now elim (H' items) ].
Qed.

End Texts.

(** Three entries, of which the one that is a text of more than white
    space is kept, trimmed. *)
Lemma interventions_are_clean_witness :
  ensureInterventionsArray
    (VArray [ VString "  "; VNumber 3; VString " walk daily  " ])
  = ["walk daily"] /\
  ensureInterventionsArray (VArray [ VString "walk daily" ]) = ["walk daily"].
Proof.
  split; [ reflexivity | ].
  apply (proj1 (proj2 (proj2 (proj2 (interventions_are_clean VNull))))
           ["walk daily"]).
  constructor; [ | constructor ]. split; [ discriminate | reflexivity ].
Defined.

(** ** The wellness metrics *)

Lemma lookup_objectOf (values : list (string * float)) (k : string) :
  Js.lookup (map (fun entry => (fst entry, VNumber (snd entry))) values) k =
  match JsMap.get values k with
  | Some x => VNumber x
  | None => VUndefined
  end.
Proof.
  induction values as [ | [k' x] rest IH]; simpl; [ reflexivity | ].
  destruct (k =? k')%string; [ reflexivity | exact IH ].
Qed.

Section Metrics.

Variable NumberOfText : jsval -> float.
Variable TextOfNumber : float -> string.

Local Abbreviation usable := (usableMetrics NumberOfText).

Lemma usable_keys (metrics : jsval) (keys : list string) (k : string) :
  In k (JsMap.keys (usable metrics keys)) -> In k keys.
Proof.
  unfold usableMetrics, JsMap.keys.
  induction keys as [ | key keys IH]; simpl; [ tauto | ].
  rewrite map_app, in_app_iff. intros [H | H]; [ | right; now apply IH ].
  destruct (Js.isFinite _); simpl in H; [ | contradiction ].
  destruct H as [H | []]. now left.
Qed.

Lemma usable_finite (metrics : jsval) (keys : list string) :
  Forall (fun entry => is_finite (snd entry) = true) (usable metrics keys).
Proof.
  unfold usableMetrics.
  induction keys as [ | key keys IH]; simpl; [ constructor | ].
  apply Forall_app. split; [ | exact IH ].
  destruct (Js.isFinite _) eqn:E; repeat constructor. exact E.
Qed.

Lemma usable_NoDup (metrics : jsval) (keys : list string) :
  NoDup keys -> NoDup (JsMap.keys (usable metrics keys)).
Proof.
  induction 1 as [ | key keys Hk Hkeys IH]; [ constructor | ].
  unfold usableMetrics, JsMap.keys in *. simpl. rewrite map_app.
  destruct (Js.isFinite _); simpl; [ | exact IH ].
  constructor; [ | exact IH ].
  intro K. apply Hk. now apply (usable_keys metrics keys).
Qed.

Lemma usable_get (metrics : jsval) (keys : list string) (k : string) :
  NoDup keys -> In k keys ->
  JsMap.get (usable metrics keys) k =
  (let value := Number NumberOfText (Js.field metrics k) in
   if Js.isFinite value then Some value else None).
Proof.
  intros N Hin. cbv zeta.
  induction N as [ | key keys Hk Hkeys IH]; [ contradiction | ].
  unfold usableMetrics in *. simpl.
  destruct Hin as [-> | Hin].
  - destruct (Js.isFinite _) eqn:E; simpl.
    + now rewrite String.eqb_refl.
    + apply get_None. intro K. apply Hk. now apply (usable_keys metrics keys).
  - assert (Hne : (k =? key)%string = false).
    { apply String.eqb_neq. intros ->. contradiction. }
    destruct (Js.isFinite (Number NumberOfText (Js.field metrics key)));
      simpl; rewrite ?Hne; now apply IH.
Qed.

(** The loop of [sanitizeWellnessMetrics] collects the usable metrics. *)
Lemma keepMetric_fold (metrics : jsval) (keys : list string) :
  NoDup keys -> ~ In "__proto__" keys ->
  forall (sanitized : list (string * float)) (hasValues : bool),
    (forall k, In k keys -> ~ In k (JsMap.keys sanitized)) ->
    fold_left (keepMetric NumberOfText metrics) keys (sanitized, hasValues) =
    (sanitized ++ usable metrics keys,
     hasValues || negb (isEmpty (usable metrics keys))).
Proof.
  induction 1 as [ | key keys Hk Hkeys IH]; simpl; intros Hp sanitized hasValues Hs.
  - now rewrite app_nil_r, orb_false_r.
  - unfold keepMetric at 2. unfold usableMetrics. simpl.
    destruct (Js.isFinite (Number NumberOfText (Js.field metrics key))) eqn:E;
      simpl.
    + unfold object_set.
      assert (P : (key =? "__proto__")%string = false).
      { apply String.eqb_neq. intros ->. apply Hp. now left. }
      rewrite P, set_absent by (apply Hs; now left).
      rewrite IH.
      * rewrite <- app_assoc, orb_true_r. reflexivity.
      * intro K. apply Hp. now right.
      * intros k Hin. unfold JsMap.keys. rewrite map_app, in_app_iff. simpl.
        intros [K | [K | []]].
        -- apply (Hs k); [ now right | exact K ].
        -- subst. contradiction.
    + apply IH.
      * intro K. apply Hp. now right.
      * intros k Hin. apply Hs. now right.
Qed.

Lemma metricKeys_NoDup : NoDup metricKeys /\ ~ In "__proto__" metricKeys.
Proof.
  split.
  - repeat (constructor; [ simpl; intuition discriminate | ]). constructor.
  - simpl. intuition discriminate.
Qed.

Lemma sanitize_usable (metrics : jsval) :
  sanitizeWellnessMetrics NumberOfText metrics =
  if Js.truthy metrics && Js.typeof_object metrics
     && negb (isEmpty (usable metrics metricKeys))
  then objectOf (usable metrics metricKeys)
  else VNull.
Proof.
  unfold sanitizeWellnessMetrics.
  destruct (Js.truthy metrics); [ | reflexivity ].
  destruct (Js.typeof_object metrics); [ | reflexivity ].
  cbn [negb orb andb].
  destruct metricKeys_NoDup as [N P].
  change (map fst WELLNESS_METRIC_LABELS) with metricKeys.
  rewrite (keepMetric_fold metrics metricKeys N P [] false) by (intros k _ []).
  cbn [app orb]. destruct (usable metrics metricKeys); reflexivity.
Qed.

Lemma flat_map_ext_In {A B : Type} (f g : A -> list B) (l : list A) :
  (forall x, In x l -> f x = g x) -> flat_map f l = flat_map g l.
Proof.
  induction l as [ | x l IH]; simpl; intro H; [ reflexivity | ].
  rewrite (H x (or_introl eq_refl)), IH; auto.
Qed.

Lemma usable_again (metrics : jsval) (keys : list string) :
  NoDup keys ->
  usable (objectOf (usable metrics keys)) keys = usable metrics keys.
Proof.
  intro N. unfold usableMetrics at 1 3. apply flat_map_ext_In. intros k Hk.
  unfold objectOf. cbn [Js.field]. rewrite lookup_objectOf.
  rewrite (usable_get metrics keys k N Hk). cbv zeta.
  destruct (Js.isFinite (Number NumberOfText (Js.field metrics k))) eqn:E;
    simpl; [ now rewrite E | reflexivity ].
Qed.


Lemma sanitized_usable_cases (metrics : jsval) :
  sanitizeWellnessMetrics NumberOfText metrics = VNull \/
  exists kept,
    kept <> [] /\
    sanitizeWellnessMetrics NumberOfText metrics = objectOf kept /\
    Forall (fun entry => In (fst entry) metricKeys) kept.
Proof.
  rewrite sanitize_usable.
  destruct (Js.truthy metrics && Js.typeof_object metrics
            && negb (isEmpty (usable metrics metricKeys))) eqn:E;
    [ right | now left ].
  exists (usable metrics metricKeys). split; [ | split; [ reflexivity | ] ].
  - apply andb_prop in E. destruct E as [_ E].
    destruct (usable metrics metricKeys); [ discriminate | discriminate ].
  - apply Forall_forall. intros entry Hin.
    apply (usable_keys metrics metricKeys). unfold JsMap.keys. now apply in_map.
Qed.

Lemma labelOf_known (key : string) :
  In key metricKeys ->
  exists label, labelOf key = Ok label /\ label <> "".
Proof.
  simpl. intros [<- | [<- | [<- | [<- | [<- | [<- | []]]]]]];
    eexists; (split; [ reflexivity | discriminate ]).
Qed.

Lemma concat_not_empty (sep first : string) (rest : list string) :
  first <> "" -> String.concat sep (first :: rest) <> "".
Proof.
  intro H. destruct rest as [ | second rest]; simpl; [ exact H | ].
  destruct first; [ contradiction | discriminate ].
Qed.

Lemma formatMetric_fold (kept : list (string * float)) :
  Forall (fun entry => In (fst entry) metricKeys) kept ->
  forall formatted,
  exists lines,
    forEach (map (fun entry => (fst entry, VNumber (snd entry))) kept)
      (formatMetric TextOfNumber) formatted = Ok (formatted ++ lines) /\
    List.length lines = List.length kept /\
    Forall (fun line => line <> "") lines.
Proof.
  induction 1 as [ | [k x] rest Hk Hrest IH]; intro formatted.
  - exists []. simpl. rewrite app_nil_r. repeat split. constructor.
  - destruct (labelOf_known k Hk) as (label & Hl & Hne).
    cbn [map forEach fst snd]. unfold formatMetric at 1. cbn [fst snd].
    rewrite Hl. cbn [bind].
    destruct (IH (formatted ++ [(label ++ ": " ++ TextOfNumber x)%string]))
      as (lines & Hf & Hlen & Hall).
    rewrite Hf.
    exists ((label ++ ": " ++ TextOfNumber x)%string :: lines).
    rewrite <- app_assoc. split; [ reflexivity | ].
    split; [ simpl; now rewrite Hlen | ].
    constructor; [ | exact Hall ].
    destruct label; [ contradiction | discriminate ].
Qed.


End Metrics.

(** ** The graph handed to the engine *)

Lemma cloneValue_object (props : list (string * jsval)) :
  cloneValue (VObject props) = VObject (cloneProps props).
Proof.
  simpl. f_equal. unfold cloneProps.
  induction props as [ | [k x] rest IH]; [ reflexivity | ].
  rewrite IH. destruct x; reflexivity.
Qed.

Lemma cloneValue_defined (v : jsval) : cloneValue v <> VUndefined.
Proof.
  destruct v; simpl; try discriminate.
  destruct (Js.isFinite x); [ destruct (is_zero x) | ]; discriminate.
Qed.

Lemma cloneProps_app (front back : list (string * jsval)) :
  cloneProps (front ++ back) = cloneProps front ++ cloneProps back.
Proof. apply flat_map_app. Qed.

Lemma kept_entry (k : string) (y : jsval) :
  y <> VUndefined -> cloneProps [(k, y)] = [(k, cloneValue y)].
Proof. destruct y; intro H; try reflexivity. now elim H. Qed.

Lemma undefined_or_not (x : jsval) : x = VUndefined \/ x <> VUndefined.
Proof. destruct x; (now left) || (right; discriminate). Qed.

Lemma cloneProps_idempotent (props : list (string * jsval)) :
  Forall (fun entry => cloneValue (cloneValue (snd entry)) = cloneValue (snd entry))
    props ->
  cloneProps (cloneProps props) = cloneProps props.
Proof.
  induction 1 as [ | [k x] rest Hx Hrest IH]; [ reflexivity | ].
  change ((k, x) :: rest) with ([(k, x)] ++ rest).
  rewrite !cloneProps_app, IH. f_equal.
  cbn [fst snd] in Hx.
  destruct (undefined_or_not x) as [-> | D]; [ reflexivity | ].
  rewrite (kept_entry k x D).
  rewrite (kept_entry k _ (cloneValue_defined x)). now rewrite Hx.
Qed.

(** A round trip through JSON changes nothing in what has made one. *)
Lemma cloneValue_idempotent (v : jsval) : cloneValue (cloneValue v) = cloneValue v.
Proof.
  induction v using value_induction; try reflexivity.
  - simpl. unfold Js.isFinite.
    destruct (is_finite x) eqn:F; [ | reflexivity ].
    destruct (is_zero x) eqn:Z; simpl; unfold Js.isFinite.
    + reflexivity.
    + now rewrite F, Z.
  - simpl. f_equal. rewrite map_map.
    induction H as [ | x rest Hx Hrest IH]; simpl; [ reflexivity | ].
    now rewrite Hx, IH.
  - rewrite !cloneValue_object. f_equal. now apply cloneProps_idempotent.
Qed.

Lemma buildDefaultCausalGraph_copy :
  buildDefaultCausalGraph = Some DEFAULT_CAUSAL_GRAPH.
Proof. vm_compute. reflexivity. Qed.

Lemma defaultList_copy (key : string) :
  map cloneValue (defaultList key) = defaultList key.
Proof.
  unfold defaultList, DEFAULT_CAUSAL_GRAPH. cbn [Js.field Js.lookup].
  destruct (key =? "variables")%string; [ vm_compute; reflexivity | ].
  destruct (key =? "edges")%string; [ vm_compute; reflexivity | reflexivity ].
Qed.

Lemma adopt_firstArray (graph : jsval) (names : list string) (key : string)
    (resolved : jsval) :
  adopt graph names key resolved
  = Some match firstArray graph names with
         | Some items => assign resolved key (VArray (map cloneValue items))
         | None => resolved
         end.
Proof.
  induction names as [ | name rest IH]; [ reflexivity | ].
  cbn [adopt firstArray].
  destruct (Js.field graph name); try exact IH. reflexivity.
Qed.

Lemma firstArray_none (graph : jsval) (names : list string) :
  negb (Js.truthy graph) || negb (Js.typeof_object graph) = true ->
  firstArray graph names = None.
Proof.
  intro H. induction names as [ | name rest IH]; [ reflexivity | ].
  cbn [firstArray]. destruct graph; try exact IH; discriminate H.
Qed.

Lemma ensureCausalGraph_ensured (graph : jsval) :
  ensureCausalGraph graph = Some (ensuredGraph graph).
Proof.
  unfold ensureCausalGraph, ensuredGraph. rewrite buildDefaultCausalGraph_copy.
  destruct (negb (Js.truthy graph) || negb (Js.typeof_object graph)) eqn:G.
  - rewrite !(firstArray_none graph _ G). reflexivity.
  - rewrite adopt_firstArray.
    destruct (firstArray graph ["variables"; "nodes"; "stocks"]);
      rewrite adopt_firstArray;
      destruct (firstArray graph ["edges"; "links"; "connections"]); reflexivity.
Qed.

Lemma copiedOr_copy (key : string) (found : option (list jsval)) :
  map cloneValue (copiedOr key found) = copiedOr key found.
Proof.
  destruct found as [items | ]; [ | apply defaultList_copy ].
  cbn [copiedOr]. rewrite map_map. apply map_ext. apply cloneValue_idempotent.
Qed.

(** X22. The handler always settles on a graph, and it is an object that
    holds exactly two arrays: under [variables] a copy of the first array
    among the reply's [variables], [nodes] and [stocks], and under [edges]
    a copy of the first among [edges], [links] and [connections]; where
    there is none (or the reply's graph is no object at all), the list of
    the default graph.  Nothing else of the reply's graph is kept, and
    handing the result in again gives the same graph. *)
Theorem ensured_graph (graph : jsval) :
  ensureCausalGraph graph = Some (ensuredGraph graph) /\
  ensureCausalGraph (ensuredGraph graph) = Some (ensuredGraph graph).
Proof.
  split; [ apply ensureCausalGraph_ensured | ].
  rewrite ensureCausalGraph_ensured. f_equal.
  set (vs := copiedOr "variables" (firstArray graph ["variables"; "nodes"; "stocks"])).
  set (es := copiedOr "edges" (firstArray graph ["edges"; "links"; "connections"])).
  assert (V : firstArray (ensuredGraph graph) ["variables"; "nodes"; "stocks"]
              = Some vs) by reflexivity.
  assert (E : firstArray (ensuredGraph graph) ["edges"; "links"; "connections"]
              = Some es) by reflexivity.
  unfold ensuredGraph at 1. rewrite V, E. cbn [copiedOr].
  unfold vs, es. rewrite !copiedOr_copy. reflexivity.
Qed.

Section DefaultIsTemplate.

Variable NumberOfText : jsval -> float.

(** X23. The default graph of the handler is the template of the
    engine.  When the reply's graph has no array under [variables],
    [nodes] or [stocks], the engine normalizes the handler's graph to
    the variables of its own template, and likewise for the edges when
    there is no array under [edges], [links] or [connections]: a
    mapping from names to values, which the engine would accept, is
    replaced before the engine sees it. *)
Theorem default_graph_is_template (graph resolved : jsval) :
  ensureCausalGraph graph = Some resolved ->
  (firstArray graph ["variables"; "nodes"; "stocks"] = None ->
   normalizeVariables NumberOfText resolved = Ok TEMPLATE_VARIABLES) /\
  (firstArray graph ["edges"; "links"; "connections"] = None ->
   normalizeEdges NumberOfText resolved = Ok TEMPLATE_EDGES).
Proof.
  rewrite ensureCausalGraph_ensured. intro E. inversion E. subst resolved.
  unfold ensuredGraph. split; intros ->; cbn [copiedOr].
  - generalize (copiedOr "edges"
                  (firstArray graph ["edges"; "links"; "connections"])).
    intro es. vm_compute. reflexivity.
  - generalize (copiedOr "variables"
                  (firstArray graph ["variables"; "nodes"; "stocks"])).
    intro vs. vm_compute. reflexivity.
Qed.

End DefaultIsTemplate.

(** A reply that maps names to values, which the engine alone would take
    for two variables, runs on the template. *)
Lemma default_graph_is_template_witness :
  normalizeVariables noNumericText
    (VObject [ ("variables", VObject [ ("A", VNumber 1); ("B", VNumber 2) ]) ])
  = Ok [mkVariable "A" 1 1; mkVariable "B" 2 2] /\
  exists resolved,
    ensureCausalGraph
      (VObject [ ("variables", VObject [ ("A", VNumber 1); ("B", VNumber 2) ]) ])
    = Some resolved /\
    normalizeVariables noNumericText resolved = Ok TEMPLATE_VARIABLES /\
    normalizeEdges noNumericText resolved = Ok TEMPLATE_EDGES.
Proof.
  split; [ vm_compute; reflexivity | ].
  eexists. split; [ vm_compute; reflexivity | ].
  split;
    apply (default_graph_is_template noNumericText
             (VObject [ ("variables", VObject [ ("A", VNumber 1); ("B", VNumber 2) ]) ]));
    reflexivity.
Defined.

(** ** What the handler adds to a simulation reply *)

Lemma lookup_absent (values : list (string * float)) (id : string) :
  ~ In id (JsMap.keys values) ->
  Js.field (objectOf values) id = VUndefined.
Proof.
  unfold objectOf. cbn [Js.field].
  induction values as [ | [k x] rest IH]; cbn [map Js.lookup fst snd];
    intro H; [ reflexivity | ].
  destruct (id =? k)%string eqn:E.
  - apply String.eqb_eq in E. subst. elim H. left. reflexivity.
  - apply IH. intro K. apply H. right. exact K.
Qed.

Section Enrichment.

Variable NumberOfText : jsval -> float.

Lemma computeAttractor_label (props : list (string * jsval)) :
  exists label,
    computeAttractor NumberOfText (VObject props) = Ok label /\
    In label attractorLabels.
Proof.
  unfold computeAttractor, attractorLabels. cbn [Js.default Js.get bind].
  match goal with |- context [if ?c then _ else _] => destruct c end;
    [ eexists; split; [ reflexivity | simpl; tauto ] | ].
  match goal with |- context [if ?c then _ else _] => destruct c end;
    eexists; (split; [ reflexivity | simpl; tauto ]).
Qed.

Lemma computeAttractor_absent (values : list (string * float)) :
  (forall id, In id attractorIds -> ~ In id (JsMap.keys values)) ->
  computeAttractor NumberOfText (objectOf values) = Ok "Mixed/Transition".
Proof.
  intro H. unfold computeAttractor.
  change (Js.default (objectOf values) (VObject [])) with (objectOf values).
  change (Js.get (objectOf values) "HPA")
    with (Ok (Js.field (objectOf values) "HPA")).
  cbn [bind].
  rewrite !lookup_absent by (apply H; simpl; tauto).
  reflexivity.
Qed.

(** The engine as the handler calls it: 16 steps on the current state. *)
Lemma handler_run (graph currentState : jsval) (variables : list GVariable)
    (edges : list Edge) :
  resolveGraph NumberOfText (Js.default graph (VObject [])) = Ok (variables, edges) ->
  if anchoringThrows currentState variables
  then runCausalSimulation NumberOfText graph (handlerOptions currentState)
       = TypeError
  else exists result,
         runCausalSimulation NumberOfText graph (handlerOptions currentState)
           = Ok result /\
         map s_step (r_timeSeries result) = stepNumbers 16.
Proof.
  intro Hgraph. unfold runCausalSimulation. rewrite Hgraph. cbn [bind].
  change (Js.get (Js.default (handlerOptions currentState) (VObject []))
            "initialState") with (Ok currentState).
  cbn [bind].
  pose proof (anchoring_outcome NumberOfText variables currentState) as A.
  destruct (anchoringThrows currentState variables).
  - rewrite A. reflexivity.
  - destruct A as (anchored & ->). cbn [bind].
    unfold runEulerSimulation.
    change (Js.default (Js.default (handlerOptions currentState) (VObject []))
              (VObject [])) with (handlerOptions currentState).
    assert (S16 : readSteps (handlerOptions currentState) = 16%Z)
      by (vm_compute; reflexivity).
    rewrite S16.
    destruct (loadVariables anchored) as [values baselines].
    change (maxSteps <? 16)%Z with false. cbn [bind].
    destruct (detectCycles_ok edges) as (found & -> & _).
    eexists. split; [ reflexivity | ]. cbn [r_timeSeries].
    match goal with
    | |- context [eulerLoop ?n ?s ?dt ?d ?b ?e ?v ?ser] =>
        destruct (eulerLoop_series n s dt d b e v ser) as (rest & -> & R)
    end.
    rewrite map_app, R. reflexivity.
Qed.

Lemma enrichSimulation_reads (parsedResponse currentState : jsval) :
  nullish parsedResponse = false ->
  enrichSimulation NumberOfText parsedResponse currentState =
  (simulationOutput <-
     runCausalSimulation NumberOfText
       (ensuredGraph (Js.field parsedResponse "causalGraph"))
       (handlerOptions currentState) ;;
   attractor <-
     (if Js.truthy (Js.field parsedResponse "attractor")
      then Ok (Js.field parsedResponse "attractor")
      else label <-
             computeAttractor NumberOfText
               match rev (r_timeSeries simulationOutput) with
               | [] => VObject []
               | latest :: _ => objectOf (s_values latest)
               end ;;
           Ok (VString label)) ;;
   Ok (mkEnrichment (ensuredGraph (Js.field parsedResponse "causalGraph"))
         (r_timeSeries simulationOutput)
         (r_loopsDetected simulationOutput) (r_loopsDetected simulationOutput)
         (r_newState simulationOutput) attractor
         (coerceString (Js.field parsedResponse "leverageUsed") "Not specified")
         (ensureInterventionsArray
            (Js.field parsedResponse "interventionsPlanned")))).
Proof.
  intro Hn. unfold enrichSimulation.
  replace (Js.get parsedResponse "causalGraph")
    with (Ok (Js.field parsedResponse "causalGraph"))
    by (destruct parsedResponse; try reflexivity; discriminate Hn).
  cbn [bind]. rewrite ensureCausalGraph_ensured. reflexivity.
Qed.

(** In this development the block either throws or completes; what
    it completes with is described here. *)
Lemma simulate_cases (parsedResponse currentState resolved : jsval)
    (variables : list GVariable) (edges : list Edge) :
  ensureCausalGraph (Js.field parsedResponse "causalGraph") = Some resolved ->
  resolveGraph NumberOfText resolved = Ok (variables, edges) ->
  (nullish parsedResponse = true ->
   enrichSimulation NumberOfText parsedResponse currentState = TypeError) /\
  (nullish parsedResponse = false ->
   if anchoringThrows currentState variables
   then enrichSimulation NumberOfText parsedResponse currentState = TypeError
   else exists reply,
          enrichSimulation NumberOfText parsedResponse currentState = Ok reply /\
          n_causalGraph reply = resolved /\
          map s_step (n_timeSeries reply) = stepNumbers 16 /\
          if Js.truthy (Js.field parsedResponse "attractor")
          then n_attractor reply = Js.field parsedResponse "attractor"
          else exists label,
                 n_attractor reply = VString label /\ In label attractorLabels).
Proof.
  rewrite ensureCausalGraph_ensured. intros E Hgraph. inversion E as [E'].
  split.
  - destruct parsedResponse; try discriminate; reflexivity.
  - intro Hn. rewrite (enrichSimulation_reads _ _ Hn). rewrite E'.
    assert (D : Js.default resolved (VObject []) = resolved)
      by (rewrite <- E'; reflexivity).
    rewrite <- D in Hgraph.
    pose proof (handler_run resolved currentState variables edges Hgraph) as R.
    destruct (anchoringThrows currentState variables).
    + rewrite R. reflexivity.
    + destruct R as (result & -> & Hsteps). cbn [bind].
      destruct (Js.truthy (Js.field parsedResponse "attractor")).
      * cbn [bind]. eexists. split; [ reflexivity | ]. simpl. auto.
      * assert (L : exists props,
                  match rev (r_timeSeries result) with
                  | [] => VObject []
                  | latest :: _ => objectOf (s_values latest)
                  end = VObject props)
          by (destruct (rev (r_timeSeries result)); eexists; reflexivity).
        destruct L as (props & ->).
        destruct (computeAttractor_label props) as (label & -> & Hl).
        cbn [bind]. eexists. split; [ reflexivity | ]. simpl.
        split; [ reflexivity | ]. split; [ assumption | ].
        exists label. split; [ reflexivity | exact Hl ].
Qed.


(** X25. The attractor is read off six ids of the template.  For a
    graph whose variables carry none of them, a reply that states no
    attractor gets [Mixed/Transition], whatever the graph's edges and
    values and whatever the current state. *)
Theorem custom_graph_attractor (parsedResponse currentState resolved : jsval)
    (variables : list GVariable) (edges : list Edge) (reply : Enrichment) :
  ensureCausalGraph (Js.field parsedResponse "causalGraph") = Some resolved ->
  resolveGraph NumberOfText resolved = Ok (variables, edges) ->
  (forall id, In id attractorIds -> ~ In id (map v_id variables)) ->
  Js.truthy (Js.field parsedResponse "attractor") = false ->
  enrichSimulation NumberOfText parsedResponse currentState = Ok reply ->
  n_attractor reply = VString "Mixed/Transition".
Proof.
  rewrite ensureCausalGraph_ensured. intros E Hgraph Hcustom Hgiven Hrun.
  inversion E as [E'].
  assert (Hn : nullish parsedResponse = false)
    by (destruct parsedResponse; try reflexivity; discriminate Hrun).
  rewrite (enrichSimulation_reads _ _ Hn), E', Hgiven in Hrun.
  apply bind_Ok in Hrun. destruct Hrun as (result & Hresult & Hrun).
  destruct (runCausalSimulation_stages NumberOfText _ _ _ Hresult)
    as (variables' & edges' & initialState & anchored & simulation & loops
        & Hgraph' & _ & Hanchor & Hsim & _ & ->).
  replace (Js.default resolved (VObject [])) with resolved in Hgraph'
    by (rewrite <- E'; reflexivity).
  rewrite Hgraph in Hgraph'. inversion Hgraph'. subst variables' edges'.
  cbn [r_timeSeries r_loopsDetected r_newState] in Hrun.
  pose proof (finalValues_NoDup _ _ _ _ Hsim) as K.
  destruct (loadVariables_NoDup anchored) as [N _]. rewrite <- K in N.
  pose proof Hsim as Hloop.
  apply runEulerSimulation_Ok in Hloop. destruct Hloop as [_ Hloop].
  match type of Hloop with
  | _ = eulerLoop ?n ?s ?dt ?d ?b ?e ?v ?ser =>
      destruct (eulerLoop_last dt d b e n s v ser) as (earlier & st & L)
  end.
  { exists [], 0%Z. reflexivity. }
  rewrite <- Hloop in L. rewrite L, rev_app_distr in Hrun.
  cbn [rev app] in Hrun.
  rewrite computeAttractor_absent in Hrun.
  - cbn [bind] in Hrun. inversion Hrun. reflexivity.
  - intros id Hid Hin.
    rewrite (captureSnapshot_recorded _ _ N), recorded_keys in Hin.
    apply filter_In in Hin. destruct Hin as [Hin _].
    rewrite K in Hin.
    apply has_In, has_loadVariables in Hin.
    rewrite (applyInitialStateAnchors_ids NumberOfText _ _ _ Hanchor) in Hin.
    exact (Hcustom id Hid Hin).
Qed.

End Enrichment.


(** A reply with the one variable [X] and no attractor, on a current
    state that anchors nothing of it. *)
Lemma custom_graph_attractor_witness :
  exists reply,
    enrichSimulation noNumericText
      (VObject [ ("causalGraph", VObject [ ("variables", VArray [ VString "X" ]) ]) ])
      (VObject [ ("emotion", VNumber 9) ]) = Ok reply /\
    n_attractor reply = VString "Mixed/Transition".
Proof.
  assert (R : exists reply,
            enrichSimulation noNumericText
              (VObject
                 [ ("causalGraph", VObject [ ("variables", VArray [ VString "X" ]) ]) ])
              (VObject [ ("emotion", VNumber 9) ]) = Ok reply)
    by (eexists; vm_compute; reflexivity).
  destruct R as (reply & R). exists reply. split; [ exact R | ].
  apply (custom_graph_attractor noNumericText
           (VObject
              [ ("causalGraph", VObject [ ("variables", VArray [ VString "X" ]) ]) ])
           (VObject [ ("emotion", VNumber 9) ])
           (ensuredGraph (VObject [ ("variables", VArray [ VString "X" ]) ]))
           [mkVariable "X" 5 5] TEMPLATE_EDGES reply).
  - reflexivity.
  - vm_compute. reflexivity.
  - simpl. intros id Hid [E | []]. subst id.
    repeat (destruct Hid as [Hid | Hid]; [ discriminate | ]). exact Hid.
  - reflexivity.
  - exact R.
Defined.
